(** * SmartRetry: a shallow embedding of the retry orchestrator

    The development follows the source files of the package:
    - [utils.ts]      backoff computation, jitter, the cancellable sleep and
                      the network-error test;
    - [policies.ts]   HTTP status extraction and the default retry policy;
    - [errors.ts]     the error classes thrown by the orchestrator;
    - [types.ts]      the options;
    - [smartRetry.ts] option validation and the retry loop.

    Numbers.  A JavaScript [number] is modelled by [num]: a rational, the two
    infinities, or NaN.  Arithmetic on finite values is exact and a result
    whose magnitude reaches 2^1024 becomes an infinity, which is what binary64
    does for a product of a double with a power of two; rounding of
    the mantissa is not modelled.  Attempt counters are integers ([Z]) and the
    durations given in the options are finite.

    Effects.  [smartRetry] is written in state-passing style over a [World]:
    the clock, the counters of the readings of the clock and of
    [Math.random()], and the trace of what the run did.  Time passes while the
    operation runs, while the run sleeps, and before a reading of the clock;
    the [retryOn] and [onRetry] callbacks return or throw at once.  The
    wrapped operation, the random numbers and the delays of the clock make up
    the [Env] of a run.  An [async] function that throws before its first
    [await] returns a rejected promise: a run ends in a [Completion], rejection
    being [Throw].

    The promise that [sleep] returns is given twice: as what awaiting it
    amounts to, which is what the loop uses, and callback by callback.

    The file gives the embedding first, then the vocabulary in which the
    properties are stated, then the properties: those that the specification
    claims, then further ones. *)

From Stdlib Require Import QArith Qround Qpower Qabs Qminmax Lqa.
From stdpp Require Import gmap strings list.
From Equations Require Import Equations.
From Equations.Prop Require Import Logic.

Local Open Scope Z_scope.

(* ===================================================================== *)
(** ** JavaScript numbers *)
(* ===================================================================== *)

Inductive num : Type :=
| Fin (q : Q)
| PosInf
| NegInf
| NaN.

(** The first power of two that is not a finite binary64 value. *)
Definition OVERFLOW : Q := inject_Z (2 ^ 1024).

(** A finite result is kept unless its magnitude overflows. *)
Definition overflow (q : Q) : num :=
  if Qle_bool OVERFLOW q then PosInf
  else if Qle_bool q (- OVERFLOW) then NegInf
  else Fin q.

(** [Number.isFinite]. *)
Definition isFinite (n : num) : bool :=
  match n with Fin _ => true | _ => false end.

(** [Number.isInteger]. *)
Definition isInteger (n : num) : bool :=
  match n with
  | Fin q => Qeq_bool q (inject_Z (Qfloor q))
  | _ => false
  end.

(** [Math.pow(2, e)] for an integer exponent. *)
Definition Math_pow2 (e : Z) : num := overflow (2 ^ e)%Q.

(** The sign of [q] applied to an infinity: [q * Infinity]. *)
Definition scale_inf (q : Q) (pos : bool) : num :=
  match (q ?= 0)%Q with
  | Eq => NaN
  | Gt => if pos then PosInf else NegInf
  | Lt => if pos then NegInf else PosInf
  end.

(** The [*] operator. *)
Definition num_mul (a b : num) : num :=
  match a, b with
  | NaN, _ | _, NaN => NaN
  | Fin x, Fin y => overflow (x * y)
  | Fin x, PosInf | PosInf, Fin x => scale_inf x true
  | Fin x, NegInf | NegInf, Fin x => scale_inf x false
  | PosInf, PosInf | NegInf, NegInf => PosInf
  | PosInf, NegInf | NegInf, PosInf => NegInf
  end.

(** [Math.min] of two arguments. *)
Definition Math_min (a b : num) : num :=
  match a, b with
  | NaN, _ | _, NaN => NaN
  | NegInf, _ | _, NegInf => NegInf
  | PosInf, x | x, PosInf => x
  | Fin x, Fin y => Fin (Qmin x y)
  end.

(** The comparison operators; every comparison with NaN is false. *)
Definition num_leb (a b : num) : bool :=
  match a, b with
  | NaN, _ | _, NaN => false
  | NegInf, _ | _, PosInf => true
  | Fin x, Fin y => Qle_bool x y
  | _, _ => false
  end.

Definition num_geb (a b : num) : bool := num_leb b a.

(** [===] on numbers. *)
Definition num_eqb (a b : num) : bool :=
  match a, b with
  | Fin x, Fin y => Qeq_bool x y
  | PosInf, PosInf | NegInf, NegInf => true
  | _, _ => false
  end.

Coercion Zfin (z : Z) : num := Fin (inject_Z z).

(* ===================================================================== *)
(** ** JavaScript values *)
(* ===================================================================== *)

(** An [unknown] value as the policies inspect it: a primitive, or an object
    seen as the finite map of the properties that [in] finds on it. *)
#[warnings="-register-all"] Inductive JsValue : Type :=
| JUndefined
| JNull
| JBool (b : bool)
| JNumber (n : num)
| JString (s : string)
| JObject (props : gmap string JsValue).

(** The [typeof] operator; [typeof null] is ["object"]. *)
Definition typeof (v : JsValue) : string :=
  match v with
  | JUndefined => "undefined"
  | JNull => "object"
  | JBool _ => "boolean"
  | JNumber _ => "number"
  | JString _ => "string"
  | JObject _ => "object"
  end.

(** [v === null || v === undefined]. *)
Definition nullish (v : JsValue) : bool :=
  match v with JNull | JUndefined => true | _ => false end.

(** [k in v], for [v] an object. *)
Definition has_property (k : string) (v : JsValue) : bool :=
  match v with
  | JObject props => bool_decide (is_Some (props !! k))
  | _ => false
  end.

(** The property read [v.k]; a missing property reads as [undefined]. *)
Definition get_property (v : JsValue) (k : string) : JsValue :=
  match v with
  | JObject props => default JUndefined (props !! k)
  | _ => JUndefined
  end.

(* ===================================================================== *)
(** ** utils.ts *)
(* ===================================================================== *)

(** [calculateBackoffDelay(attempt, baseDelayMs, maxDelayMs)]. *)
Definition calculateBackoffDelay (attempt : Z) (baseDelayMs maxDelayMs : num) : num :=
  let exp := Math_pow2 attempt in
  let delay := num_mul baseDelayMs exp in
  if negb (isFinite delay) then maxDelayMs
  else Math_min maxDelayMs delay.

(** [applyJitter(delay)], with [random] the value [Math.random()] returns. *)
Definition applyJitter (random : Q) (delay : num) : num :=
  num_mul (Fin random) delay.

Definition RETRYABLE_NETWORK_CODES : gset string :=
  {[ "ECONNRESET"; "ETIMEDOUT"; "ENOTFOUND"; "EAI_AGAIN" ]}.

(** [isNetworkError(error)]. *)
Definition isNetworkError (error : JsValue) : bool :=
  if nullish error then false
  else if String.eqb (typeof error) "object" && has_property "code" error then
    match get_property error "code" with
    | JString code => bool_decide (code ∈ RETRYABLE_NETWORK_CODES)
    | _ => false
    end
  else false.

(* ===================================================================== *)
(** ** policies.ts *)
(* ===================================================================== *)

(** The test [typeof status === "number" && Number.isInteger(status)]. *)
Definition integer_status (status : JsValue) : option num :=
  match status with
  | JNumber n => if isInteger n then Some n else None
  | _ => None
  end.

(** [extractHttpStatus(error)]: [error.status], then [error.response.status]. *)
Definition extractHttpStatus (error : JsValue) : option num :=
  if nullish error || negb (String.eqb (typeof error) "object") then None
  else
    match (if has_property "status" error
           then integer_status (get_property error "status") else None) with
    | Some status => Some status
    | None =>
      if has_property "response" error then
        let response := get_property error "response" in
        if negb (nullish response) && String.eqb (typeof response) "object"
           && has_property "status" response
        then integer_status (get_property response "status")
        else None
      else None
    end.

(** [isRetryableHttpError(error)]. *)
Definition isRetryableHttpError (error : JsValue) : bool :=
  match extractHttpStatus error with
  | None => false
  | Some status =>
    if num_eqb status 429 then true
    else if num_geb status 500 && num_leb status 599 then true
    else false
  end.

(** [defaultRetryPolicy(error)]. *)
Definition defaultRetryPolicy (error : JsValue) : bool :=
  if isNetworkError error then true
  else
    match extractHttpStatus error with
    | Some status =>
      if num_eqb status 429 then true
      else if num_geb status 500 && num_leb status 599 then true
      else if num_geb status 400 && num_leb status 499 then false
      else true
    | None => true
    end.

(* ===================================================================== *)
(** ** errors.ts *)
(* ===================================================================== *)

(** A computation that returns normally or throws; for a promise, one that
    resolves or rejects. *)
Inductive Completion (E A : Type) : Type :=
| Normal (a : A)
| Throw (e : E).
Arguments Normal {E A} a.
Arguments Throw {E A} e.

Record RetryErrorMetadata : Type := {
  totalAttempts : Z;
  totalElapsedMs : Q
}.

(** An instance of [SmartRetryError] or of one of its subclasses.  The [name]
    field tells the classes apart; [cause] is the [cause] option given to the
    constructor.  The [message] text, which interpolates the metadata, is left
    out. *)
Record SmartRetryError : Type := {
  name : string;
  metadata : RetryErrorMetadata;
  cause : JsValue
}.

Definition TimeoutError (m : RetryErrorMetadata) (c : JsValue) : SmartRetryError :=
  {| name := "TimeoutError"; metadata := m; cause := c |}.

Definition AbortError (m : RetryErrorMetadata) (c : JsValue) : SmartRetryError :=
  {| name := "AbortError"; metadata := m; cause := c |}.

Definition RetryExhaustedError (m : RetryErrorMetadata) (c : JsValue) : SmartRetryError :=
  {| name := "RetryExhaustedError"; metadata := m; cause := c |}.

(** The plain [Error]s that [validateOptions] throws, one per check, with the
    values its message interpolates. *)
Inductive ConfigError : Type :=
| InvalidMaxRetries (maxRetries : Z)
| InvalidBaseDelay (baseDelayMs : Q)
| InvalidMaxDelay (maxDelayMs effectiveBaseDelay : Q)
| InvalidTimeout (timeoutMs : Q).

(** The message of each, as the template literal of the source. *)
Definition message_template (e : ConfigError) : string :=
  match e with
  | InvalidMaxRetries _ => "smartRetry: maxRetries must be >= 0, received ${maxRetries}"
  | InvalidBaseDelay _ => "smartRetry: baseDelayMs must be > 0, received ${baseDelayMs}"
  | InvalidMaxDelay _ _ =>
      "smartRetry: maxDelayMs (${maxDelayMs}) must be >= baseDelayMs (${effectiveBaseDelay})"
  | InvalidTimeout _ => "smartRetry: timeoutMs must be > 0, received ${timeoutMs}"
  end.

(** What a call of [smartRetry] can reject with. *)
Inductive Thrown : Type :=
| Config (e : ConfigError)
| Retry (e : SmartRetryError)
| Rethrown (v : JsValue).

(* ===================================================================== *)
(** ** types.ts *)
(* ===================================================================== *)

(** An [AbortSignal] as the run observes it: the instant at which it is
    aborted, if ever, and its [reason]. *)
Record AbortSignal : Type := {
  abortAt : option Q;
  reason : JsValue
}.

(** [signal?.aborted], read at instant [t]. *)
Definition aborted (signal : option AbortSignal) (t : Q) : bool :=
  match signal with
  | Some s => match abortAt s with Some a => Qle_bool a t | None => false end
  | None => false
  end.

(** [signal.reason]. *)
Definition signal_reason (signal : option AbortSignal) : JsValue :=
  match signal with Some s => reason s | None => JUndefined end.

(** [RetryOptions].  Every field is optional.  Durations are finite numbers;
    [maxRetries] is an integer.  The callbacks return or throw. *)
Record RetryOptions : Type := {
  maxRetries : option Z;
  baseDelayMs : option Q;
  maxDelayMs : option Q;
  jitter : option bool;
  retryOn : option (JsValue -> Z -> Completion JsValue bool);
  onRetry : option (JsValue -> Z -> num -> Completion JsValue unit);
  timeoutMs : option Q;
  signal : option AbortSignal
}.

(* ===================================================================== *)
(** ** The world a run executes in *)
(* ===================================================================== *)

(** What a run does, in order.  [EvClamp] and [EvDelay] mark program points
    of [smartRetry]; the others are calls that leave it. *)
Inductive Event : Type :=
| EvCall (attempt : Z)                            (* fn(attempt) *)
| EvRetryOn (error : JsValue) (attempt : Z)       (* retryOn(error, attempt) *)
| EvDelay (retryIndex : Z) (delay : num)          (* calculateBackoffDelay(...) *)
| EvRandom                                        (* Math.random() *)
| EvClamp (at_ : Q) (delay : num) (remaining : Q) (* remaining = timeoutMs - elapsed *)
| EvOnRetry (error : JsValue) (attempt : Z) (delay : num)
| EvSleep (at_ : Q) (ms : num).                   (* sleep(ms, signal) *)

Record World : Type := {
  now : Q;              (* the current instant, in milliseconds *)
  reads : nat;          (* how many times Date.now() was called *)
  draws : nat;          (* how many times Math.random() was called *)
  trace : list Event
}.

Definition log (ev : Event) (w : World) : World :=
  {| now := now w; reads := reads w; draws := draws w; trace := trace w ++ [ev] |}.

Definition advance (d : Q) (w : World) : World :=
  {| now := (now w + d)%Q; reads := reads w; draws := draws w; trace := trace w |}.

Definition at_instant (t : Q) (w : World) : World :=
  {| now := t; reads := reads w; draws := draws w; trace := trace w |}.

(** The attempt indices the operation was invoked with, in order. *)
Definition calls (w : World) : list Z :=
  omap (fun ev => match ev with EvCall a => Some a | _ => None end) (trace w).

(** The environment of a run: the wrapped operation, which given the attempt
    index and the instant of the call settles after some duration; the values
    of [Math.random()]; and the time that synchronous code takes before each
    reading of the clock. *)
Record Env (T : Type) : Type := {
  fn : Z -> Q -> Completion JsValue T * Q;
  random : nat -> Q;
  lag : nat -> Q
}.
Arguments fn {T} e.
Arguments random {T} e.
Arguments lag {T} e.

Section Run.
Context {T : Type} (env : Env T).

(** [Date.now()]. *)
Definition Date_now (w : World) : Q * World :=
  let t := (now w + lag env (reads w))%Q in
  (t, {| now := t; reads := S (reads w); draws := draws w; trace := trace w |}).

(** [Math.random()]. *)
Definition Math_random (w : World) : Q * World :=
  (random env (draws w),
   {| now := now w; reads := reads w; draws := S (draws w);
      trace := trace w ++ [EvRandom] |}).

(** [await fn(attempt)]. *)
Definition invoke (attempt : Z) (w : World) : Completion JsValue T * World :=
  let '(result, duration) := fn env attempt (now w) in
  (result, advance duration (log (EvCall attempt) w)).

End Run.

(** The delay of [setTimeout(_, ms)]: an ideal timer fires [ms] later, and at
    once for a negative or non-finite [ms]. *)
Definition timer_delay (ms : num) : Q :=
  match ms with Fin q => Qmax q 0 | _ => 0%Q end.

(** The rejection value of an aborted [sleep]:
    [signal.reason ?? new DOMException("The operation was aborted.", "AbortError")]. *)
Definition DOMException_AbortError : JsValue :=
  JObject {[ "name" := JString "AbortError";
             "message" := JString "The operation was aborted." ]}.

Definition abort_rejection (signal : option AbortSignal) : JsValue :=
  let r := signal_reason signal in
  if nullish r then DOMException_AbortError else r.

(** [await sleep(ms, signal)] (utils.ts).  The promise rejects at once when
    the signal is already aborted, rejects at the instant of the abort when
    that comes before the timer fires, and resolves when the timer fires
    otherwise. *)
Definition sleep (ms : num) (signal : option AbortSignal) (w : World)
  : Completion JsValue unit * World :=
  let w := log (EvSleep (now w) ms) w in
  if aborted signal (now w) then (Throw (abort_rejection signal), w)
  else
    let fire := (now w + timer_delay ms)%Q in
    match signal with
    | Some {| abortAt := Some a |} =>
        if Qle_bool fire a then (Normal tt, at_instant fire w)
        else (Throw (abort_rejection signal), at_instant a w)
    | _ => (Normal tt, at_instant fire w)
    end.

(** *** The promise of [sleep], callback by callback *)

(** What the executor of the promise shares with the runtime: the pending
    timers with the instants at which they fire and the listeners for [abort]
    on the signal, each known by an identifier; the variables [timerId] and
    [onAbort] of the closure; and how the promise has settled, if it has. *)
Record Sleeper : Type := {
  timers : gmap nat Q;
  listeners : gset nat;
  timerId : option nat;
  onAbort : option nat;
  settled : option (Completion JsValue unit)
}.

(** A promise that has just been created, in a runtime that holds the timers
    [ts] and the listeners [ls]. *)
Definition new_sleeper (ts : gmap nat Q) (ls : gset nat) : Sleeper :=
  {| timers := ts; listeners := ls; timerId := None; onAbort := None; settled := None |}.

(** [resolve()] and [reject(v)]: only the first call settles the promise. *)
Definition settle (c : Completion JsValue unit) (p : Sleeper) : Sleeper :=
  match settled p with
  | Some _ => p
  | None => {| timers := timers p; listeners := listeners p; timerId := timerId p;
               onAbort := onAbort p; settled := Some c |}
  end.

(** [cleanup()]. *)
Definition cleanup (signal : option AbortSignal) (p : Sleeper) : Sleeper :=
  let p :=
    match timerId p with
    | Some id =>
        (* clearTimeout(timerId); timerId = undefined *)
        {| timers := delete id (timers p); listeners := listeners p; timerId := None;
           onAbort := onAbort p; settled := settled p |}
    | None => p
    end in
  match onAbort p, signal with
  | Some l, Some _ =>
      (* signal.removeEventListener("abort", onAbort); onAbort = undefined *)
      {| timers := timers p; listeners := listeners p ∖ {[l]}; timerId := timerId p;
         onAbort := None; settled := settled p |}
  | _, _ => p
  end.

(** The executor [(resolve, reject) => { ... }], run at instant [t]. *)
Definition sleep_executor (ms : num) (signal : option AbortSignal) (t : Q) (p : Sleeper)
  : Sleeper :=
  if aborted signal t then settle (Throw (abort_rejection signal)) p
  else
    (* timerId = setTimeout(() => { cleanup(); resolve(); }, ms) *)
    let id := fresh (dom (timers p)) in
    let p := {| timers := <[id := (t + timer_delay ms)%Q]> (timers p);
                listeners := listeners p; timerId := Some id;
                onAbort := onAbort p; settled := settled p |} in
    match signal with
    | Some _ =>
        (* onAbort = () => { ... }; signal.addEventListener("abort", onAbort, { once: true }) *)
        let l := fresh (listeners p) in
        {| timers := timers p; listeners := {[l]} ∪ listeners p; timerId := timerId p;
           onAbort := Some l; settled := settled p |}
    | None => p
    end.

(** The runtime fires the timer [id], if it is still pending: the timer is
    forgotten and its callback [() => { cleanup(); resolve(); }] runs. *)
Definition fire_timer (signal : option AbortSignal) (id : nat) (p : Sleeper) : Sleeper :=
  match timers p !! id with
  | Some _ =>
      let p := {| timers := delete id (timers p); listeners := listeners p;
                  timerId := timerId p; onAbort := onAbort p; settled := settled p |} in
      settle (Normal tt) (cleanup signal p)
  | None => p
  end.

(** The signal is aborted: the listener [l], if it is still registered, is
    removed, as [once] asks, and [() => { cleanup(); reject(...) }] runs. *)
Definition dispatch_abort (signal : option AbortSignal) (l : nat) (p : Sleeper) : Sleeper :=
  if bool_decide (l ∈ listeners p) then
    let p := {| timers := timers p; listeners := listeners p ∖ {[l]};
                timerId := timerId p; onAbort := onAbort p; settled := settled p |} in
    settle (Throw (abort_rejection signal)) (cleanup signal p)
  else p.

(** The life of the promise of [sleep(ms, signal)] created at instant [t]:
    the executor runs, then the timer fires and the signal is aborted, if it
    ever is, in the order of their instants.  The result is the promise
    after both, with the instant at which it settled. *)
Definition sleep_promise (ms : num) (signal : option AbortSignal) (t : Q) (p : Sleeper)
  : Sleeper * Q :=
  let p := sleep_executor ms signal t p in
  match timerId p with
  | None => (p, t)
  | Some id =>
      let due := default t (timers p !! id) in
      match onAbort p, signal with
      | Some l, Some {| abortAt := Some a |} =>
          if Qle_bool due a
          then (dispatch_abort signal l (fire_timer signal id p), due)
          else (fire_timer signal id (dispatch_abort signal l p), a)
      | _, _ => (fire_timer signal id p, due)
      end
  end.

(* ===================================================================== *)
(** ** smartRetry.ts *)
(* ===================================================================== *)

Module DEFAULTS.
Definition maxRetries : Z := 3.
Definition baseDelayMs : Q := 300.
Definition maxDelayMs : Q := 5000.
Definition jitter : bool := true.
End DEFAULTS.

(** [x < y] on finite numbers. *)
Definition Qlt_bool (x y : Q) : bool := negb (Qle_bool y x).

(** One check of [validateOptions]:
    [if (field !== undefined && invalid(field)) throw err(field); rest]. *)
Definition check {A : Type} (field : option A) (invalid : A -> bool)
    (err : A -> ConfigError) (rest : option ConfigError) : option ConfigError :=
  match field with
  | Some x => if invalid x then Some (err x) else rest
  | None => rest
  end.

(** [validateOptions(options)]: [None] when it returns, [Some e] when it
    throws [e]. *)
Definition validateOptions (options : RetryOptions) : option ConfigError :=
  check (maxRetries options) (fun n => n <? 0) InvalidMaxRetries
  (check (baseDelayMs options) (fun b => Qle_bool b 0) InvalidBaseDelay
  (let effectiveBaseDelay := default DEFAULTS.baseDelayMs (baseDelayMs options) in
   check (maxDelayMs options) (fun m => Qlt_bool m effectiveBaseDelay)
         (fun m => InvalidMaxDelay m effectiveBaseDelay)
  (check (timeoutMs options) (fun t => Qle_bool t 0) InvalidTimeout
   None))).

(** What one pass through the body of the [for] loop does. *)
Inductive Step (T : Type) : Type :=
| Return (v : T)              (* return result *)
| Raise (e : Thrown)          (* throw *)
| Break (lastError : JsValue) (* break *)
| Next (lastError : JsValue). (* fall through to attempt++ *)
Arguments Return {T} v.
Arguments Raise {T} e.
Arguments Break {T} lastError.
Arguments Next {T} lastError.

Section Loop.
Context {T : Type} (env : Env T).

(** The options after defaults are applied, and [startTime]. *)
Variables (maxRetries : Z) (baseDelayMs maxDelayMs : Q) (jitter : bool).
Variable retryOn : JsValue -> Z -> Completion JsValue bool.
Variable onRetry : option (JsValue -> Z -> num -> Completion JsValue unit).
Variable timeoutMs : option Q.
Variable signal : option AbortSignal.
Variable startTime : Q.

(** The timeout checks before an attempt and before sleeping:
    [if (timeoutMs !== undefined) { elapsed = Date.now() - startTime;
       if (elapsed >= timeoutMs) throw new TimeoutError(...) }]. *)
Definition check_timeout (attempts : Z) (cause : JsValue) (w : World)
  : option Thrown * World :=
  match timeoutMs with
  | Some timeoutMs =>
      let '(t, w) := Date_now env w in
      let elapsed := (t - startTime)%Q in
      if Qle_bool timeoutMs elapsed
      then (Some (Retry (TimeoutError
              {| totalAttempts := attempts; totalElapsedMs := elapsed |} cause)), w)
      else (None, w)
  | None => (None, w)
  end.

(** [throw new AbortError({ totalAttempts, totalElapsedMs: Date.now() - startTime },
                          { cause })]. *)
Definition throw_abort (attempts : Z) (cause : JsValue) (w : World) : Thrown * World :=
  let '(t, w) := Date_now env w in
  (Retry (AbortError {| totalAttempts := attempts; totalElapsedMs := (t - startTime)%Q |}
            cause), w).

(** The abort checks before an attempt and before sleeping:
    [if (signal?.aborted) throw new AbortError(...)]. *)
Definition check_abort (attempts : Z) (w : World) : option Thrown * World :=
  if aborted signal (now w)
  then let '(e, w) := throw_abort attempts (signal_reason signal) w in (Some e, w)
  else (None, w).

(** "Calculate delay for this retry": the backoff delay, jittered when
    [jitter] is set.  The retry index is the index of the failed attempt. *)
Definition retry_delay (attempt : Z) (w : World) : num * World :=
  let retryIndex := attempt in
  let delay := calculateBackoffDelay retryIndex (Fin baseDelayMs) (Fin maxDelayMs) in
  let w := log (EvDelay retryIndex delay) w in
  if jitter
  then let '(r, w) := Math_random env w in (applyJitter r delay, w)
  else (delay, w).

(** "Clamp delay so we don't sleep past the timeout". *)
Definition clamp_delay (attempt : Z) (error : JsValue) (delay : num) (w : World)
  : (Thrown + num) * World :=
  match timeoutMs with
  | Some timeoutMs =>
      let '(t, w) := Date_now env w in
      let elapsed := (t - startTime)%Q in
      let remaining := (timeoutMs - elapsed)%Q in
      let w := log (EvClamp t delay remaining) w in
      if Qle_bool remaining 0
      then (inl (Retry (TimeoutError
              {| totalAttempts := attempt + 1; totalElapsedMs := elapsed |} error)), w)
      else (inr (Math_min delay (Fin remaining)), w)
  | None => (inr delay, w)
  end.

(** "Notify onRetry callback". *)
Definition notify (attempt : Z) (error : JsValue) (delay : num) (w : World)
  : Completion JsValue unit * World :=
  match onRetry with
  | Some hook => (hook error (attempt + 1) delay,
                  log (EvOnRetry error (attempt + 1) delay) w)
  | None => (Normal tt, w)
  end.

(** "Sleep with abort support": [try { await sleep(delay, signal) } catch { ... }]. *)
Definition sleep_or_abort (attempt : Z) (lastError : JsValue) (delay : num) (w : World)
  : Step T * World :=
  let '(slept, w) := sleep delay signal w in
  match slept with
  | Normal _ => (Next lastError, w)
  | Throw _ =>
    if aborted signal (now w)
    then let '(e, w) := throw_abort (attempt + 1) (signal_reason signal) w in (Raise e, w)
    else let '(e, w) := throw_abort (attempt + 1) lastError w in (Raise e, w)
  end.

(** The part of the [catch] block from the computation of the delay on. *)
Definition delay_and_sleep (attempt : Z) (error : JsValue) (w : World) : Step T * World :=
  let '(delay, w) := retry_delay attempt w in
  let '(clamped, w) := clamp_delay attempt error delay w in
  match clamped with
  | inl e => (Raise e, w)
  | inr delay =>
    let '(notified, w) := notify attempt error delay w in
    match notified with
    | Throw e => (Raise (Rethrown e), w)
    | Normal _ => sleep_or_abort attempt error delay w
    end
  end.

(** The body of the [for] loop. *)
Definition iteration (attempt : Z) (lastError : JsValue) (w : World) : Step T * World :=
  (* Check timeout before each attempt *)
  let '(timedOut, w) := check_timeout attempt lastError w in
  match timedOut with
  | Some e => (Raise e, w)
  | None =>
  (* Check abort before each attempt *)
  let '(abort, w) := check_abort attempt w in
  match abort with
  | Some e => (Raise e, w)
  | None =>
  let '(result, w) := invoke env attempt w in
  match result with
  | Normal result => (Return result, w)
  | Throw error =>
    (* If this was the last possible attempt, break *)
    if attempt >=? maxRetries then (Break error, w)
    else
      (* Check if the error is retryable; if not, rethrow immediately *)
      let w := log (EvRetryOn error attempt) w in
      match retryOn error attempt with
      | Throw e => (Raise (Rethrown e), w)
      | Normal false => (Raise (Rethrown error), w)
      | Normal true =>
        (* Check timeout before sleeping *)
        let '(timedOut, w) := check_timeout (attempt + 1) error w in
        match timedOut with
        | Some e => (Raise e, w)
        | None =>
        (* Check abort before sleeping *)
        let '(abort, w) := check_abort (attempt + 1) w in
        match abort with
        | Some e => (Raise e, w)
        | None => delay_and_sleep attempt error w
        end
        end
      end
  end
  end
  end.

(** The statements after the loop: all retries exhausted. *)
Definition exhausted (lastError : JsValue) (w : World) : Completion Thrown T * World :=
  let '(t, w) := Date_now env w in
  let totalElapsedMs := (t - startTime)%Q in
  (Throw (Retry (RetryExhaustedError
     {| totalAttempts := maxRetries + 1; totalElapsedMs := totalElapsedMs |} lastError)), w).

(** [for (let attempt = 0; attempt <= maxRetries; attempt++) { ... }] followed
    by the statements after it, entered with the given [attempt].  The loop
    ends because [maxRetries - attempt] decreases. *)
Equations? loop (attempt : Z) (lastError : JsValue) (w : World)
  : Completion Thrown T * World by wf (Z.to_nat (maxRetries + 1 - attempt)) lt :=
loop attempt lastError w with inspect (attempt <=? maxRetries) := {
  | exist _ true inside with iteration attempt lastError w := {
    | pair (Return v) w' => (Normal v, w');
    | pair (Raise e) w' => (Throw e, w');
    | pair (Break e) w' => exhausted e w';
    | pair (Next e) w' => loop (attempt + 1) e w' };
  | exist _ false outside => exhausted lastError w }.
Proof. lia. Qed.

End Loop.

(** [smartRetry(fn, options)], entered at instant [t0].  [fn] is part of the
    environment. *)
Definition smartRetry {T : Type} (env : Env T) (options : RetryOptions) (t0 : Q)
  : Completion Thrown T * World :=
  let w := {| now := t0; reads := 0; draws := 0; trace := [] |} in
  match validateOptions options with
  | Some e => (Throw (Config e), w)
  | None =>
    let maxRetries := default DEFAULTS.maxRetries (maxRetries options) in
    let baseDelayMs := default DEFAULTS.baseDelayMs (baseDelayMs options) in
    let maxDelayMs := default DEFAULTS.maxDelayMs (maxDelayMs options) in
    let jitter := default DEFAULTS.jitter (jitter options) in
    let retryOn := default (fun error _ => Normal (defaultRetryPolicy error)) (retryOn options) in
    let onRetry := onRetry options in
    let timeoutMs := timeoutMs options in
    let signal := signal options in
    let '(startTime, w) := Date_now env w in
    (* Check if already aborted *)
    if aborted signal (now w)
    then (Throw (Retry (AbortError {| totalAttempts := 0; totalElapsedMs := 0 |}
                          (signal_reason signal))), w)
    else loop env maxRetries baseDelayMs maxDelayMs jitter retryOn onRetry timeoutMs
              signal startTime 0 JUndefined w
  end.

(* ===================================================================== *)
(** ** Vocabulary of the specification *)
(* ===================================================================== *)

(** [v.status] when [v] is an object whose [status] is an integer number. *)
Definition own_status (v : JsValue) : option num :=
  match v with
  | JObject props =>
      match props !! "status" with
      | Some (JNumber n) => if isInteger n then Some n else None
      | _ => None
      end
  | _ => None
  end.

(** The number [n] is the integer [s]. *)
Definition status_is (n : num) (s : Z) : Prop :=
  match n with Fin q => (q == inject_Z s)%Q | _ => False end.

(** A [TimeoutError] or an [AbortError]: the run was cut short. *)
Definition interruption (x : SmartRetryError) : Prop :=
  name x = "TimeoutError" \/ name x = "AbortError".

Definition call_of (ev : Event) : option Z :=
  match ev with EvCall a => Some a | _ => None end.

(** The events of the delay block: neither a call of the operation nor of
    the classifier. *)
Definition delay_block_event (ev : Event) : Prop :=
  match ev with EvCall _ | EvRetryOn _ _ => False | _ => True end.

(** The options after defaults are applied. *)
Definition effective_maxRetries (options : RetryOptions) : Z :=
  default DEFAULTS.maxRetries (maxRetries options).

Definition effective_retryOn (options : RetryOptions)
  : JsValue -> Z -> Completion JsValue bool :=
  default (fun error _ => Normal (defaultRetryPolicy error)) (retryOn options).

(** The world in which the loop is entered. *)
Definition entry_world {T} (env : Env T) (t0 : Q) : World :=
  {| now := (t0 + lag env 0)%Q; reads := 1; draws := 0; trace := [] |}.


(** The outcomes of one pass through the loop body, told by the events the
    pass appends to the trace.  The parameters are the options after defaults
    are applied, and [startTime]. *)
Section Outcomes.
Context {T : Type} (env : Env T).
Variables (maxRetries : Z) (baseDelayMs maxDelayMs : Q) (jitter : bool).
Variable retryOn : JsValue -> Z -> Completion JsValue bool.
Variable onRetry : option (JsValue -> Z -> num -> Completion JsValue unit).
Variable timeoutMs : option Q.
Variable signal : option AbortSignal.
Variable startTime : Q.

(** An interruption with its reason: a [TimeoutError] is thrown only once
    the elapsed time has reached the budget, an [AbortError] only once the
    signal is aborted. *)
Definition interrupted (x : SmartRetryError) : Prop :=
  (name x = "TimeoutError" /\
   exists t, timeoutMs = Some t /\ (t <= totalElapsedMs (metadata x))%Q)
  \/ (name x = "AbortError" /\ exists at_, aborted signal at_ = true).

Definition delay_events (a : Z) : list Event :=
  EvDelay a (calculateBackoffDelay a (Fin baseDelayMs) (Fin maxDelayMs))
  :: (if jitter then [EvRandom] else []).

Definition clamp_events (at_ : Q) (d : num) : list Event :=
  match timeoutMs with
  | Some t => [EvClamp at_ d (t - (at_ - startTime))%Q]
  | None => []
  end.

Definition notify_events (a : Z) (error : JsValue) (d : num) : list Event :=
  match onRetry with
  | Some _ => [EvOnRetry error (a + 1) d]
  | None => []
  end.

(** The delay [d'] that is slept at instant [at_], given the delay [d]
    computed: with a timeout, budget remains and [d'] is the smaller of [d]
    and the budget. *)
Definition within_budget (at_ : Q) (d d' : num) : Prop :=
  match timeoutMs with
  | Some t => (0 < t - (at_ - startTime))%Q /\ d' = Math_min d (Fin (t - (at_ - startTime))%Q)
  | None => d' = d
  end.

Inductive delay_outcome (a : Z) (error : JsValue) (w : World) : Step T -> World -> Prop :=
| delay_timeout t at_ d w' :
    timeoutMs = Some t ->
    (t - (at_ - startTime) <= 0)%Q ->
    trace w' = trace w ++ delay_events a ++ [EvClamp at_ d (t - (at_ - startTime))%Q] ->
    delay_outcome a error w
      (Raise (Retry (TimeoutError
         {| totalAttempts := a + 1; totalElapsedMs := (at_ - startTime)%Q |} error))) w'
| delay_hook_throws at_ d d' hook e w' :
    within_budget at_ d d' ->
    onRetry = Some hook -> hook error (a + 1) d' = Throw e ->
    trace w' = trace w ++ delay_events a ++ clamp_events at_ d
                 ++ [EvOnRetry error (a + 1) d'] ->
    delay_outcome a error w (Raise (Rethrown e)) w'
| delay_slept at_ d d' s w' :
    within_budget at_ d d' ->
    (forall hook, onRetry = Some hook -> exists u, hook error (a + 1) d' = Normal u) ->
    trace w' = trace w ++ delay_events a ++ clamp_events at_ d
                 ++ notify_events a error d' ++ [EvSleep at_ d'] ->
    (s = Next error \/
     exists elapsed c at_', aborted signal at_' = true /\
       s = Raise (Retry (AbortError
        {| totalAttempts := a + 1; totalElapsedMs := elapsed |} c))) ->
    delay_outcome a error w s w'.

Inductive iteration_outcome (a : Z) (lastError : JsValue) (w : World)
  : Step T -> World -> Prop :=
| iter_interrupted x w' :
    interrupted x -> totalAttempts (metadata x) = a ->
    trace w' = trace w ->
    iteration_outcome a lastError w (Raise (Retry x)) w'
| iter_return v t d w' :
    fn env a t = (Normal v, d) ->
    trace w' = trace w ++ [EvCall a] ->
    iteration_outcome a lastError w (Return v) w'
| iter_break error t d w' :
    maxRetries <= a ->
    fn env a t = (Throw error, d) ->
    trace w' = trace w ++ [EvCall a] ->
    iteration_outcome a lastError w (Break error) w'
| iter_policy_throws error t d e w' :
    a < maxRetries ->
    fn env a t = (Throw error, d) ->
    retryOn error a = Throw e ->
    trace w' = trace w ++ [EvCall a; EvRetryOn error a] ->
    iteration_outcome a lastError w (Raise (Rethrown e)) w'
| iter_policy_stops error t d w' :
    a < maxRetries ->
    fn env a t = (Throw error, d) ->
    retryOn error a = Normal false ->
    trace w' = trace w ++ [EvCall a; EvRetryOn error a] ->
    iteration_outcome a lastError w (Raise (Rethrown error)) w'
| iter_interrupted_after error t d x w' :
    a < maxRetries ->
    fn env a t = (Throw error, d) ->
    retryOn error a = Normal true ->
    interrupted x -> totalAttempts (metadata x) = a + 1 ->
    trace w' = trace w ++ [EvCall a; EvRetryOn error a] ->
    iteration_outcome a lastError w (Raise (Retry x)) w'
| iter_delay error t d w1 s w' :
    a < maxRetries ->
    fn env a t = (Throw error, d) ->
    retryOn error a = Normal true ->
    trace w1 = trace w ++ [EvCall a; EvRetryOn error a] ->
    delay_outcome a error w1 s w' ->
    iteration_outcome a lastError w s w'.

(** Every consultation of the classifier follows a failed call of an attempt
    before the last. *)
Definition classifier_after_failure (tr : list Event) : Prop :=
  forall e b, EvRetryOn e b ∈ tr ->
    0 <= b < maxRetries /\ EvCall b ∈ tr /\ exists t d, fn env b t = (Throw e, d).

(** What the time budget [t] asks of the events [evs] that lead to [s]:
    every sleep starts with budget left and lasts the smaller of the delay
    computed and that budget; a clamp that finds no budget left is the last
    event and leads to a [TimeoutError]. *)
Definition budget_events (t : Q) (evs : list Event) (s : Step T) : Prop :=
  (forall at_ ms, EvSleep at_ ms ∈ evs ->
     (0 < t - (at_ - startTime))%Q
     /\ exists d, EvClamp at_ d (t - (at_ - startTime))%Q ∈ evs
          /\ ms = Math_min d (Fin (t - (at_ - startTime))%Q))
  /\ (forall at_ d r, EvClamp at_ d r ∈ evs ->
        r = (t - (at_ - startTime))%Q
        /\ ((r <= 0)%Q ->
            last evs = Some (EvClamp at_ d r)
            /\ exists n c, s = Raise (Retry (TimeoutError
                 {| totalAttempts := n; totalElapsedMs := (at_ - startTime)%Q |} c)))).

(** Over a whole loop: every sleep of the run starts with budget left, lasts
    no longer than that budget and so ends by the deadline; a clamp that finds
    the budget spent ends the run in a [TimeoutError]. *)
Definition sleeps_within_budget (t : Q) (tr : list Event) : Prop :=
  forall at_ ms, EvSleep at_ ms ∈ tr ->
    (0 < t - (at_ - startTime))%Q
    /\ (exists d, EvClamp at_ d (t - (at_ - startTime))%Q ∈ tr
          /\ ms = Math_min d (Fin (t - (at_ - startTime))%Q))
    /\ (at_ + timer_delay ms <= startTime + t)%Q.

Definition spent_budget_times_out (t : Q) (r : Completion Thrown T * World) : Prop :=
  forall at_ d rem, EvClamp at_ d rem ∈ trace r.2 ->
    rem = (t - (at_ - startTime))%Q
    /\ ((rem <= 0)%Q ->
        last (trace r.2) = Some (EvClamp at_ d rem)
        /\ exists n c, r.1 = Throw (Retry (TimeoutError
             {| totalAttempts := n; totalElapsedMs := (at_ - startTime)%Q |} c))).

End Outcomes.

(** *** Further vocabulary: delays, errors and the operation *)

(** The delays slept, in order. *)
Definition sleep_delays (w : World) : list num :=
  omap (fun ev => match ev with EvSleep _ ms => Some ms | _ => None end) (trace w).

(** The attempt indices the hook was called with, in order. *)
Definition onRetry_attempts (w : World) : list Z :=
  omap (fun ev => match ev with EvOnRetry _ a _ => Some a | _ => None end) (trace w).

Definition sleep_of (ev : Event) : option num :=
  match ev with EvSleep _ ms => Some ms | _ => None end.

Definition hook_delay_of (ev : Event) : option num :=
  match ev with EvOnRetry _ _ d => Some d | _ => None end.

Definition hook_attempt_of (ev : Event) : option Z :=
  match ev with EvOnRetry _ a _ => Some a | _ => None end.

(** The delay computed for the retry that follows the failure of attempt [a],
    before it is clamped: the backoff delay, scaled by the [n]-th random
    number when [jitter] is set. *)
Definition jittered_delay {T} (env : Env T) (baseDelayMs maxDelayMs : Q) (jitter : bool)
    (a : Z) (n : nat) : num :=
  let delay := calculateBackoffDelay a (Fin baseDelayMs) (Fin maxDelayMs) in
  if jitter then applyJitter (random env n) delay else delay.

(** [ms] is what the run sleeps after the failure of attempt [a]: the delay
    computed, clamped to the budget that remains when there is a timeout. *)
Definition slept_delay {T} (env : Env T) (baseDelayMs maxDelayMs : Q) (jitter : bool)
    (timeoutMs : option Q) (startTime : Q) (a : Z) (ms : num) : Prop :=
  exists n at_, within_budget timeoutMs startTime at_
                  (jittered_delay env baseDelayMs maxDelayMs jitter a n) ms.

(** How many times [Math.random()] was called, and the retry indices for
    which a delay was computed. *)
Definition random_of (ev : Event) : option unit :=
  match ev with EvRandom => Some tt | _ => None end.

Definition delay_index_of (ev : Event) : option Z :=
  match ev with EvDelay i _ => Some i | _ => None end.

Definition random_calls (w : World) : nat := length (omap random_of (trace w)).

Definition delay_indices (w : World) : list Z := omap delay_index_of (trace w).

(** The error of the last call made, as the run remembers it in [lastError]:
    [undefined] before the first call. *)
Definition last_error_of {T} (env : Env T) (cs : list Z) (e : JsValue) : Prop :=
  match last cs with
  | None => e = JUndefined
  | Some a => exists t d, fn env a t = (Throw e, d)
  end.

(** The errors that cut a run short, with what they say: a [TimeoutError]
    carries the error [le] and an elapsed time that has reached the budget; an
    [AbortError] carries [signal.reason], of a signal that is aborted. *)
Definition interruption_of (timeoutMs : option Q) (signal : option AbortSignal)
    (le : JsValue) (x : SmartRetryError) : Prop :=
  (name x = "TimeoutError" /\ cause x = le
   /\ exists t, timeoutMs = Some t /\ (t <= totalElapsedMs (metadata x))%Q)
  \/ (name x = "AbortError" /\ cause x = signal_reason signal
      /\ exists sg ab, signal = Some sg /\ abortAt sg = Some ab).

(** What each of the three errors of a run says about the run, [cs] being
    the calls made. *)
Definition error_account {T} (env : Env T) (maxRetries : Z) (timeoutMs : option Q)
    (signal : option AbortSignal) (cs : list Z) (x : SmartRetryError) : Prop :=
  (exists le, interruption_of timeoutMs signal le x
     /\ (name x = "TimeoutError" -> last_error_of env cs le))
  \/ (name x = "RetryExhaustedError"
      /\ totalAttempts (metadata x) = maxRetries + 1
      /\ cs = seqZ 0 (maxRetries + 1)
      /\ exists t d, fn env maxRetries t = (Throw (cause x), d)).

(** The environment [env] with another operation. *)
Definition with_operation {T} (env : Env T) (fn' : Z -> Q -> Completion JsValue T * Q)
  : Env T :=
  {| fn := fn'; random := random env; lag := lag env |}.

(** The instants at which a run may start the operation: the signal is not
    aborted, and the time elapsed since [startTime] is below the budget. *)
Definition live (timeoutMs : option Q) (signal : option AbortSignal) (startTime t : Q)
  : Prop :=
  aborted signal t = false
  /\ forall budget, timeoutMs = Some budget -> (t - startTime < budget)%Q.

(** The rounds of a run.  A full round is what a pass through the loop body
    does when attempt [a] fails and is retried: the call, the consultation of
    the retry predicate, the computation of the delay, its clamp, the hook
    and the sleep, in this order.  A partial round is what the last pass
    does when it stops before its sleep. *)
Section Rounds.
Variables (baseDelayMs maxDelayMs : Q) (jitter : bool).
Variable onRetry : option (JsValue -> Z -> num -> Completion JsValue unit).
Variable timeoutMs : option Q.
Variable startTime : Q.

Definition full_round (a : Z) (evs : list Event) : Prop :=
  exists error d at_ ms,
    evs = [EvCall a; EvRetryOn error a]
          ++ delay_events baseDelayMs maxDelayMs jitter a
          ++ clamp_events timeoutMs startTime at_ d
          ++ notify_events onRetry a error ms ++ [EvSleep at_ ms].

Definition partial_round (a : Z) (evs : list Event) : Prop :=
  evs = []
  \/ evs = [EvCall a]
  \/ (exists error, evs = [EvCall a; EvRetryOn error a])
  \/ (exists error d at_ remaining,
        evs = [EvCall a; EvRetryOn error a]
              ++ delay_events baseDelayMs maxDelayMs jitter a
              ++ [EvClamp at_ d remaining])
  \/ (exists error d at_ ms,
        evs = [EvCall a; EvRetryOn error a]
              ++ delay_events baseDelayMs maxDelayMs jitter a
              ++ clamp_events timeoutMs startTime at_ d
              ++ [EvOnRetry error (a + 1) ms]).

(** A trace made of the full rounds of the attempts [0] to [k - 1] and of a
    partial round of attempt [k]. *)
Definition rounds_of (k : Z) (tr : list Event) : Prop :=
  exists rounds tail,
    tr = concat rounds ++ tail
    /\ Forall2 full_round (seqZ 0 k) rounds
    /\ partial_round k tail.

End Rounds.

(* ===================================================================== *)
(** ** Concrete environments and options *)
(* ===================================================================== *)

(** An operation that fails at once with the same error on every call. *)
Definition env_bad_request : Env unit :=
  {| fn := fun _ _ => (Throw (JString "bad request"), 0%Q);
     random := fun _ => 0%Q;
     lag := fun _ => 0%Q |}.

(** [{ maxRetries: 0, retryOn: () => false }]. *)
Definition options_never_retry_no_retries : RetryOptions :=
  {| maxRetries := Some 0; baseDelayMs := None; maxDelayMs := None; jitter := None;
     retryOn := Some (fun _ _ => Normal false); onRetry := None;
     timeoutMs := None; signal := None |}.

(** [{ baseDelayMs: 10000, jitter: false }]: the default [maxDelayMs] of 5000
    is below the base delay. *)
Definition options_base_above_default_max : RetryOptions :=
  {| maxRetries := None; baseDelayMs := Some 10000%Q; maxDelayMs := None;
     jitter := Some false; retryOn := None; onRetry := None;
     timeoutMs := None; signal := None |}.

(** An operation that takes 10 ms and fails, on every call; [Math.random()]
    returns one half. *)
Definition env_always_failing : Env unit :=
  {| fn := fun _ _ => (Throw (JString "boom"), 10%Q);
     random := fun _ => (1 # 2)%Q;
     lag := fun _ => 0%Q |}.

(** [{ maxRetries: 2, baseDelayMs: 100, jitter: false }]. *)
Definition options_two_retries : RetryOptions :=
  {| maxRetries := Some 2; baseDelayMs := Some 100%Q; maxDelayMs := None;
     jitter := Some false; retryOn := None; onRetry := None;
     timeoutMs := None; signal := None |}.

(** [{ maxRetries: 5, baseDelayMs: 100, jitter: true, timeoutMs: 250 }]. *)
Definition options_budget_250 : RetryOptions :=
  {| maxRetries := Some 5; baseDelayMs := Some 100%Q; maxDelayMs := None;
     jitter := Some true; retryOn := None; onRetry := None;
     timeoutMs := Some 250%Q; signal := None |}.

(** [{ maxRetries: 3, retryOn: () => false }]. *)
Definition options_never_retry : RetryOptions :=
  {| maxRetries := Some 3; baseDelayMs := None; maxDelayMs := None; jitter := None;
     retryOn := Some (fun _ _ => Normal false); onRetry := None;
     timeoutMs := None; signal := None |}.

(** [{ maxRetries: 0 }]. *)
Definition options_no_retries : RetryOptions :=
  {| maxRetries := Some 0; baseDelayMs := None; maxDelayMs := None; jitter := None;
     retryOn := None; onRetry := None; timeoutMs := None; signal := None |}.

(** [{ maxDelayMs: 100 }]. *)
Definition options_small_maxDelay : RetryOptions :=
  {| maxRetries := None; baseDelayMs := None; maxDelayMs := Some 100%Q; jitter := None;
     retryOn := None; onRetry := None; timeoutMs := None; signal := None |}.

(** The error that ends the run of [env_always_failing] under
    [options_budget_250]. *)
Definition timeout_after_three_attempts : SmartRetryError :=
  Eval vm_compute in
    match (smartRetry env_always_failing options_budget_250 0).1 with
    | Throw (Retry x) => x
    | _ => TimeoutError {| totalAttempts := 0; totalElapsedMs := 0 |} JUndefined
    end.

(** The environments and options of the scenarios of the test suite
    (tests/smartRetry.test.ts); [new Error(m)] is an object with a [message]. *)
Definition error_with_message (m : string) : JsValue :=
  JObject {[ "message" := JString m ]}.

(** An operation that settles at once: it fails with [new Error("fail")]
    while [attempt < succeeds_at] and returns ["done"] from then on. *)
Definition env_succeeds_at (succeeds_at : Z) : Env string :=
  {| fn := fun attempt _ =>
             if attempt <? succeeds_at
             then (Throw (error_with_message "fail"), 0%Q)
             else (Normal "done"%string, 0%Q);
     random := fun _ => (1 # 2)%Q;
     lag := fun _ => 0%Q |}.

(** An operation that takes 200 ms and fails. *)
Definition env_slow_failing : Env string :=
  {| fn := fun _ _ => (Throw (error_with_message "fail"), 200%Q);
     random := fun _ => (1 # 2)%Q;
     lag := fun _ => 0%Q |}.

(** [{ maxRetries: 3, baseDelayMs: 100, maxDelayMs: 10000, jitter: false,
       onRetry }], with a hook that returns. *)
Definition options_backoff_hook : RetryOptions :=
  {| maxRetries := Some 3; baseDelayMs := Some 100%Q; maxDelayMs := Some 10000%Q;
     jitter := Some false; retryOn := None;
     onRetry := Some (fun _ _ _ => Normal tt);
     timeoutMs := None; signal := None |}.

(** [{ maxRetries: 10, baseDelayMs: 100, timeoutMs: 500, jitter: false }]. *)
Definition options_timeout_500 : RetryOptions :=
  {| maxRetries := Some 10; baseDelayMs := Some 100%Q; maxDelayMs := None;
     jitter := Some false; retryOn := None; onRetry := None;
     timeoutMs := Some 500%Q; signal := None |}.

(** [{ maxRetries: 5, baseDelayMs: 1000, jitter: false, signal }] with a
    signal aborted at the given instant for the reason ["user cancelled"]. *)
Definition options_aborted_at (a : Q) : RetryOptions :=
  {| maxRetries := Some 5; baseDelayMs := Some 1000%Q; maxDelayMs := None;
     jitter := Some false; retryOn := None; onRetry := None;
     timeoutMs := None;
     signal := Some {| abortAt := Some a; reason := JString "user cancelled" |} |}.

(** The delays the hook was called with, in order. *)
Definition onRetry_delays (w : World) : list num :=
  omap (fun ev => match ev with EvOnRetry _ _ d => Some d | _ => None end) (trace w).

(** The class of the error a run ended with, if it ended with one of the
    errors of errors.ts. *)
Definition error_name {T} (out : Completion Thrown T) : option string :=
  match out with Throw (Retry x) => Some (name x) | _ => None end.

(** [{}]: every option at its default. *)
Definition options_default : RetryOptions :=
  {| maxRetries := None; baseDelayMs := None; maxDelayMs := None; jitter := None;
     retryOn := None; onRetry := None; timeoutMs := None; signal := None |}.

(** An operation that fails at once with an error of status 404. *)
Definition env_not_found : Env unit :=
  {| fn := fun _ _ => (Throw (JObject {[ "status" := JNumber 404 ]}), 0%Q);
     random := fun _ => 0%Q;
     lag := fun _ => 0%Q |}.

(** An operation that fails like that of [env_succeeds_at 100] before the
    instant 500 and would succeed from then on. *)
Definition env_succeeds_after_500 : Env string :=
  with_operation (env_succeeds_at 100)
    (fun attempt t => if Qle_bool 500 t then (Normal "late"%string, 0%Q)
                      else fn (env_succeeds_at 100) attempt t).

(** The errors that end the runs of [env_succeeds_at 100] under
    [options_aborted_at 500] and of [env_always_failing] under
    [options_two_retries]. *)
Definition abort_during_first_sleep : SmartRetryError :=
  Eval vm_compute in
    match (smartRetry (env_succeeds_at 100) (options_aborted_at 500) 0).1 with
    | Throw (Retry x) => x
    | _ => AbortError {| totalAttempts := 0; totalElapsedMs := 0 |} JUndefined
    end.

Definition exhausted_after_three_attempts : SmartRetryError :=
  Eval vm_compute in
    match (smartRetry env_always_failing options_two_retries 0).1 with
    | Throw (Retry x) => x
    | _ => RetryExhaustedError {| totalAttempts := 0; totalElapsedMs := 0 |} JUndefined
    end.

(* ===================================================================== *)
(** * Properties *)
(* ===================================================================== *)

(** ** The scenarios of the test suite *)

Example backoff_attempt_0 : calculateBackoffDelay 0 300 5000 = 300.
Proof. vm_compute. reflexivity. Qed.

Example backoff_doubles :
  calculateBackoffDelay 1 300 5000 = 600
  /\ calculateBackoffDelay 2 300 5000 = 1200
  /\ calculateBackoffDelay 3 300 5000 = 2400.
Proof. vm_compute. repeat split. Qed.

Example backoff_clamps :
  calculateBackoffDelay 5 300 5000 = 5000 /\ calculateBackoffDelay 10 300 5000 = 5000.
Proof. vm_compute. repeat split. Qed.

Example backoff_overflow : calculateBackoffDelay 1024 300 5000 = 5000.
Proof. vm_compute. reflexivity. Qed.

Example network_codes :
  isNetworkError (JObject {[ "code" := JString "ECONNRESET" ]}) = true
  /\ isNetworkError (JObject {[ "code" := JString "EAI_AGAIN" ]}) = true
  /\ isNetworkError (JObject {[ "code" := JString "ENOENT" ]}) = false
  /\ isNetworkError JNull = false /\ isNetworkError JUndefined = false.
Proof. vm_compute. repeat split. Qed.

Example retryable_http_statuses :
  isRetryableHttpError (JObject {[ "status" := JNumber 429 ]}) = true
  /\ isRetryableHttpError (JObject {[ "status" := JNumber 503 ]}) = true
  /\ isRetryableHttpError (JObject {[ "status" := JNumber 404 ]}) = false
  /\ isRetryableHttpError (JObject {[ "response" := JObject {[ "status" := JNumber 503 ]} ]})
     = true
  /\ isRetryableHttpError (JObject {[ "response" := JObject {[ "status" := JNumber 400 ]} ]})
     = false
  /\ isRetryableHttpError (error_with_message "fail") = false.
Proof. vm_compute. repeat split. Qed.

Example default_policy :
  defaultRetryPolicy (JObject {[ "code" := JString "ECONNRESET" ]}) = true
  /\ defaultRetryPolicy (JObject {[ "status" := JNumber 500 ]}) = true
  /\ defaultRetryPolicy (JObject {[ "status" := JNumber 429 ]}) = true
  /\ defaultRetryPolicy (JObject {[ "status" := JNumber 400 ]}) = false
  /\ defaultRetryPolicy (JObject {[ "status" := JNumber 404 ]}) = false
  /\ defaultRetryPolicy (error_with_message "fetch failed") = true.
Proof. vm_compute. repeat split. Qed.

(** "passes attempt index to fn starting at 0": success on the third call. *)
Example succeeds_on_third_call :
  (smartRetry (env_succeeds_at 2) options_backoff_hook 0).1 = Normal "done"%string
  /\ calls (smartRetry (env_succeeds_at 2) options_backoff_hook 0).2 = [0; 1; 2].
Proof. vm_compute. repeat split. Qed.

(** "uses exponential backoff delays when jitter is false". *)
Example backoff_delays_without_jitter :
  error_name (smartRetry (env_succeeds_at 100) options_backoff_hook 0).1
  = Some "RetryExhaustedError"%string
  /\ calls (smartRetry (env_succeeds_at 100) options_backoff_hook 0).2 = [0; 1; 2; 3]
  /\ onRetry_delays (smartRetry (env_succeeds_at 100) options_backoff_hook 0).2
     = [Fin 100; Fin 200; Fin 400].
Proof. vm_compute. repeat split. Qed.

(** "throws TimeoutError when total time exceeds timeoutMs". *)
Example slow_operation_times_out :
  error_name (smartRetry env_slow_failing options_timeout_500 0).1
  = Some "TimeoutError"%string
  /\ calls (smartRetry env_slow_failing options_timeout_500 0).2 = [0; 1].
Proof. vm_compute. repeat split. Qed.

(** "throws AbortError immediately when signal is already aborted" and
    "throws AbortError when signal is aborted during retry delay". *)
Example aborted_runs :
  error_name (smartRetry (env_succeeds_at 100) (options_aborted_at 0) 0).1
  = Some "AbortError"%string
  /\ calls (smartRetry (env_succeeds_at 100) (options_aborted_at 0) 0).2 = []
  /\ error_name (smartRetry (env_succeeds_at 100) (options_aborted_at 500) 0).1
     = Some "AbortError"%string
  /\ calls (smartRetry (env_succeeds_at 100) (options_aborted_at 500) 0).2 = [0].
Proof. vm_compute. repeat split. Qed.

(** "works with maxRetries = 0 (single attempt)". *)
Example single_attempt :
  error_name (smartRetry (env_succeeds_at 100) options_no_retries 0).1
  = Some "RetryExhaustedError"%string
  /\ calls (smartRetry (env_succeeds_at 100) options_no_retries 0).2 = [0].
Proof. vm_compute. repeat split. Qed.

(** ** Numbers *)

Lemma OVERFLOW_pos : (0 < OVERFLOW)%Q.
Proof. reflexivity. Qed.

Lemma OVERFLOW_power : (OVERFLOW == 2 ^ 1024)%Q.
Proof. unfold OVERFLOW. rewrite Zpower_Qpower by lia. reflexivity. Qed.

Lemma overflow_cases q :
  ((OVERFLOW <= q)%Q /\ overflow q = PosInf) \/
  ((q <= - OVERFLOW)%Q /\ overflow q = NegInf) \/
  ((- OVERFLOW < q)%Q /\ (q < OVERFLOW)%Q /\ overflow q = Fin q).
Proof.
  unfold overflow.
  destruct (Qle_bool OVERFLOW q) eqn:Hhi.
  - left. split; [by apply Qle_bool_iff | done].
  - right. destruct (Qle_bool q (- OVERFLOW)) eqn:Hlo.
    + left. split; [by apply Qle_bool_iff | done].
    + right. repeat split.
      * apply Qnot_le_lt. intros H. apply Qle_bool_iff in H. congruence.
      * apply Qnot_le_lt. intros H. apply Qle_bool_iff in H. congruence.
Qed.

Lemma overflow_positive q :
  (0 < q)%Q ->
  ((OVERFLOW <= q)%Q /\ overflow q = PosInf) \/ ((q < OVERFLOW)%Q /\ overflow q = Fin q).
Proof.
  intros Hq. pose proof OVERFLOW_pos.
  destruct (overflow_cases q) as [[? ?]|[[? ?]|(? & ? & ?)]]; [by left | lra | by right].
Qed.

Lemma Math_pow2_cases e :
  (1024 <= e /\ Math_pow2 e = PosInf) \/ (e < 1024 /\ Math_pow2 e = Fin (2 ^ e)).
Proof.
  unfold Math_pow2.
  assert (H2 : (0 < 2 ^ e)%Q) by (by apply Qpower_0_lt).
  destruct (overflow_positive _ H2) as [[Hle ->]|[Hlt ->]].
  - left. split; [|done]. rewrite OVERFLOW_power in Hle.
    by apply Qpower_le_compat_l_inv in Hle.
  - right. split; [|done]. rewrite OVERFLOW_power in Hlt.
    by apply Qpower_lt_compat_l_inv in Hlt.
Qed.

Lemma scale_inf_positive q pos :
  (0 < q)%Q -> scale_inf q pos = if pos then PosInf else NegInf.
Proof. intros Hq. unfold scale_inf. apply Qgt_alt in Hq. by rewrite Hq. Qed.

Lemma Qmin_left x y : (x <= y)%Q -> Qmin x y = x.
Proof.
  intros H. unfold Qmin, GenericMinMax.gmin.
  destruct (x ?= y)%Q eqn:Hc; [done | done |]. apply Qgt_alt in Hc. lra.
Qed.

(** ** The backoff delay *)

(** A positive base times the power of two is either the exact product or,
    from 2^1024 on, [Infinity]. *)
Lemma backoff_product_cases (attempt : Z) (base : Q) :
  (0 < base)%Q ->
  let product := num_mul (Fin base) (Math_pow2 attempt) in
  (product = PosInf /\ ~ (attempt < 1024 /\ (base * 2 ^ attempt < OVERFLOW)%Q)) \/
  (product = Fin (base * 2 ^ attempt) /\ attempt < 1024 /\ (base * 2 ^ attempt < OVERFLOW)%Q).
Proof.
  intros Hbase product. subst product.
  destruct (Math_pow2_cases attempt) as [[Hge ->]|[Hlt ->]]; simpl.
  - left. rewrite scale_inf_positive by done. split; [done | lia].
  - assert (Hp : (0 < base * 2 ^ attempt)%Q).
    { apply Qmult_lt_0_compat; [done | by apply Qpower_0_lt]. }
    destruct (overflow_positive _ Hp) as [[Hle ->]|[Hlt' ->]].
    + left. split; [done | lra].
    + by right.
Qed.

(** C6.  For every attempt index and every positive base, the delay is
    [Math.min(cap, base * 2^attempt)]; when the product is finite that is the
    exact minimum of [cap] and [base * 2^attempt], and when the product
    overflows to a non-finite number the delay is exactly [cap].  The product
    is finite exactly when [attempt < 1024] and [base * 2^attempt < 2^1024].
    The function reads no state and writes none. *)
Theorem calculateBackoffDelay_spec (attempt : Z) (base cap : Q) :
  (0 < base)%Q ->
  let product := num_mul (Fin base) (Math_pow2 attempt) in
  calculateBackoffDelay attempt (Fin base) (Fin cap) = Math_min (Fin cap) product
  /\ (isFinite product = true <->
      attempt < 1024 /\ (base * 2 ^ attempt < OVERFLOW)%Q)
  /\ (isFinite product = true ->
      calculateBackoffDelay attempt (Fin base) (Fin cap)
      = Fin (Qmin cap (base * 2 ^ attempt)))
  /\ (isFinite product = false ->
      calculateBackoffDelay attempt (Fin base) (Fin cap) = Fin cap).
Proof.
  intros Hbase product. unfold calculateBackoffDelay. fold product.
  destruct (backoff_product_cases attempt base Hbase) as [[Hp Hn]|[Hp Hf]];
    fold product in Hp; rewrite Hp; simpl.
  - repeat split; done.
  - repeat split; try done; tauto.
Qed.

(** With a cap that is itself a finite double and a base of at least one
    millisecond, the delay is the exact minimum for every attempt index,
    overflow included. *)
Lemma calculateBackoffDelay_exact (attempt : Z) (base cap : Q) :
  (0 <= attempt)%Z -> (1 <= base)%Q -> (cap < OVERFLOW)%Q ->
  calculateBackoffDelay attempt (Fin base) (Fin cap) = Fin (Qmin cap (base * 2 ^ attempt)).
Proof.
  intros Ha Hbase Hcap.
  assert (Hb0 : (0 < base)%Q) by lra.
  unfold calculateBackoffDelay.
  destruct (backoff_product_cases attempt base Hb0) as [[Hp Hn]|[Hp Hf]];
    rewrite Hp; simpl; [|done].
  f_equal. symmetry. apply Qmin_left.
  destruct (Z_lt_le_dec attempt 1024) as [Hlt|Hge].
  - apply Qlt_le_weak, Qlt_le_trans with OVERFLOW; [done|].
    apply Qnot_lt_le. intros H. apply Hn. done.
  - apply Qlt_le_weak, Qlt_le_trans with OVERFLOW; [done|].
    rewrite OVERFLOW_power.
    assert (H1 : (2 ^ 1024 <= 2 ^ attempt)%Q) by (by apply Qpower_le_compat_l).
    assert (H2 : (0 < 2 ^ 1024)%Q) by (by apply Qpower_0_lt).
    nra.
Qed.

Lemma calculateBackoffDelay_finite attempt (base cap : Q) :
  isFinite (calculateBackoffDelay attempt (Fin base) (Fin cap)) = true.
Proof.
  unfold calculateBackoffDelay.
  destruct (num_mul _ _); simpl; done.
Qed.

Lemma calculateBackoffDelay_spec_witness :
  calculateBackoffDelay 3 (Fin 100) (Fin 5000) = Fin (Qmin 5000 (100 * 2 ^ 3))
  /\ calculateBackoffDelay 1024 (Fin 300) (Fin 5000) = Fin 5000.
Proof.
  split.
  - apply (calculateBackoffDelay_spec 3 100 5000); reflexivity.
  - apply (calculateBackoffDelay_spec 1024 300 5000); reflexivity.
Defined.

(** ** HTTP status extraction and the retry policies *)

Lemma isInteger_status_is n : isInteger n = true -> exists s, status_is n s.
Proof.
  destruct n as [q| | |]; simpl; try done.
  intros H. exists (Qfloor q). by apply Qeq_bool_iff.
Qed.

Lemma own_status_integer v n : own_status v = Some n -> exists s, status_is n s.
Proof.
  destruct v as [| | | | |props]; simpl; try done.
  destruct (props !! "status") as [[| | |m| |]|]; try done.
  destruct (isInteger m) eqn:Hm; [|done].
  intros [= ->]. by apply isInteger_status_is.
Qed.

Lemma num_eqb_status n s (z : Z) : status_is n s -> num_eqb n z = (s =? z).
Proof.
  destruct n as [q| | |]; simpl; try done. intros Hq.
  destruct (Z.eqb_spec s z) as [->|Hne].
  - by apply Qeq_bool_iff.
  - destruct (Qeq_bool q (inject_Z z)) eqn:E; [|done].
    apply Qeq_bool_iff in E. rewrite Hq in E. by pose proof (proj1 (inject_Z_injective s z) E).
Qed.

Lemma num_leb_status_r n s (z : Z) : status_is n s -> num_leb n z = (s <=? z).
Proof.
  destruct n as [q| | |]; simpl; try done. intros Hq.
  destruct (Z.leb_spec s z) as [Hle|Hgt].
  - apply Qle_bool_iff. rewrite Hq. by rewrite <- Zle_Qle.
  - destruct (Qle_bool q (inject_Z z)) eqn:E; [|done].
    apply Qle_bool_iff in E. rewrite Hq in E. rewrite <- Zle_Qle in E. lia.
Qed.

Lemma num_geb_status n s (z : Z) : status_is n s -> num_geb n z = (z <=? s).
Proof.
  unfold num_geb. destruct n as [q| | |]; simpl; try done. intros Hq.
  destruct (Z.leb_spec z s) as [Hle|Hgt].
  - apply Qle_bool_iff. rewrite Hq. by rewrite <- Zle_Qle.
  - destruct (Qle_bool (inject_Z z) q) eqn:E; [|done].
    apply Qle_bool_iff in E. rewrite Hq in E. rewrite <- Zle_Qle in E. lia.
Qed.

Lemma has_property_eq k v :
  has_property k v
  = match v with
    | JObject props => match props !! k with Some _ => true | None => false end
    | _ => false
    end.
Proof.
  destruct v as [| | | | |props]; try done.
  simpl. destruct (props !! k) as [x|].
  - apply bool_decide_eq_true_2. by exists x.
  - apply bool_decide_eq_false_2. by intros [? ?].
Qed.

Lemma integer_status_own v :
  (if has_property "status" v then integer_status (get_property v "status") else None)
  = own_status v.
Proof.
  rewrite has_property_eq. destruct v as [| | | | |props]; try done.
  unfold get_property, own_status, integer_status.
  by destruct (props !! "status") as [[| | | | |]|].
Qed.

Lemma integer_status_response r :
  (if negb (nullish r) && String.eqb (typeof r) "object" && has_property "status" r
   then integer_status (get_property r "status") else None)
  = own_status r.
Proof.
  destruct r as [| | | | |props]; try done.
  change (negb (nullish (JObject props)) && String.eqb (typeof (JObject props)) "object")
    with true.
  apply integer_status_own.
Qed.

(** [extractHttpStatus] takes the status of the error itself when there is
    one, and otherwise that of its [response]. *)
Lemma extractHttpStatus_own_or_response error :
  extractHttpStatus error =
  match own_status error with
  | Some s => Some s
  | None => own_status (get_property error "response")
  end.
Proof.
  destruct error as [| | | | |props]; try done.
  unfold extractHttpStatus. cbv zeta.
  rewrite integer_status_own, integer_status_response.
  change (nullish (JObject props) || negb (String.eqb (typeof (JObject props)) "object"))
    with false. cbv iota.
  destruct (own_status (JObject props)); [done|].
  rewrite has_property_eq. unfold get_property.
  by destruct (props !! "response").
Qed.

Lemma extractHttpStatus_integer error n :
  extractHttpStatus error = Some n -> exists s, status_is n s.
Proof.
  rewrite extractHttpStatus_own_or_response.
  destruct (own_status error) eqn:H1.
  - intros [= ->]. by eapply own_status_integer.
  - by apply own_status_integer.
Qed.

(** An error carries a retryable network code when it is an object whose
    [code] is one of the four strings. *)
Lemma isNetworkError_iff error :
  isNetworkError error = true <->
  exists props code, error = JObject props /\ props !! "code" = Some (JString code)
    /\ (code = "ECONNRESET" \/ code = "ETIMEDOUT" \/ code = "ENOTFOUND" \/ code = "EAI_AGAIN").
Proof.
  assert (Hset : forall code, code ∈ RETRYABLE_NETWORK_CODES <->
    code = "ECONNRESET" \/ code = "ETIMEDOUT" \/ code = "ENOTFOUND" \/ code = "EAI_AGAIN").
  { intros code. unfold RETRYABLE_NETWORK_CODES.
    rewrite !elem_of_union, !elem_of_singleton. tauto. }
  split.
  - destruct error as [| | | | |props]; try done.
    unfold isNetworkError. rewrite has_property_eq. unfold get_property.
    destruct (props !! "code") as [[| | | |code|]|] eqn:Hc; try done. cbn.
    intros H%bool_decide_eq_true. exists props, code. by rewrite <- Hset.
  - intros (props & code & -> & Hc & Hin).
    unfold isNetworkError. rewrite has_property_eq. unfold get_property.
    rewrite Hc. apply bool_decide_eq_true. by apply Hset.
Qed.

(** The verdict of the default policy on an error that is not a network
    error and carries the integer status [s]. *)
Lemma defaultRetryPolicy_status error n s :
  isNetworkError error = false -> extractHttpStatus error = Some n -> status_is n s ->
  defaultRetryPolicy error =
  if s =? 429 then true
  else if (500 <=? s) && (s <=? 599) then true
  else if (400 <=? s) && (s <=? 499) then false
  else true.
Proof.
  intros Hnet Hst Hs. unfold defaultRetryPolicy. rewrite Hnet, Hst.
  by rewrite (num_eqb_status n s 429), !(num_geb_status n s), !(num_leb_status_r n s).
Qed.

(** C7.  The default policy retries an error that has a string [code] among
    ECONNRESET, ETIMEDOUT, ENOTFOUND and EAI_AGAIN.  Otherwise, when an HTTP
    status is found, on the error itself first and then on its [response], it
    retries on 429 and on 500..599 and does not retry on 400..499 other than
    429.  With no status found, or a status outside 400..599, it retries. *)
Theorem defaultRetryPolicy_spec (error : JsValue) :
  (isNetworkError error = true <->
     exists props code, error = JObject props /\ props !! "code" = Some (JString code)
       /\ (code = "ECONNRESET" \/ code = "ETIMEDOUT" \/ code = "ENOTFOUND"
           \/ code = "EAI_AGAIN"))
  /\ (isNetworkError error = true -> defaultRetryPolicy error = true)
  /\ extractHttpStatus error
     = match own_status error with
       | Some s => Some s
       | None => own_status (get_property error "response")
       end
  /\ (isNetworkError error = false ->
      forall n, extractHttpStatus error = Some n ->
      exists s, status_is n s
        /\ (s = 429 \/ 500 <= s <= 599 -> defaultRetryPolicy error = true)
        /\ (400 <= s <= 499 -> s <> 429 -> defaultRetryPolicy error = false)
        /\ (~ 400 <= s <= 599 -> defaultRetryPolicy error = true))
  /\ (isNetworkError error = false -> extractHttpStatus error = None ->
      defaultRetryPolicy error = true).
Proof.
  split; [apply isNetworkError_iff|].
  split; [intros H; unfold defaultRetryPolicy; by rewrite H|].
  split; [apply extractHttpStatus_own_or_response|].
  split.
  - intros Hnet n Hst.
    destruct (extractHttpStatus_integer _ _ Hst) as [s Hs].
    exists s. split; [done|].
    rewrite (defaultRetryPolicy_status error n s) by done.
    repeat split; intros; repeat case_match; try done; lia.
  - intros Hnet Hst. unfold defaultRetryPolicy. by rewrite Hnet, Hst.
Qed.

(** C8.  [isRetryableHttpError] reads [error.status] and falls back to
    [error.response.status]; it is true exactly when the status found is 429
    or lies in 500..599, hence false on 400..499 other than 429 and false when
    no status is found. *)
Theorem isRetryableHttpError_spec (error : JsValue) :
  extractHttpStatus error
  = match own_status error with
    | Some s => Some s
    | None => own_status (get_property error "response")
    end
  /\ (isRetryableHttpError error = true <->
      exists n s, extractHttpStatus error = Some n /\ status_is n s
        /\ (s = 429 \/ 500 <= s <= 599))
  /\ (forall n s, extractHttpStatus error = Some n -> status_is n s ->
      400 <= s <= 499 -> s <> 429 -> isRetryableHttpError error = false)
  /\ (extractHttpStatus error = None -> isRetryableHttpError error = false).
Proof.
  split; [apply extractHttpStatus_own_or_response|].
  assert (Hval : forall n s, extractHttpStatus error = Some n -> status_is n s ->
    isRetryableHttpError error = (s =? 429) || ((500 <=? s) && (s <=? 599))).
  { intros n s Hst Hs. unfold isRetryableHttpError. rewrite Hst.
    rewrite (num_eqb_status n s 429), (num_geb_status n s), (num_leb_status_r n s) by done.
    by repeat case_match. }
  split; [split|split].
  - intros H. unfold isRetryableHttpError in H.
    destruct (extractHttpStatus error) as [n|] eqn:Hst; [|done].
    destruct (extractHttpStatus_integer _ _ Hst) as [s Hs].
    exists n, s. split; [done|]. split; [done|].
    rewrite (num_eqb_status n s 429), (num_geb_status n s), (num_leb_status_r n s) in H by done.
    repeat case_match; try done; lia.
  - intros (n & s & Hst & Hs & Hrange).
    rewrite (Hval n s) by done.
    destruct Hrange as [->|Hr]; [done|].
    apply orb_true_iff. right. apply andb_true_iff. lia.
  - intros n s Hst Hs Hr Hne. rewrite (Hval n s) by done.
    apply orb_false_iff. split; [lia|]. apply andb_false_iff. lia.
  - intros Hst. unfold isRetryableHttpError. by rewrite Hst.
Qed.

(** ** Validation *)

(** [validateOptions] returns exactly when every provided value passes its
    check; [maxDelayMs] is compared with the provided [baseDelayMs] or, when
    that is omitted, with its default. *)
Lemma validateOptions_None options :
  validateOptions options = None <->
  (forall n, maxRetries options = Some n -> 0 <= n)
  /\ (forall b, baseDelayMs options = Some b -> (0 < b)%Q)
  /\ (forall m, maxDelayMs options = Some m ->
        (default DEFAULTS.baseDelayMs (baseDelayMs options) <= m)%Q)
  /\ (forall t, timeoutMs options = Some t -> (0 < t)%Q).
Proof.
  unfold validateOptions, check, Qlt_bool.
  destruct (maxRetries options) as [n|], (baseDelayMs options) as [b|],
    (maxDelayMs options) as [m|], (timeoutMs options) as [t|]; cbn [default];
    repeat match goal with
    | |- context [?x <? 0] => destruct (Z.ltb_spec x 0)
    | |- context [Qle_bool ?x ?y] =>
        let E := fresh "E" in
        destruct (Qle_bool x y) eqn:E;
        [apply Qle_bool_iff in E
        |assert (y < x)%Q by (apply Qnot_le_lt; intros ?%Qle_bool_iff; congruence); clear E]
    end; cbn [negb];
    (split; [intros ?; try done; repeat split; intros ? [= <-]; first [lia | lra]
            |intros (Hmr & Hbd & Hmd & Hto); try done;
             try (specialize (Hmr _ eq_refl)); try (specialize (Hbd _ eq_refl));
             try (specialize (Hmd _ eq_refl)); try (specialize (Hto _ eq_refl));
             first [lia | lra]]).
Qed.

(** The four checks, in the order in which they are made. *)
Lemma validateOptions_maxRetries options n :
  maxRetries options = Some n -> n < 0 ->
  validateOptions options = Some (InvalidMaxRetries n).
Proof.
  intros Hn Hlt. unfold validateOptions, check. rewrite Hn.
  by destruct (Z.ltb_spec n 0); [|lia].
Qed.

Lemma validateOptions_baseDelayMs options b :
  (forall n, maxRetries options = Some n -> 0 <= n) ->
  baseDelayMs options = Some b -> (b <= 0)%Q ->
  validateOptions options = Some (InvalidBaseDelay b).
Proof.
  intros Hn Hb Hle. unfold validateOptions, check. rewrite Hb.
  apply Qle_bool_iff in Hle. rewrite Hle.
  destruct (maxRetries options) as [n|]; [|done].
  specialize (Hn n eq_refl). by destruct (Z.ltb_spec n 0); [lia|].
Qed.

Lemma validateOptions_maxDelayMs options m :
  (forall n, maxRetries options = Some n -> 0 <= n) ->
  (forall b, baseDelayMs options = Some b -> (0 < b)%Q) ->
  maxDelayMs options = Some m ->
  (m < default DEFAULTS.baseDelayMs (baseDelayMs options))%Q ->
  validateOptions options
  = Some (InvalidMaxDelay m (default DEFAULTS.baseDelayMs (baseDelayMs options))).
Proof.
  intros Hn Hb Hm Hlt. unfold validateOptions, check, Qlt_bool. rewrite Hm.
  assert (Hnle : Qle_bool (default DEFAULTS.baseDelayMs (baseDelayMs options)) m = false).
  { destruct (Qle_bool _ m) eqn:E; [|done]. apply Qle_bool_iff in E. lra. }
  rewrite Hnle. cbn [negb].
  assert (Hb' : match baseDelayMs options with
                | Some b => Qle_bool b 0 = false | None => True end).
  { destruct (baseDelayMs options) as [b|]; [|done]. specialize (Hb b eq_refl).
    destruct (Qle_bool b 0) eqn:E; [|done]. apply Qle_bool_iff in E. lra. }
  destruct (baseDelayMs options) as [b|]; [rewrite Hb'|];
    (destruct (maxRetries options) as [n|]; [|done];
     specialize (Hn n eq_refl); by destruct (Z.ltb_spec n 0); [lia|]).
Qed.

Lemma validateOptions_timeoutMs options t :
  (forall n, maxRetries options = Some n -> 0 <= n) ->
  (forall b, baseDelayMs options = Some b -> (0 < b)%Q) ->
  (forall m, maxDelayMs options = Some m ->
     (default DEFAULTS.baseDelayMs (baseDelayMs options) <= m)%Q) ->
  timeoutMs options = Some t -> (t <= 0)%Q ->
  validateOptions options = Some (InvalidTimeout t).
Proof.
  intros Hn Hb Hm Ht Hle.
  destruct (validateOptions options) as [e|] eqn:Hv.
  - revert Hv. unfold validateOptions, check, Qlt_bool. rewrite Ht.
    apply Qle_bool_iff in Hle. rewrite Hle.
    assert (Hm' : match maxDelayMs options with
                  | Some m => Qle_bool (default DEFAULTS.baseDelayMs (baseDelayMs options)) m = true
                  | None => True end).
    { destruct (maxDelayMs options) as [m|]; [|done]. apply Qle_bool_iff. by apply Hm. }
    assert (Hb' : match baseDelayMs options with
                  | Some b => Qle_bool b 0 = false | None => True end).
    { destruct (baseDelayMs options) as [b|]; [|done]. specialize (Hb b eq_refl).
      destruct (Qle_bool b 0) eqn:E; [|done]. apply Qle_bool_iff in E. lra. }
    assert (Hn' : match maxRetries options with
                  | Some n => (n <? 0) = false | None => True end).
    { destruct (maxRetries options) as [n|]; [|done]. specialize (Hn n eq_refl).
      by destruct (Z.ltb_spec n 0); [lia|]. }
    destruct (maxRetries options), (baseDelayMs options), (maxDelayMs options);
      cbn [default] in *; rewrite ?Hn', ?Hb', ?Hm'; cbn [negb]; congruence.
  - apply validateOptions_None in Hv as (_ & _ & _ & H4).
    specialize (H4 t Ht). lra.
Qed.

(** The messages of the four checks are pairwise different. *)
Lemma message_template_distinct e1 e2 :
  message_template e1 = message_template e2 ->
  match e1, e2 with
  | InvalidMaxRetries _, InvalidMaxRetries _
  | InvalidBaseDelay _, InvalidBaseDelay _
  | InvalidMaxDelay _ _, InvalidMaxDelay _ _
  | InvalidTimeout _, InvalidTimeout _ => True
  | _, _ => False
  end.
Proof. by destruct e1, e2. Qed.

(** A rejected configuration makes [smartRetry] reject before it reads the
    clock, calls the operation or suspends. *)
Lemma smartRetry_invalid {T} (env : Env T) options t0 e :
  validateOptions options = Some e ->
  smartRetry env options t0
  = (Throw (Config e), {| now := t0; reads := 0; draws := 0; trace := [] |}).
Proof. intros H. unfold smartRetry. by rewrite H. Qed.

(** ** The retry loop *)

Section LoopFacts.
Context {T : Type} (env : Env T).
Variables (maxRetries : Z) (baseDelayMs maxDelayMs : Q) (jitter : bool).
Variable retryOn : JsValue -> Z -> Completion JsValue bool.
Variable onRetry : option (JsValue -> Z -> num -> Completion JsValue unit).
Variable timeoutMs : option Q.
Variable signal : option AbortSignal.
Variable startTime : Q.

Local Abbreviation loop' :=
  (loop env maxRetries baseDelayMs maxDelayMs jitter retryOn onRetry timeoutMs signal
        startTime).
Local Abbreviation iteration' :=
  (iteration env maxRetries baseDelayMs maxDelayMs jitter retryOn onRetry timeoutMs signal
             startTime).
Local Abbreviation delay_and_sleep' :=
  (delay_and_sleep (T:=T) env baseDelayMs maxDelayMs jitter onRetry timeoutMs signal
                   startTime).
Local Abbreviation retry_delay' := (retry_delay env baseDelayMs maxDelayMs jitter).
Local Abbreviation clamp_delay' := (clamp_delay env timeoutMs startTime).
Local Abbreviation notify' := (notify onRetry).
Local Abbreviation sleep_or_abort' := (sleep_or_abort (T:=T) env signal startTime).
Local Abbreviation exhausted' := (exhausted (T:=T) env maxRetries startTime).
Local Abbreviation check_timeout' := (check_timeout env timeoutMs startTime).
Local Abbreviation check_abort' := (check_abort env signal startTime).
Local Abbreviation interrupted' := (interrupted timeoutMs signal).
Local Abbreviation delay_events' := (delay_events baseDelayMs maxDelayMs jitter).
Local Abbreviation clamp_events' := (clamp_events timeoutMs startTime).
Local Abbreviation notify_events' := (notify_events onRetry).
Local Abbreviation within_budget' := (within_budget timeoutMs startTime).
Local Abbreviation delay_outcome' :=
  (delay_outcome (T:=T) baseDelayMs maxDelayMs jitter onRetry timeoutMs signal startTime).
Local Abbreviation iteration_outcome' :=
  (iteration_outcome env maxRetries baseDelayMs maxDelayMs jitter retryOn onRetry
                     timeoutMs signal startTime).

Lemma interrupted_interruption x : interrupted' x -> interruption x.
Proof. intros [[? _]|[? _]]; [by left | by right]. Qed.

(** The loop unfolds to its body. *)
Lemma loop_body attempt lastError w :
  loop' attempt lastError w =
  if attempt <=? maxRetries then
    match iteration' attempt lastError w with
    | (Return v, w') => (Normal v, w')
    | (Raise e, w') => (Throw e, w')
    | (Break e, w') => exhausted' e w'
    | (Next e, w') => loop' (attempt + 1) e w'
    end
  else exhausted' lastError w.
Proof.
  funelim (loop' attempt lastError w);
    repeat match goal with
    | H : (_ <=? _) = _ |- _ => rewrite H
    | H : iteration _ _ _ _ _ _ _ _ _ _ _ _ _ = _ |- _ => rewrite H
    end; reflexivity.
Qed.

(** An invariant that every pass through the body preserves, and that gives
    the postcondition on each way out, holds of the whole loop. *)
Lemma loop_invariant (Inv : Z -> JsValue -> World -> Prop)
    (Post : Completion Thrown T * World -> Prop) :
  (forall a le w, Inv a le w -> a <= maxRetries ->
     match iteration' a le w with
     | (Return v, w') => Post (Normal v, w')
     | (Raise e, w') => Post (Throw e, w')
     | (Break e, w') => Post (exhausted' e w')
     | (Next e, w') => Inv (a + 1) e w'
     end) ->
  (forall a le w, Inv a le w -> maxRetries < a -> Post (exhausted' le w)) ->
  forall a le w, Inv a le w -> Post (loop' a le w).
Proof.
  intros Hbody Hexit a le w.
  remember (Z.to_nat (maxRetries + 1 - a)) as n eqn:Hn.
  revert a le w Hn. induction n as [n IH] using lt_wf_ind. intros a le w Hn HInv.
  rewrite loop_body. destruct (Z.leb_spec a maxRetries) as [Hle|Hgt].
  - specialize (Hbody a le w HInv Hle).
    destruct (iteration' a le w) as [[v|e|e|e] w']; try done.
    eapply (IH (Z.to_nat (maxRetries + 1 - (a + 1)))); [lia | done | done].
  - by apply (Hexit a).
Qed.

(** *** The checks *)

Lemma check_timeout_spec n c w r w' :
  check_timeout' n c w = (r, w') ->
  trace w' = trace w
  /\ (r = None \/
      exists elapsed t, timeoutMs = Some t /\ (t <= elapsed)%Q /\
        r = Some (Retry (TimeoutError
          {| totalAttempts := n; totalElapsedMs := elapsed |} c))).
Proof.
  unfold check_timeout, Date_now. destruct timeoutMs as [t|]; [|intros [= <- <-]; eauto].
  cbn. destruct (Qle_bool t _) eqn:E; intros [= <- <-]; [|eauto].
  apply Qle_bool_iff in E. split; [done|]. right. eauto.
Qed.

Lemma throw_abort_spec n c w e w' :
  throw_abort env startTime n c w = (e, w') ->
  trace w' = trace w
  /\ exists elapsed, e = Retry (AbortError
        {| totalAttempts := n; totalElapsedMs := elapsed |} c).
Proof. unfold throw_abort, Date_now. cbn. intros [= <- <-]; eauto. Qed.

Lemma check_abort_spec n w r w' :
  check_abort' n w = (r, w') ->
  trace w' = trace w
  /\ (r = None \/
      aborted signal (now w) = true /\
      exists elapsed, r = Some (Retry (AbortError
         {| totalAttempts := n; totalElapsedMs := elapsed |} (signal_reason signal)))).
Proof.
  unfold check_abort. destruct (aborted signal (now w)) eqn:E; [|intros [= <- <-]; eauto].
  destruct (throw_abort _ _ _ _ _) as [e w1] eqn:Ha.
  apply throw_abort_spec in Ha as [Htr [el ->]]. intros [= <- <-]; eauto.
Qed.

Lemma exhausted_spec e w :
  exists elapsed w',
    exhausted' e w = (Throw (Retry (RetryExhaustedError
       {| totalAttempts := maxRetries + 1; totalElapsedMs := elapsed |} e)), w')
    /\ trace w' = trace w.
Proof. unfold exhausted, Date_now. cbn. eauto. Qed.

Lemma invoke_spec a w r w' :
  invoke env a w = (r, w') ->
  trace w' = trace w ++ [EvCall a] /\ exists d, fn env a (now w) = (r, d).
Proof.
  unfold invoke. destruct (fn env a (now w)) as [r0 d]. intros [= <- <-]. eauto.
Qed.

Lemma aborted_at_abort s a :
  abortAt s = Some a -> aborted (Some s) a = true.
Proof. intros H. unfold aborted. rewrite H. apply Qle_bool_iff, Qle_refl. Qed.

(** A sleep is logged with the instant at which it starts, and it rejects
    only if the signal is aborted. *)
Lemma sleep_spec ms w r w' :
  sleep ms signal w = (r, w') ->
  trace w' = trace w ++ [EvSleep (now w) ms]
  /\ match r with
     | Throw _ => exists at_, aborted signal at_ = true
     | Normal _ => True
     end.
Proof.
  unfold sleep. cbn [now log trace].
  destruct (aborted signal (now w)) eqn:E; [intros [= <- <-]; eauto|].
  destruct signal as [[[a|] rs]|]; try (by intros [= <- <-]).
  destruct (Qle_bool _ a); intros [= <- <-]; [done|].
  split; [done|]. exists a. by apply aborted_at_abort.
Qed.

(** *** The delay block, as the events it appends *)

Lemma retry_delay_spec a w d w' :
  retry_delay' a w = (d, w') ->
  trace w' = trace w ++ delay_events' a /\ now w' = now w.
Proof.
  unfold retry_delay, delay_events, Math_random. destruct jitter; cbn.
  - intros [= <- <-]. cbn. by rewrite <- app_assoc.
  - by intros [= <- <-].
Qed.

Lemma clamp_delay_spec a error d w r w' :
  clamp_delay' a error d w = (r, w') ->
  trace w' = trace w ++ clamp_events' (now w') d
  /\ (timeoutMs = None -> now w' = now w)
  /\ match r with
     | inl e => exists t, timeoutMs = Some t /\ (t - (now w' - startTime) <= 0)%Q
         /\ e = Retry (TimeoutError
              {| totalAttempts := a + 1; totalElapsedMs := (now w' - startTime)%Q |} error)
     | inr d' => within_budget' (now w') d d'
     end.
Proof.
  unfold clamp_delay, clamp_events, within_budget, Date_now.
  destruct timeoutMs as [t|]; cbn.
  - destruct (Qle_bool _ 0) eqn:E; intros [= <- <-]; cbn.
    + split; [done|]. split; [done|]. exists t. split; [done|].
      split; [by apply Qle_bool_iff | done].
    + split; [done|]. split; [done|]. split; [|done].
      apply Qnot_le_lt. intros H%Qle_bool_iff. congruence.
  - intros [= <- <-]. by rewrite app_nil_r.
Qed.

Lemma notify_spec a error d w r w' :
  notify' a error d w = (r, w') ->
  trace w' = trace w ++ notify_events' a error d /\ now w' = now w
  /\ match r with
     | Throw e => exists hook, onRetry = Some hook /\ hook error (a + 1) d = Throw e
     | Normal _ => forall hook, onRetry = Some hook ->
                   exists u, hook error (a + 1) d = Normal u
     end.
Proof.
  unfold notify, notify_events. destruct onRetry as [hook|].
  - intros [= <- <-]. cbn. split; [done|]. split; [done|].
    destruct (hook error (a + 1) d) as [u|e] eqn:Hh.
    + intros ? [= <-]. eauto.
    + eauto.
  - intros [= <- <-]. rewrite app_nil_r. split; [done|]. split; [done|]. done.
Qed.

Lemma sleep_or_abort_spec a error d w s w' :
  sleep_or_abort' a error d w = (s, w') ->
  trace w' = trace w ++ [EvSleep (now w) d]
  /\ (s = Next error \/
      exists elapsed c at_, aborted signal at_ = true /\
        s = Raise (Retry (AbortError
         {| totalAttempts := a + 1; totalElapsedMs := elapsed |} c))).
Proof.
  unfold sleep_or_abort.
  destruct (sleep d signal w) as [[u|e] w1] eqn:Hs;
    apply sleep_spec in Hs as [Htr Hab].
  - intros [= <- <-]. eauto.
  - destruct Hab as [at_ Hab].
    destruct (aborted signal (now w1));
      destruct (throw_abort _ _ _ _ _) as [x w2] eqn:Ha;
      apply throw_abort_spec in Ha as [Htr2 [el ->]];
      intros [= <- <-]; (split; [congruence | eauto 10]).
Qed.

Lemma delay_and_sleep_sound a error w s w' :
  delay_and_sleep' a error w = (s, w') -> delay_outcome' a error w s w'.
Proof.
  unfold delay_and_sleep.
  destruct (retry_delay' a w) as [d w1] eqn:H1.
  apply retry_delay_spec in H1 as [Htr1 Hnow1].
  destruct (clamp_delay' a error d w1) as [r w2] eqn:H2.
  apply clamp_delay_spec in H2 as (Htr2 & Hnow2 & Hr).
  destruct r as [e|d'].
  - destruct Hr as (t & Ht & Hle & ->). intros [= <- <-].
    eapply delay_timeout; [done | done |].
    rewrite Htr2, Htr1. unfold clamp_events. rewrite Ht. by rewrite <- app_assoc.
  - destruct (notify' a error d' w2) as [n w3] eqn:H3.
    apply notify_spec in H3 as (Htr3 & Hnow3 & Hn).
    destruct n as [u|e].
    + intros H4. apply sleep_or_abort_spec in H4 as [Htr4 Hs].
      eapply delay_slept with (at_ := now w2); [done | done | | done].
      rewrite Htr4, Htr3, Htr2, Htr1, Hnow3. by rewrite <- !app_assoc.
    + destruct Hn as (hook & Hhook & Hthrow). intros [= <- <-].
      eapply delay_hook_throws with (at_ := now w2); [done | done | done |].
      rewrite Htr3, Htr2, Htr1. unfold notify_events. rewrite Hhook.
      by rewrite <- !app_assoc.
Qed.

(** *** One pass through the loop body, as the events it appends *)

Lemma iteration_sound a le w s w' :
  iteration' a le w = (s, w') -> iteration_outcome' a le w s w'.
Proof.
  unfold iteration.
  destruct (check_timeout' a le w) as [r1 w1] eqn:H1.
  apply check_timeout_spec in H1 as [Htr1 Hr1].
  destruct Hr1 as [->|(el & t & Ht & Hle & ->)].
  2: { intros [= <- <-]. apply iter_interrupted; [left; eauto | done | done]. }
  destruct (check_abort' a w1) as [r2 w2] eqn:H2.
  apply check_abort_spec in H2 as [Htr2 Hr2].
  destruct Hr2 as [->|(Hab & el & ->)].
  2: { intros [= <- <-]. apply iter_interrupted; [right; eauto | done | congruence]. }
  destruct (invoke env a w2) as [r3 w3] eqn:H3.
  apply invoke_spec in H3 as [Htr3 [d Hfn]].
  assert (Hcall : trace w3 = trace w ++ [EvCall a]) by congruence.
  destruct r3 as [v|error].
  { intros [= <- <-]. by eapply iter_return. }
  destruct (Z.geb_spec a maxRetries) as [Hge|Hlt].
  { intros [= <- <-]. eapply iter_break; [lia | done | done]. }
  assert (Hpol : trace (log (EvRetryOn error a) w3)
                 = trace w ++ [EvCall a; EvRetryOn error a]).
  { cbn. rewrite Hcall. by rewrite <- app_assoc. }
  destruct (retryOn error a) as [[|]|e] eqn:Hpolicy.
  - destruct (check_timeout' (a + 1) error _) as [r4 w4] eqn:H4.
    apply check_timeout_spec in H4 as [Htr4 Hr4].
    destruct Hr4 as [->|(el & t & Ht & Hle & ->)].
    2: { intros [= <- <-].
         eapply iter_interrupted_after;
           [done | done | done | left; eauto | done | congruence]. }
    destruct (check_abort' (a + 1) w4) as [r5 w5] eqn:H5.
    apply check_abort_spec in H5 as [Htr5 Hr5].
    destruct Hr5 as [->|(Hab & el & ->)].
    2: { intros [= <- <-].
         eapply iter_interrupted_after;
           [done | done | done | right; eauto | done | congruence]. }
    intros H6. apply delay_and_sleep_sound in H6.
    eapply iter_delay; [done | done | done | | done]. congruence.
  - intros [= <- <-]. by eapply iter_policy_stops.
  - intros [= <- <-]. by eapply iter_policy_throws.
Qed.

End LoopFacts.

(** ** Whole runs *)

Section RunFacts.
Context {T : Type} (env : Env T).
Variables (maxRetries : Z) (baseDelayMs maxDelayMs : Q) (jitter : bool).
Variable retryOn : JsValue -> Z -> Completion JsValue bool.
Variable onRetry : option (JsValue -> Z -> num -> Completion JsValue unit).
Variable timeoutMs : option Q.
Variable signal : option AbortSignal.
Variable startTime : Q.

Local Abbreviation loop' :=
  (loop env maxRetries baseDelayMs maxDelayMs jitter retryOn onRetry timeoutMs signal
        startTime).
Local Abbreviation iteration' :=
  (iteration env maxRetries baseDelayMs maxDelayMs jitter retryOn onRetry timeoutMs signal
             startTime).
Local Abbreviation exhausted' := (exhausted (T:=T) env maxRetries startTime).
Local Abbreviation iteration_outcome' :=
  (iteration_outcome env maxRetries baseDelayMs maxDelayMs jitter retryOn onRetry
                     timeoutMs signal startTime).
Local Abbreviation delay_outcome' :=
  (delay_outcome (T:=T) baseDelayMs maxDelayMs jitter onRetry timeoutMs signal startTime).
Local Abbreviation interrupted' := (interrupted timeoutMs signal).
Local Abbreviation classifier_after_failure' := (classifier_after_failure env maxRetries).
Local Abbreviation budget_events' := (budget_events (T:=T) startTime).
Local Abbreviation sleeps_within_budget' := (sleeps_within_budget startTime).
Local Abbreviation spent_budget_times_out' := (spent_budget_times_out (T:=T) startTime).

(** Case analysis on the outcome of the delay block and of a pass, with
    fixed names for what each case brings. *)
Ltac delay_cases H :=
  destruct H as [t2 at_ d2 w3 Ht2 Hle2 Htr2
                |at_ d2 d' hook e2 w3 Hb Hh He Htr2
                |at_ d2 d' s2 w3 Hb Hh Htr2 Hs].

Ltac iteration_cases H :=
  destruct H as [x w1 Hx Hn Htr
                |v t1 d1 w1 Hfn Htr
                |error t1 d1 w1 Hge Hfn Htr
                |error t1 d1 e1 w1 Hlt Hfn Hp Htr
                |error t1 d1 w1 Hlt Hfn Hp Htr
                |error t1 d1 x w1 Hlt Hfn Hp Hx Hn Htr
                |error t1 d1 w1 s1 w2 Hlt Hfn Hp Htr Hd].

Lemma calls_extend w w' evs :
  trace w' = trace w ++ evs -> calls w' = calls w ++ omap call_of evs.
Proof. intros H. unfold calls. rewrite H. apply omap_app. Qed.

Lemma delay_events_calls a :
  omap call_of (delay_events baseDelayMs maxDelayMs jitter a) = [].
Proof. unfold delay_events. by destruct jitter. Qed.

Lemma clamp_events_calls at_ d :
  omap call_of (clamp_events timeoutMs startTime at_ d) = [].
Proof. unfold clamp_events. by destruct timeoutMs. Qed.

Lemma notify_events_calls a error d :
  omap call_of (notify_events onRetry a error d) = [].
Proof. unfold notify_events. by destruct onRetry. Qed.

(** The delay block never calls the operation; it ends in the next attempt,
    in an interruption that counts the failed attempt, or in what the hook
    threw. *)
Lemma delay_outcome_calls a error w s w' :
  delay_outcome' a error w s w' ->
  calls w' = calls w
  /\ match s with
     | Raise (Retry x) => interrupted' x /\ totalAttempts (metadata x) = a + 1
     | Raise (Rethrown _) => True
     | Next e => e = error
     | _ => False
     end.
Proof.
  intros H. delay_cases H.
  - split; [|split; [left; split; [done|]; exists t2; split; [done | cbn; lra] | done]].
    rewrite (calls_extend _ _ _ Htr2), !omap_app, delay_events_calls. cbn.
    by rewrite app_nil_r.
  - split; [|done].
    rewrite (calls_extend _ _ _ Htr2), !omap_app, delay_events_calls, clamp_events_calls.
    cbn. by rewrite app_nil_r.
  - split.
    + rewrite (calls_extend _ _ _ Htr2), !omap_app, delay_events_calls, clamp_events_calls,
        notify_events_calls. cbn. by rewrite app_nil_r.
    + destruct Hs as [->|(el & c & at_' & Hab & ->)]; [done|].
      split; [right; eauto | done].
Qed.

(** A pass is either interrupted before the call, or makes exactly one call,
    with the attempt index; it leaves the loop by [break] only on the last
    attempt and goes round again only before it. *)
Lemma iteration_outcome_calls a le w s w' :
  iteration_outcome' a le w s w' ->
  match s with
  | Raise (Retry x) =>
      interrupted' x /\
      ((totalAttempts (metadata x) = a /\ calls w' = calls w) \/
       (totalAttempts (metadata x) = a + 1 /\ calls w' = calls w ++ [a]))
  | Raise _ | Return _ => calls w' = calls w ++ [a]
  | Break _ => maxRetries <= a /\ calls w' = calls w ++ [a]
  | Next _ => a < maxRetries /\ calls w' = calls w ++ [a]
  end.
Proof.
  intros H. iteration_cases H.
  - split; [done|]. left. split; [done|]. unfold calls. by rewrite Htr.
  - by rewrite (calls_extend _ _ _ Htr).
  - by rewrite (calls_extend _ _ _ Htr).
  - by rewrite (calls_extend _ _ _ Htr).
  - by rewrite (calls_extend _ _ _ Htr).
  - split; [done|]. right. by rewrite (calls_extend _ _ _ Htr).
  - apply delay_outcome_calls in Hd as [Hc Hs].
    rewrite (calls_extend _ _ _ Htr) in Hc. cbn in Hc.
    destruct s1 as [v|[c|x|v]|e|e]; try done.
    destruct Hs as [Hx Hn]. split; [done|]. by right.
Qed.

Lemma seqZ_snoc (a : Z) : 0 <= a -> seqZ 0 (a + 1) = seqZ 0 a ++ [a].
Proof.
  intros Ha. rewrite <- (Z2Nat.id a) at 1 by done.
  replace (Z.of_nat (Z.to_nat a) + 1) with (Z.of_nat (S (Z.to_nat a))) by lia.
  rewrite seqZ_S, Z2Nat.id by done. done.
Qed.

(** The attempt counter is the number of calls made: a loop entered at
    attempt [a] after calls [0 .. a-1] throws errors whose [totalAttempts]
    counts the calls. *)
Lemma loop_counts_calls a le w out w' x :
  0 <= a <= maxRetries -> calls w = seqZ 0 a ->
  loop' a le w = (out, w') -> out = Throw (Retry x) ->
  0 <= totalAttempts (metadata x) /\ calls w' = seqZ 0 (totalAttempts (metadata x)).
Proof.
  intros Ha Hc Hloop Hout.
  pose (Inv := fun (a : Z) (_ : JsValue) (w : World) =>
                 0 <= a <= maxRetries /\ calls w = seqZ 0 a).
  pose (Post := fun (r : Completion Thrown T * World) =>
                  forall x, r.1 = Throw (Retry x) ->
                  0 <= totalAttempts (metadata x)
                  /\ calls r.2 = seqZ 0 (totalAttempts (metadata x))).
  assert (HP : Post (loop' a le w)).
  { apply (loop_invariant env _ _ _ _ _ _ _ _ _ Inv Post); [| |done].
    - clear. intros a le w [Ha Hc] Hle.
      destruct (iteration' a le w) as [s w'] eqn:Hit.
      apply iteration_sound, iteration_outcome_calls in Hit.
      assert (Hsnoc : calls w ++ [a] = seqZ 0 (a + 1)).
      { rewrite Hc. symmetry. apply seqZ_snoc. lia. }
      destruct s as [v|[c|x|v]|e|e].
      + by intros y.
      + by intros y.
      + destruct Hit as [_ [[Hn Hc']|[Hn Hc']]]; intros y [= <-]; cbn; rewrite Hn, Hc'.
        * split; [lia | done].
        * split; [lia | done].
      + by intros y.
      + destruct Hit as [Hge Hc'].
        destruct (exhausted_spec env maxRetries startTime e w') as (el & w2 & -> & Htr).
        intros y [= <-]. cbn. unfold calls in *. rewrite Htr.
        assert (a = maxRetries) as -> by lia.
        split; [lia | by rewrite Hc'].
      + destruct Hit as [Hlt Hc']. split; [lia | by rewrite Hc'].
    - clear. intros a le w [Ha Hc] Hlt. lia. }
  rewrite Hloop in HP. by apply HP.
Qed.

(** With an operation that always fails, a classifier that says retry and a
    hook that returns, the loop is interrupted or runs every attempt and ends
    exhausted, the last error as cause. *)
Lemma loop_exhausts (err : Z -> JsValue) a le w out w' :
  (forall a t, exists d, fn env a t = (Throw (err a), d)) ->
  (forall a, 0 <= a < maxRetries -> retryOn (err a) a = Normal true) ->
  (forall hook e a d, onRetry = Some hook -> exists u, hook e a d = Normal u) ->
  0 <= a <= maxRetries -> calls w = seqZ 0 a ->
  loop' a le w = (out, w') ->
  (exists x, out = Throw (Retry x) /\ interrupted' x)
  \/ (calls w' = seqZ 0 (maxRetries + 1)
      /\ exists elapsed, out = Throw (Retry (RetryExhaustedError
           {| totalAttempts := maxRetries + 1; totalElapsedMs := elapsed |}
           (err maxRetries)))).
Proof.
  intros Hfail Hpol Hhook Ha Hc Hloop.
  pose (Inv := fun (a : Z) (_ : JsValue) (w : World) =>
                 0 <= a <= maxRetries /\ calls w = seqZ 0 a).
  pose (Post := fun (r : Completion Thrown T * World) =>
     (exists x, r.1 = Throw (Retry x) /\ interrupted' x)
     \/ (calls r.2 = seqZ 0 (maxRetries + 1)
         /\ exists elapsed, r.1 = Throw (Retry (RetryExhaustedError
              {| totalAttempts := maxRetries + 1; totalElapsedMs := elapsed |}
              (err maxRetries))))).
  assert (HP : Post (loop' a le w)).
  { apply (loop_invariant env _ _ _ _ _ _ _ _ _ Inv Post); [| |done].
    - clear -Hfail Hpol Hhook. intros a le w [Ha Hc] Hle.
      destruct (iteration' a le w) as [s w'] eqn:Hit.
      apply iteration_sound in Hit.
      pose proof (iteration_outcome_calls _ _ _ _ _ Hit) as Hcalls.
      assert (Hsnoc : calls w ++ [a] = seqZ 0 (a + 1)).
      { rewrite Hc. symmetry. apply seqZ_snoc. lia. }
      assert (Herr : forall t d error, fn env a t = (Throw error, d) -> error = err a).
      { intros t d error H. destruct (Hfail a t) as [d' H']. congruence. }
      iteration_cases Hit.
      + left. eauto.
      + destruct (Hfail a t1) as [d' H']. congruence.
      + apply Herr in Hfn as ->. assert (a = maxRetries) as -> by lia.
        destruct (exhausted_spec env maxRetries startTime (err maxRetries) w1)
          as (el & w2 & -> & Htr2).
        right. cbn. split; [|eauto].
        destruct Hcalls as [_ Hc']. unfold calls in *. by rewrite Htr2, Hc'.
      + apply Herr in Hfn as ->. rewrite Hpol in Hp by lia. done.
      + apply Herr in Hfn as ->. rewrite Hpol in Hp by lia. done.
      + left. eauto.
      + delay_cases Hd.
        * destruct Hcalls as [Hx _]. left. eauto.
        * destruct (Hhook hook error (a + 1) d' Hh) as [u Hu]. congruence.
        * destruct Hs as [->|(el & c & at_' & Hab & ->)].
          -- destruct Hcalls as [_ Hc']. split; [lia | by rewrite Hc'].
          -- destruct Hcalls as [Hx _]. left. eauto.
    - clear. intros a le w [Ha Hc] Hlt. lia. }
  rewrite Hloop in HP. apply HP.
Qed.

(** *** Where the classifier is consulted *)

Lemma delay_outcome_events a error w s w' :
  delay_outcome' a error w s w' ->
  exists evs, trace w' = trace w ++ evs /\ Forall delay_block_event evs.
Proof.
  assert (Hd : Forall delay_block_event (delay_events baseDelayMs maxDelayMs jitter a)).
  { unfold delay_events. destruct jitter; repeat constructor. }
  assert (Hc : forall at_ d,
             Forall delay_block_event (clamp_events timeoutMs startTime at_ d)).
  { intros. unfold clamp_events. destruct timeoutMs; repeat constructor. }
  assert (Hn : forall d, Forall delay_block_event (notify_events onRetry a error d)).
  { intros. unfold notify_events. destruct onRetry; repeat constructor. }
  intros H. delay_cases H;
    eexists; (split; [exact Htr2|]); rewrite ?Forall_app; repeat split; auto;
    repeat constructor.
Qed.

(** The shape of what a pass appends: nothing, the call alone, or the call
    followed by the consultation of the classifier and the delay block, the
    latter only for a failure before the last attempt. *)
Lemma iteration_outcome_trace a le w s w' :
  iteration_outcome' a le w s w' ->
  exists evs, trace w' = trace w ++ evs /\
  ((evs = [] /\ exists x, s = Raise (Retry x))
   \/ (evs = [EvCall a] /\
       match s with
       | Return v => exists t d, fn env a t = (Normal v, d)
       | Break e => maxRetries <= a /\ exists t d, fn env a t = (Throw e, d)
       | _ => False
       end)
   \/ (exists error devs, evs = EvCall a :: EvRetryOn error a :: devs
       /\ a < maxRetries /\ (exists t d, fn env a t = (Throw error, d))
       /\ Forall delay_block_event devs
       /\ match s with Return _ | Break _ => False | _ => True end)).
Proof.
  intros H. iteration_cases H.
  - exists []. rewrite app_nil_r. split; [done|]. left. eauto.
  - eexists. split; [exact Htr|]. right. left. eauto.
  - eexists. split; [exact Htr|]. right. left. eauto.
  - eexists. split; [exact Htr|]. right. right. exists error, []. eauto 10.
  - eexists. split; [exact Htr|]. right. right. exists error, []. eauto 10.
  - eexists. split; [exact Htr|]. right. right. exists error, []. eauto 10.
  - pose proof (delay_outcome_calls _ _ _ _ _ Hd) as [_ Hs].
    apply delay_outcome_events in Hd as (devs & Htr' & Hdevs).
    exists (EvCall a :: EvRetryOn error a :: devs).
    split; [by rewrite Htr', Htr, <- app_assoc|].
    right. right. exists error, devs.
    repeat split; eauto. by destruct s1.
Qed.

Lemma classifier_after_failure_app tr evs :
  classifier_after_failure' tr ->
  (forall e b, EvRetryOn e b ∈ evs ->
     0 <= b < maxRetries /\ EvCall b ∈ evs /\ exists t d, fn env b t = (Throw e, d)) ->
  classifier_after_failure' (tr ++ evs).
Proof.
  intros H1 H2 e b [Hin|Hin]%elem_of_app.
  - destruct (H1 e b Hin) as (? & ? & ?).
    split; [done|]. split; [|done]. apply elem_of_app. auto.
  - destruct (H2 e b Hin) as (? & ? & ?).
    split; [done|]. split; [|done]. apply elem_of_app. auto.
Qed.

Lemma loop_classifier a le w out w' :
  0 <= a <= maxRetries ->
  (forall c, c ∈ calls w -> c < a) ->
  classifier_after_failure' (trace w) ->
  loop' a le w = (out, w') ->
  classifier_after_failure' (trace w')
  /\ ((forall t, exists e d, fn env maxRetries t = (Throw e, d)) ->
      maxRetries ∈ calls w' ->
      last (trace w') = Some (EvCall maxRetries)
      /\ exists elapsed e t d, fn env maxRetries t = (Throw e, d)
         /\ out = Throw (Retry (RetryExhaustedError
              {| totalAttempts := maxRetries + 1; totalElapsedMs := elapsed |} e))).
Proof.
  intros Ha Hc Hcl Hloop.
  pose (Inv := fun (a : Z) (_ : JsValue) (w : World) =>
     0 <= a <= maxRetries /\ (forall c, c ∈ calls w -> c < a)
     /\ classifier_after_failure' (trace w)).
  pose (Post := fun (r : Completion Thrown T * World) =>
     classifier_after_failure' (trace r.2)
     /\ ((forall t, exists e d, fn env maxRetries t = (Throw e, d)) ->
         maxRetries ∈ calls r.2 ->
         last (trace r.2) = Some (EvCall maxRetries)
         /\ exists elapsed e t d, fn env maxRetries t = (Throw e, d)
            /\ r.1 = Throw (Retry (RetryExhaustedError
                 {| totalAttempts := maxRetries + 1; totalElapsedMs := elapsed |} e)))).
  assert (HP : Post (loop' a le w)).
  { apply (loop_invariant env _ _ _ _ _ _ _ _ _ Inv Post); [| |done].
    - clear. intros a le w (Ha & Hc & Hcl) Hle.
      destruct (iteration' a le w) as [s w'] eqn:Hit.
      apply iteration_sound in Hit.
      pose proof (iteration_outcome_calls _ _ _ _ _ Hit) as Hcalls.
      apply iteration_outcome_trace in Hit as (evs & Htr & Hshape).
      assert (Hcl' : classifier_after_failure' (trace w')).
      { rewrite Htr. apply classifier_after_failure_app; [done|].
        intros e b Hin.
        destruct Hshape as [[-> _]|[[-> _]|(error & devs & -> & Hlt & Hfn & Hdevs & _)]].
        - by apply elem_of_nil in Hin.
        - apply list_elem_of_singleton in Hin. done.
        - apply elem_of_cons in Hin as [?|Hin]; [done|].
          apply elem_of_cons in Hin as [[= -> ->]|Hin].
          + split; [lia|]. split; [apply elem_of_cons; auto | done].
          + rewrite Forall_forall in Hdevs. by apply Hdevs in Hin. }
      assert (Hnew : forall c, c ∈ calls w ++ [a] -> c < a + 1).
      { intros c [Hin|Hin]%elem_of_app; [apply Hc in Hin; lia|].
        apply list_elem_of_singleton in Hin. lia. }
      assert (Hearly : a < maxRetries -> ~ maxRetries ∈ calls w ++ [a]).
      { intros Hlt Hin. apply Hnew in Hin. lia. }
      assert (Hold : ~ maxRetries ∈ calls w).
      { intros Hin. apply Hc in Hin. lia. }
      destruct s as [v|[c|x|v]|e|e]; unfold Post, Inv; cbn [fst snd].
      + split; [done|]. intros Hfail Hin. rewrite Hcalls in Hin.
        destruct (Z_lt_le_dec a maxRetries) as [Hlt|Hge]; [by apply Hearly in Hin|].
        assert (a = maxRetries) as -> by lia.
        destruct Hshape as [[_ [? ?]]|[[_ (t & d & Hfn)]|(? & ? & _ & ? & _)]];
          [done | | lia].
        destruct (Hfail t) as (e & d' & He). congruence.
      + split; [done|]. intros Hfail Hin. rewrite Hcalls in Hin.
        destruct Hshape as [[_ [? ?]]|[[_ []]|(? & ? & _ & ? & _)]]; [done|].
        by apply Hearly in Hin.
      + split; [done|]. intros Hfail Hin.
        destruct Hcalls as [_ [[_ Hc']|[_ Hc']]]; rewrite Hc' in Hin; [done|].
        destruct Hshape as [[-> _]|[[_ []]|(? & ? & _ & ? & _)]].
        * rewrite app_nil_r in Htr. unfold calls in Hc'. rewrite Htr in Hc'.
          apply (f_equal length) in Hc'. rewrite length_app in Hc'. cbn in Hc'. lia.
        * by apply Hearly in Hin.
      + split; [done|]. intros Hfail Hin. rewrite Hcalls in Hin.
        destruct Hshape as [[_ [? ?]]|[[_ []]|(? & ? & _ & ? & _)]]; [done|].
        by apply Hearly in Hin.
      + destruct Hcalls as [Hge Hc'].
        destruct (exhausted_spec env maxRetries startTime e w') as (el & w2 & -> & Htr2).
        cbn [fst snd]. rewrite Htr2. split; [done|]. intros Hfail _.
        assert (a = maxRetries) as -> by lia.
        destruct Hshape as [[_ [? ?]]|[[-> (_ & t & d & Hfn)]|(? & ? & _ & ? & _)]];
          [done | | lia].
        rewrite Htr, last_snoc. split; [done|]. eauto 10.
      + destruct Hcalls as [Hlt Hc']. split; [lia|]. split; [|done].
        intros c. rewrite Hc'. apply Hnew.
    - clear. intros a le w (Ha & _) Hlt. lia. }
  rewrite Hloop in HP. apply HP.
Qed.

(** The first pass of a run: what it appends is all there is. *)
Lemma first_pass le w s w' :
  trace w = [] ->
  iteration' 0 le w = (s, w') ->
  exists evs, trace w' = evs /\
  ((evs = [] /\ exists x, s = Raise (Retry x))
   \/ (evs = [EvCall 0] /\
       match s with
       | Return v => exists t d, fn env 0 t = (Normal v, d)
       | Break e => maxRetries <= 0 /\ exists t d, fn env 0 t = (Throw e, d)
       | _ => False
       end)
   \/ (exists error devs, evs = EvCall 0 :: EvRetryOn error 0 :: devs
       /\ 0 < maxRetries /\ (exists t d, fn env 0 t = (Throw error, d))
       /\ Forall delay_block_event devs
       /\ match s with Return _ | Break _ => False | _ => True end)).
Proof.
  intros Hnil Hit. apply iteration_sound, iteration_outcome_trace in Hit.
  destruct Hit as (evs & Htr & Hshape). rewrite Hnil in Htr. eauto.
Qed.

(** With [maxRetries = 0] the run consists of at most the one call. *)
Lemma loop_single_attempt le w out w' :
  maxRetries = 0 -> trace w = [] ->
  loop' 0 le w = (out, w') ->
  trace w' = [] \/ trace w' = [EvCall 0].
Proof.
  intros H0 Hnil. rewrite loop_body.
  destruct (Z.leb_spec 0 maxRetries) as [_|?]; [|lia].
  destruct (iteration' 0 le w) as [s w1] eqn:Hit.
  apply (first_pass _ _ _ _ Hnil) in Hit as (evs & <- & Hshape).
  destruct Hshape as [[Hevs [x ->]]|[[Hevs Hs]|(error & devs & _ & Hlt & _)]]; [| |lia].
  - intros [= <- <-]. by left.
  - destruct s as [v|e|e|e]; try done.
    + intros [= <- <-]. by right.
    + destruct (exhausted_spec env maxRetries startTime e w1) as (el & w2 & -> & Htr).
      intros [= <- <-]. right. congruence.
Qed.

(** A classifier that says stop, consulted after the failure of a first
    attempt that is not the last, makes the run rethrow the error of that
    attempt as it is. *)
Lemma loop_policy_rejection e le w out w' :
  1 <= maxRetries -> trace w = [] ->
  (forall x a, retryOn x a = Normal false) ->
  (forall t, exists d, fn env 0 t = (Throw e, d)) ->
  loop' 0 le w = (out, w') ->
  (trace w' = [] /\ exists x, out = Throw (Retry x) /\ interrupted' x)
  \/ (trace w' = [EvCall 0; EvRetryOn e 0] /\ out = Throw (Rethrown e)).
Proof.
  intros H1 Hnil Hpol Hfail. rewrite loop_body.
  destruct (Z.leb_spec 0 maxRetries) as [_|?]; [|lia].
  destruct (iteration' 0 le w) as [s w1] eqn:Hit.
  apply iteration_sound in Hit.
  assert (Herr : forall t d error, fn env 0 t = (Throw error, d) -> error = e).
  { intros t d error H. destruct (Hfail t) as [d' H']. congruence. }
  iteration_cases Hit.
  - intros [= <- <-]. left. rewrite Htr. eauto.
  - destruct (Hfail t1) as [d' H']. congruence.
  - lia.
  - by rewrite Hpol in Hp.
  - apply Herr in Hfn as ->. intros [= <- <-]. right. by rewrite Htr, Hnil.
  - by rewrite Hpol in Hp.
  - by rewrite Hpol in Hp.
Qed.

(** *** Sleeping within the time budget *)

Lemma timer_delay_min d (r : Q) :
  (0 < r)%Q -> (timer_delay (Math_min d (Fin r)) <= r)%Q.
Proof.
  intros Hr. destruct d as [q| | |]; cbn; try lra.
  - apply Q.max_lub; [apply Q.le_min_r | lra].
  - apply Q.max_lub; lra.
Qed.

Lemma elem_of_delay_events ev a :
  ev ∈ delay_events baseDelayMs maxDelayMs jitter a ->
  (exists d, ev = EvDelay a d) \/ ev = EvRandom.
Proof.
  unfold delay_events. intros [->|Hin]%elem_of_cons; [eauto|].
  destruct jitter; [|by apply elem_of_nil in Hin].
  apply list_elem_of_singleton in Hin. auto.
Qed.

Lemma elem_of_notify_events ev a error d :
  ev ∈ notify_events onRetry a error d -> ev = EvOnRetry error (a + 1) d.
Proof.
  unfold notify_events. destruct onRetry; [|by intros ?%elem_of_nil].
  by intros ?%list_elem_of_singleton.
Qed.

Lemma delay_outcome_budget t a error w s w' :
  timeoutMs = Some t ->
  delay_outcome' a error w s w' ->
  exists evs, trace w' = trace w ++ evs /\ budget_events' t evs s.
Proof.
  intros Ht H. delay_cases H;
    (eexists; split; [exact Htr2|]);
    unfold within_budget, clamp_events in *; rewrite Ht in *.
  - injection Ht2 as <-. split.
    + intros at1 ms [Hin|Hin]%elem_of_app.
      * by apply elem_of_delay_events in Hin as [[? ?]|?].
      * by apply list_elem_of_singleton in Hin.
    + intros at1 dd r [Hin|Hin]%elem_of_app.
      * by apply elem_of_delay_events in Hin as [[? ?]|?].
      * apply list_elem_of_singleton in Hin as [= -> -> ->].
        split; [done|]. intros _. rewrite last_snoc. eauto.
  - destruct Hb as [Hpos ->]. split.
    + intros at1 ms [Hin|[Hin|Hin]%elem_of_app]%elem_of_app.
      * by apply elem_of_delay_events in Hin as [[? ?]|?].
      * by apply list_elem_of_singleton in Hin.
      * by apply list_elem_of_singleton in Hin.
    + intros at1 dd r [Hin|[Hin|Hin]%elem_of_app]%elem_of_app.
      * by apply elem_of_delay_events in Hin as [[? ?]|?].
      * apply list_elem_of_singleton in Hin as [= -> -> ->]. split; [done | lra].
      * by apply list_elem_of_singleton in Hin.
  - destruct Hb as [Hpos ->]. split.
    + intros at1 ms [Hin|[Hin|[Hin|Hin]%elem_of_app]%elem_of_app]%elem_of_app.
      * by apply elem_of_delay_events in Hin as [[? ?]|?].
      * by apply list_elem_of_singleton in Hin.
      * by apply elem_of_notify_events in Hin.
      * apply list_elem_of_singleton in Hin as [= -> ->]. split; [done|].
        exists d2. split; [|done].
        apply elem_of_app. right. apply elem_of_app. left.
        by apply list_elem_of_singleton.
    + intros at1 dd r [Hin|[Hin|[Hin|Hin]%elem_of_app]%elem_of_app]%elem_of_app.
      * by apply elem_of_delay_events in Hin as [[? ?]|?].
      * apply list_elem_of_singleton in Hin as [= -> -> ->]. split; [done | lra].
      * by apply elem_of_notify_events in Hin.
      * by apply list_elem_of_singleton in Hin.
Qed.

Lemma budget_events_prefix t pre evs s :
  (forall ev, ev ∈ pre -> match ev with EvSleep _ _ | EvClamp _ _ _ => False | _ => True end) ->
  budget_events' t evs s -> budget_events' t (pre ++ evs) s.
Proof.
  intros Hpre [Hs Hc]. split.
  - intros at_ ms [Hin|Hin]%elem_of_app; [by apply Hpre in Hin|].
    destruct (Hs at_ ms Hin) as (Hpos & d & Hd & Hms).
    split; [done|]. exists d. split; [|done]. apply elem_of_app. auto.
  - intros at_ d r [Hin|Hin]%elem_of_app; [by apply Hpre in Hin|].
    destruct (Hc at_ d r Hin) as (Hr & Hlast). split; [done|].
    intros Hle. destruct (Hlast Hle) as [Hl Hout]. split; [|done].
    apply last_app_Some. auto.
Qed.

Lemma budget_events_plain t evs s :
  (forall ev, ev ∈ evs -> match ev with EvSleep _ _ | EvClamp _ _ _ => False | _ => True end) ->
  budget_events' t evs s.
Proof.
  intros H. split.
  - intros at_ ms Hin. by apply H in Hin.
  - intros at_ d r Hin. by apply H in Hin.
Qed.

Lemma iteration_outcome_budget t a le w s w' :
  timeoutMs = Some t ->
  iteration_outcome' a le w s w' ->
  exists evs, trace w' = trace w ++ evs /\ budget_events' t evs s.
Proof.
  intros Ht H. iteration_cases H.
  1: { exists []. rewrite app_nil_r. split; [done|].
       apply budget_events_plain. by intros ev ?%elem_of_nil. }
  1-5: (eexists; split; [exact Htr|]; apply budget_events_plain; intros ev Hin;
        repeat (apply elem_of_cons in Hin as [->|Hin]; [done|]);
        by apply elem_of_nil in Hin).
  apply (delay_outcome_budget t) in Hd as (devs & Htr' & Hb); [|done].
  exists ([EvCall a; EvRetryOn error a] ++ devs).
  split; [by rewrite Htr', Htr, <- app_assoc|].
  apply budget_events_prefix; [|done].
  intros ev Hin. repeat (apply elem_of_cons in Hin as [->|Hin]; [done|]).
  by apply elem_of_nil in Hin.
Qed.

Lemma loop_budget t a le w out w' :
  timeoutMs = Some t ->
  trace w = [] ->
  loop' a le w = (out, w') ->
  sleeps_within_budget' t (trace w') /\ spent_budget_times_out' t (out, w').
Proof.
  intros Ht Hnil Hloop.
  pose (Inv := fun (_ : Z) (_ : JsValue) (w : World) =>
     sleeps_within_budget' t (trace w)
     /\ forall at_ d rem, EvClamp at_ d rem ∈ trace w ->
          rem = (t - (at_ - startTime))%Q /\ (0 < rem)%Q).
  pose (Post := fun (r : Completion Thrown T * World) =>
     sleeps_within_budget' t (trace r.2) /\ spent_budget_times_out' t r).
  assert (Hweaken : forall w r, Inv 0 JUndefined w -> trace r.2 = trace w -> Post r).
  { intros w0 r [Hs Hc] Htr. split; [by rewrite Htr|].
    intros at_ d rem Hin. rewrite Htr in Hin. destruct (Hc _ _ _ Hin) as [? ?].
    split; [done | lra]. }
  assert (HP : Post (loop' a le w)).
  { apply (loop_invariant env _ _ _ _ _ _ _ _ _ Inv Post).
    - clear -Ht Hweaken. intros a le w [Hs Hc] Hle.
      destruct (iteration' a le w) as [s w'] eqn:Hit.
      apply iteration_sound, (iteration_outcome_budget t) in Hit; [|done].
      destruct Hit as (evs & Htr & Hbs & Hbc).
      assert (Hs' : sleeps_within_budget' t (trace w')).
      { rewrite Htr. intros at_ ms [Hin|Hin]%elem_of_app.
        - destruct (Hs _ _ Hin) as (Hpos & (d & Hd & Hms) & Hdl).
          split; [done|]. split; [|done]. exists d. split; [|done].
          apply elem_of_app. auto.
        - destruct (Hbs _ _ Hin) as (Hpos & d & Hd & Hms).
          split; [done|]. split.
          + exists d. split; [|done]. apply elem_of_app. auto.
          + rewrite Hms. pose proof (timer_delay_min d _ Hpos). lra. }
      assert (Hc' : forall out, match s with Raise e => out = Throw e | _ => True end ->
                 spent_budget_times_out' t (out, w')).
      { intros out Hout at_ d rem. cbn [fst snd]. rewrite Htr.
        intros [Hin|Hin]%elem_of_app.
        - destruct (Hc _ _ _ Hin) as [? ?]. split; [done | lra].
        - destruct (Hbc _ _ _ Hin) as [Hr Hlast]. split; [done|].
          intros Hle'. destruct (Hlast Hle') as (Hl & n & c & ->).
          split; [apply last_app_Some; auto | eauto]. }
      assert (Hpos : match s with Raise _ => True | _ =>
                forall at_ d rem, EvClamp at_ d rem ∈ trace w' ->
                  rem = (t - (at_ - startTime))%Q /\ (0 < rem)%Q end).
      { destruct s as [v|e|e|e]; try done;
          (intros at_ d rem; rewrite Htr; intros [Hin|Hin]%elem_of_app;
           [by apply (Hc at_ d rem)|];
           destruct (Hbc _ _ _ Hin) as [Hr Hlast]; split; [done|];
           destruct (Qlt_le_dec 0 rem) as [?|Hle']; [done|];
           by destruct (Hlast Hle') as (_ & n & c & ?)). }
      destruct s as [v|e|e|e].
      + split; [done|]. by apply Hc'.
      + split; [done|]. by apply Hc'.
      + apply (Hweaken w'); [done|].
        by destruct (exhausted_spec env maxRetries startTime e w') as (el & w2 & -> & Htr2).
      + done.
    - clear -Hweaken. intros a le w HInv _. apply (Hweaken w); [done|].
      by destruct (exhausted_spec env maxRetries startTime le w) as (el & w2 & -> & Htr2).
    - split; rewrite Hnil; [by intros ? ? ?%elem_of_nil | by intros ? ? ? ?%elem_of_nil]. }
  rewrite Hloop in HP. apply HP.
Qed.

(** Neither a pass nor the loop throws a configuration error. *)
Lemma iteration_outcome_no_config a le w c w' :
  ~ iteration_outcome' a le w (Raise (Config c)) w'.
Proof.
  intros H. inversion H as [| | | | | |error t1 d1 w1 s1 w2 Hlt Hfn Hp Htr Hd]; subst.
  inversion Hd as [| |at_ d2 d' s2 w3 Hb Hh Htr2 Hs]; subst.
  by destruct Hs as [?|(? & ? & ? & ? & ?)].
Qed.

Lemma loop_no_config_error a le w out w' :
  loop' a le w = (out, w') -> forall e, out <> Throw (Config e).
Proof.
  intros Hloop.
  pose (Post := fun (r : Completion Thrown T * World) =>
                  forall e, r.1 <> Throw (Config e)).
  assert (HP : Post (loop' a le w)).
  { apply (loop_invariant env _ _ _ _ _ _ _ _ _ (fun _ _ _ => True) Post); [| |done].
    - clear. intros a le w _ _.
      destruct (iteration' a le w) as [s w'] eqn:Hit.
      apply iteration_sound in Hit.
      destruct s as [v|[c|x|v]|e0|e0]; try done.
      by apply iteration_outcome_no_config in Hit.
    - clear. intros a le w _ _.
      by destruct (exhausted_spec env maxRetries startTime le w) as (el & w2 & -> & _). }
  rewrite Hloop in HP. apply HP.
Qed.

End RunFacts.

(** ** The claims about [smartRetry] *)

(** A run with valid options either finds the signal aborted at entry or
    enters the loop at attempt 0. *)
Lemma smartRetry_valid {T} (env : Env T) options t0 :
  validateOptions options = None ->
  smartRetry env options t0 =
  if aborted (signal options) (t0 + lag env 0)%Q
  then (Throw (Retry (AbortError {| totalAttempts := 0; totalElapsedMs := 0 |}
                        (signal_reason (signal options)))), entry_world env t0)
  else loop env (effective_maxRetries options)
            (default DEFAULTS.baseDelayMs (baseDelayMs options))
            (default DEFAULTS.maxDelayMs (maxDelayMs options))
            (default DEFAULTS.jitter (jitter options))
            (effective_retryOn options) (onRetry options) (timeoutMs options)
            (signal options) (t0 + lag env 0)%Q 0 JUndefined (entry_world env t0).
Proof. intros H. unfold smartRetry. by rewrite H. Qed.

Lemma effective_maxRetries_nonneg options :
  validateOptions options = None -> 0 <= effective_maxRetries options.
Proof.
  intros (H & _)%validateOptions_None. unfold effective_maxRetries.
  destruct (maxRetries options) as [n|]; [by apply H | done].
Qed.

Lemma last_seqZ (n a : Z) : last (seqZ 0 n) = Some a -> n = a + 1.
Proof.
  destruct (Z_le_gt_dec n 0) as [Hle|Hgt].
  - by rewrite seqZ_nil.
  - replace n with ((n - 1) + 1) at 1 by lia.
    rewrite seqZ_snoc by lia. rewrite last_snoc. intros [= <-]. lia.
Qed.


(** A run of an operation that always fails, with a retry predicate that
    says retry and a hook that returns, is interrupted by the timeout or the
    signal, or makes all its attempts and ends exhausted. *)
Lemma always_failing_run {T} (env : Env T) options t0 (N : Z)
    (err : Z -> JsValue) out w' :
  validateOptions options = None ->
  effective_maxRetries options = N ->
  (forall a t, exists d, fn env a t = (Throw (err a), d)) ->
  (forall a, 0 <= a < N -> effective_retryOn options (err a) a = Normal true) ->
  (forall hook e a d, onRetry options = Some hook -> exists u, hook e a d = Normal u) ->
  smartRetry env options t0 = (out, w') ->
  (exists x, out = Throw (Retry x) /\ interrupted (timeoutMs options) (signal options) x)
  \/ (calls w' = seqZ 0 (N + 1)
      /\ exists elapsed, out = Throw (Retry (RetryExhaustedError
           {| totalAttempts := N + 1; totalElapsedMs := elapsed |} (err N)))).
Proof.
  intros Hv HN Hfail Hpol Hhook Hrun.
  pose proof (effective_maxRetries_nonneg options Hv) as Hnn. rewrite HN in Hnn.
  rewrite (smartRetry_valid env options t0 Hv) in Hrun.
  destruct (aborted (signal options) _) eqn:Hab.
  { injection Hrun as <- <-. left. eexists. split; [done|]. right. eauto. }
  rewrite HN in Hrun.
  eapply (loop_exhausts env _ _ _ _ _ _ _ _ _ err) in Hrun; try done; lia.
Qed.


(** Nothing intervenes when no timeout is set and the signal, if any, is
    never aborted. *)
Lemma undisturbed_run_exhausts {T} (env : Env T) options t0 (N : Z)
    (err : Z -> JsValue) out w' :
  validateOptions options = None ->
  effective_maxRetries options = N ->
  (forall a t, exists d, fn env a t = (Throw (err a), d)) ->
  (forall a, 0 <= a < N -> effective_retryOn options (err a) a = Normal true) ->
  (forall hook e a d, onRetry options = Some hook -> exists u, hook e a d = Normal u) ->
  timeoutMs options = None ->
  (forall t, aborted (signal options) t = false) ->
  smartRetry env options t0 = (out, w') ->
  calls w' = seqZ 0 (N + 1)
  /\ exists elapsed, out = Throw (Retry (RetryExhaustedError
       {| totalAttempts := N + 1; totalElapsedMs := elapsed |} (err N))).
Proof.
  intros Hv HN Hfail Hpol Hhook Hto Hsig Hrun.
  destruct (always_failing_run env options t0 N err out w')
    as [(x & -> & [(_ & t & Ht & _)|(_ & at_ & Hab)])|H]; try done.
  - congruence.
  - by rewrite Hsig in Hab.
Qed.


(** C2, as the code has it.  With at least one retry allowed and a supplied
    [retryOn] that always returns false, a run in which the operation is called
    and fails calls it exactly once, consults [retryOn] once, and rejects with
    the error of the operation itself: no [SmartRetryError] around it and no
    metadata. *)
Theorem policy_rejection_rethrows {T} (env : Env T) options t0 p (e : JsValue) out w' :
  validateOptions options = None ->
  1 <= effective_maxRetries options ->
  retryOn options = Some p ->
  (forall x a, p x a = Normal false) ->
  (forall t, exists d, fn env 0 t = (Throw e, d)) ->
  smartRetry env options t0 = (out, w') ->
  calls w' <> [] ->
  calls w' = [0] /\ out = Throw (Rethrown e) /\ trace w' = [EvCall 0; EvRetryOn e 0].
Proof.
  intros Hv H1 Hp Hfalse Hfail Hrun Hcalls.
  rewrite (smartRetry_valid env options t0 Hv) in Hrun.
  destruct (aborted (signal options) _).
  { injection Hrun as <- <-. done. }
  apply (loop_policy_rejection _ _ _ _ _ _ _ _ _ _ e) in Hrun; try done.
  - destruct Hrun as [[Htr _]|[Htr ->]].
    + unfold calls in Hcalls. by rewrite Htr in Hcalls.
    + unfold calls. by rewrite Htr.
  - unfold effective_retryOn. rewrite Hp. done.
Qed.

(** C2 does not hold of every configuration: with [maxRetries = 0] and a
    [retryOn] that always returns false, the failure of the only attempt is
    wrapped in a [RetryExhaustedError] and [retryOn] is not consulted. *)
Lemma policy_rejection_wrapped_when_no_retries :
  match smartRetry env_bad_request options_never_retry_no_retries 0 with
  | (Throw (Retry x), w) =>
      name x = "RetryExhaustedError" /\ totalAttempts (metadata x) = 1
      /\ cause x = JString "bad request" /\ trace w = [EvCall 0]
  | _ => False
  end
  /\ (smartRetry env_bad_request options_never_retry_no_retries 0).1
     <> Throw (Rethrown (JString "bad request")).
Proof. vm_compute. repeat split; discriminate. Qed.


(** C10.  When [baseDelayMs] is omitted, a [maxDelayMs] below the default
    base delay of 300 is rejected by the check of [maxDelayMs] against
    [baseDelayMs], and the run ends there. *)
Theorem maxDelay_checked_against_default_base {T} (env : Env T) options t0 (m : Q) :
  baseDelayMs options = None ->
  maxDelayMs options = Some m ->
  (m < 300)%Q ->
  (forall n, maxRetries options = Some n -> 0 <= n) ->
  validateOptions options = Some (InvalidMaxDelay m 300)
  /\ smartRetry env options t0
     = (Throw (Config (InvalidMaxDelay m 300)),
        {| now := t0; reads := 0; draws := 0; trace := [] |}).
Proof.
  intros Hb Hm Hlt Hn.
  assert (Hv : validateOptions options = Some (InvalidMaxDelay m 300)).
  { rewrite (validateOptions_maxDelayMs options m); try done.
    - by rewrite Hb.
    - by rewrite Hb.
    - by rewrite Hb. }
  split; [done | by apply smartRetry_invalid].
Qed.

(** Valid options never make a run reject with a configuration error. *)
Lemma smartRetry_valid_no_config_error {T} (env : Env T) options t0 out w' :
  validateOptions options = None ->
  smartRetry env options t0 = (out, w') ->
  forall e, out <> Throw (Config e).
Proof.
  intros Hv Hrun. rewrite (smartRetry_valid env options t0 Hv) in Hrun.
  destruct (aborted (signal options) _).
  - by injection Hrun as <- <-.
  - by eapply loop_no_config_error.
Qed.

(** Options that fail a check make the run reject with the error of the first
    failed check, before anything else happens. *)
Lemma smartRetry_rejects_invalid {T} (env : Env T) options t0 :
  validateOptions options <> None ->
  exists e, smartRetry env options t0
            = (Throw (Config e), {| now := t0; reads := 0; draws := 0; trace := [] |}).
Proof.
  destruct (validateOptions options) as [e|] eqn:Hv; [|done].
  intros _. exists e. by apply smartRetry_invalid.
Qed.

(** C9 fails on the code for a [baseDelayMs] above the default [maxDelayMs]
    when [maxDelayMs] is omitted: validation compares a provided [maxDelayMs]
    with the default [baseDelayMs], but not a provided [baseDelayMs] with the
    default [maxDelayMs].  The options pass although the configuration has
    [maxDelayMs < baseDelayMs]; the operation is called, and the first delay
    is the cap of 5000, below the base of 10000. *)
Theorem default_maxDelay_below_base_not_rejected :
  validateOptions options_base_above_default_max = None
  /\ (default DEFAULTS.maxDelayMs (maxDelayMs options_base_above_default_max)
      < default DEFAULTS.baseDelayMs (baseDelayMs options_base_above_default_max))%Q
  /\ take 3 (trace (smartRetry env_always_failing options_base_above_default_max 0).2)
     = [EvCall 0; EvRetryOn (JString "boom") 0; EvDelay 0 (Fin 5000)].
Proof. vm_compute. repeat split. Qed.

(** ** The theorems at work on concrete runs *)

Lemma run_pair {T} (env : Env T) options t0 :
  smartRetry env options t0
  = ((smartRetry env options t0).1, (smartRetry env options t0).2).
Proof. by destruct (smartRetry env options t0). Defined.


Lemma policy_rejection_rethrows_witness :
  calls (smartRetry env_bad_request options_never_retry 0).2 = [0]
  /\ (smartRetry env_bad_request options_never_retry 0).1
     = Throw (Rethrown (JString "bad request"))
  /\ trace (smartRetry env_bad_request options_never_retry 0).2
     = [EvCall 0; EvRetryOn (JString "bad request") 0].
Proof.
  apply (policy_rejection_rethrows env_bad_request options_never_retry 0
           (fun _ _ => Normal false) (JString "bad request")).
  - reflexivity.
  - vm_compute. discriminate.
  - reflexivity.
  - reflexivity.
  - intros t. exists 0%Q. reflexivity.
  - apply run_pair.
  - vm_compute. discriminate.
Defined.




Lemma maxDelay_checked_against_default_base_witness :
  validateOptions options_small_maxDelay = Some (InvalidMaxDelay 100 300)
  /\ smartRetry env_always_failing options_small_maxDelay 0
     = (Throw (Config (InvalidMaxDelay 100 300)),
        {| now := 0; reads := 0; draws := 0; trace := [] |}).
Proof.
  apply (maxDelay_checked_against_default_base env_always_failing
           options_small_maxDelay 0 100).
  - reflexivity.
  - reflexivity.
  - reflexivity.
  - intros n H. discriminate H.
Defined.

(* ===================================================================== *)
(** * Further properties *)
(* ===================================================================== *)

(** ** Further properties of the backoff delay and of the jitter *)

Lemma Qpower_2_succ (a : Z) : (2 ^ (a + 1) == 2 * 2 ^ a)%Q.
Proof. rewrite Qpower_plus by done. change (2 ^ 1)%Q with 2%Q. ring. Qed.

Lemma Qpower_2_ge_1 (a : Z) : 0 <= a -> (1 <= 2 ^ a)%Q.
Proof.
  intros Ha. change 1%Q with (2 ^ 0)%Q. by apply Qpower_le_compat_l.
Qed.

(** X1.  For a positive base, the backoff delay is a finite number that does
    not decrease from one attempt to the next, also where the product
    overflows, and that stays at most the cap. *)
Theorem calculateBackoffDelay_nondecreasing (attempt : Z) (base cap : Q) :
  (0 < base)%Q ->
  exists d d',
    calculateBackoffDelay attempt (Fin base) (Fin cap) = Fin d
    /\ calculateBackoffDelay (attempt + 1) (Fin base) (Fin cap) = Fin d'
    /\ (d <= d')%Q /\ (d' <= cap)%Q.
Proof.
  intros Hbase.
  assert (Hpow : (0 < 2 ^ attempt)%Q) by (by apply Qpower_0_lt).
  pose proof (Qpower_2_succ attempt) as Hs.
  unfold calculateBackoffDelay.
  destruct (backoff_product_cases attempt base Hbase) as [[Hp Hn]|[Hp Hf]];
    destruct (backoff_product_cases (attempt + 1) base Hbase) as [[Hp' Hn']|[Hp' Hf']];
    cbv zeta in Hp, Hp'; rewrite Hp, Hp'; cbn.
  - exists cap, cap. repeat split; lra.
  - exfalso. apply Hn. split; [lia|]. destruct Hf' as [_ Hlt]. rewrite Hs in Hlt. nra.
  - eexists _, cap. repeat split; [apply Q.le_min_l | lra].
  - eexists _, _. repeat split; [|apply Q.le_min_l].
    apply Q.min_glb; [apply Q.le_min_l|].
    eapply Qle_trans; [apply Q.le_min_r|]. rewrite Hs. nra.
Qed.

(** X2.  With a positive base that is at most the cap, which is what
    validation asks of a provided [maxDelayMs], and an attempt index that is
    not negative, the backoff delay lies between the base and the cap. *)
Theorem calculateBackoffDelay_between_base_and_cap (attempt : Z) (base cap : Q) :
  (0 < base)%Q -> (base <= cap)%Q -> 0 <= attempt ->
  exists d, calculateBackoffDelay attempt (Fin base) (Fin cap) = Fin d
    /\ (base <= d)%Q /\ (d <= cap)%Q.
Proof.
  intros Hbase Hcap Ha.
  pose proof (Qpower_2_ge_1 attempt Ha) as Hpow.
  unfold calculateBackoffDelay.
  destruct (backoff_product_cases attempt base Hbase) as [[Hp Hn]|[Hp Hf]];
    cbv zeta in Hp; rewrite Hp; cbn.
  - exists cap. repeat split; lra.
  - eexists. repeat split; [|apply Q.le_min_l].
    apply Q.min_glb; [done | nra].
Qed.


Lemma calculateBackoffDelay_nondecreasing_witness :
  exists d d',
    calculateBackoffDelay 3 (Fin 300) (Fin 5000) = Fin d
    /\ calculateBackoffDelay (3 + 1) (Fin 300) (Fin 5000) = Fin d'
    /\ (d <= d')%Q /\ (d' <= 5000)%Q.
Proof. apply (calculateBackoffDelay_nondecreasing 3 300 5000). reflexivity. Defined.

Lemma calculateBackoffDelay_between_base_and_cap_witness :
  exists d, calculateBackoffDelay 2 (Fin 300) (Fin 5000) = Fin d
    /\ (300 <= d)%Q /\ (d <= 5000)%Q.
Proof.
  apply (calculateBackoffDelay_between_base_and_cap 2 300 5000);
    [reflexivity | discriminate | lia].
Defined.


(** X4.  For every finite base and cap, positive or not, and every attempt,
    the backoff delay is a finite number of at most the cap, never NaN and
    never an infinity; from attempt 1024 on, where [Math.pow(2, attempt)] is
    [Infinity], it is the cap whatever the base, the product being
    [Infinity], [-Infinity] or NaN. *)
Theorem calculateBackoffDelay_finite_and_capped (attempt : Z) (base cap : Q) :
  (exists d, calculateBackoffDelay attempt (Fin base) (Fin cap) = Fin d /\ (d <= cap)%Q)
  /\ (1024 <= attempt -> calculateBackoffDelay attempt (Fin base) (Fin cap) = Fin cap).
Proof.
  split.
  - unfold calculateBackoffDelay.
    destruct (num_mul (Fin base) (Math_pow2 attempt)) as [q| | |]; cbn.
    + eexists. split; [done | apply Q.le_min_l].
    + exists cap. split; [done | lra].
    + exists cap. split; [done | lra].
    + exists cap. split; [done | lra].
  - intros Hbig. unfold calculateBackoffDelay.
    destruct (Math_pow2_cases attempt) as [[_ ->]|[? _]]; [|lia].
    cbn. unfold scale_inf. by destruct (base ?= 0)%Q.
Qed.

(** ** Further properties of the policies *)

(** X5.  The two policies agree on what is retryable: an error that
    [isRetryableHttpError] accepts is retried by [defaultRetryPolicy]. *)
Theorem retryable_http_error_is_retried_by_default (error : JsValue) :
  isRetryableHttpError error = true -> defaultRetryPolicy error = true.
Proof.
  unfold isRetryableHttpError, defaultRetryPolicy.
  destruct (isNetworkError error); [done|].
  destruct (extractHttpStatus error) as [status|]; [|done].
  destruct (num_eqb status 429); [done|].
  by destruct (num_geb status 500 && num_leb status 599).
Qed.

Lemma retryable_http_error_is_retried_by_default_witness :
  isRetryableHttpError (JObject {[ "status" := JNumber 503 ]}) = true
  /\ defaultRetryPolicy (JObject {[ "status" := JNumber 503 ]}) = true.
Proof.
  split; [reflexivity|].
  apply (retryable_http_error_is_retried_by_default (JObject {[ "status" := JNumber 503 ]})).
  reflexivity.
Defined.

(** X6.  An error on which [in] finds none of [code], [status] and
    [response], such as a thrown primitive or a plain [Error], is no network
    error and carries no HTTP status; [isRetryableHttpError] rejects it and
    [defaultRetryPolicy] retries it. *)
Theorem unrecognised_error_is_retried_by_default (error : JsValue) :
  has_property "code" error = false ->
  has_property "status" error = false ->
  has_property "response" error = false ->
  isNetworkError error = false
  /\ extractHttpStatus error = None
  /\ isRetryableHttpError error = false
  /\ defaultRetryPolicy error = true.
Proof.
  intros Hc Hs Hr.
  assert (H1 : isNetworkError error = false).
  { unfold isNetworkError. rewrite Hc, andb_false_r. by destruct (nullish error). }
  assert (H2 : extractHttpStatus error = None).
  { unfold extractHttpStatus. rewrite Hs, Hr. by destruct (_ || _). }
  unfold isRetryableHttpError, defaultRetryPolicy. by rewrite H1, H2.
Qed.

Lemma unrecognised_error_is_retried_by_default_witness :
  (isNetworkError (JString "boom") = false
   /\ extractHttpStatus (JString "boom") = None
   /\ isRetryableHttpError (JString "boom") = false
   /\ defaultRetryPolicy (JString "boom") = true)
  /\ (isNetworkError (error_with_message "fetch failed") = false
      /\ extractHttpStatus (error_with_message "fetch failed") = None
      /\ isRetryableHttpError (error_with_message "fetch failed") = false
      /\ defaultRetryPolicy (error_with_message "fetch failed") = true).
Proof.
  split.
  - apply (unrecognised_error_is_retried_by_default (JString "boom")); reflexivity.
  - apply (unrecognised_error_is_retried_by_default (error_with_message "fetch failed"));
      reflexivity.
Defined.

(** ** Further properties of validation *)

(** X7.  [validateOptions] throws the error of the first check that fails, in
    the order [maxRetries], [baseDelayMs], [maxDelayMs], [timeoutMs]: it
    throws a given error exactly when the check of that error fails and the
    checks before it pass.  The error carries the offending value and, for
    [maxDelayMs], the base delay it was compared with. *)
Theorem validateOptions_reports_first_failure (options : RetryOptions) (e : ConfigError) :
  let effectiveBaseDelay := default DEFAULTS.baseDelayMs (baseDelayMs options) in
  validateOptions options = Some e <->
  (exists n, maxRetries options = Some n /\ n < 0 /\ e = InvalidMaxRetries n)
  \/ ((forall n, maxRetries options = Some n -> 0 <= n)
      /\ ((exists b, baseDelayMs options = Some b /\ (b <= 0)%Q /\ e = InvalidBaseDelay b)
          \/ ((forall b, baseDelayMs options = Some b -> (0 < b)%Q)
              /\ ((exists m, maxDelayMs options = Some m /\ (m < effectiveBaseDelay)%Q
                     /\ e = InvalidMaxDelay m effectiveBaseDelay)
                  \/ ((forall m, maxDelayMs options = Some m -> (effectiveBaseDelay <= m)%Q)
                      /\ exists t, timeoutMs options = Some t /\ (t <= 0)%Q
                           /\ e = InvalidTimeout t))))).
Proof.
  intros eff.
  assert (HA : (exists n, maxRetries options = Some n /\ n < 0)
               \/ (forall n, maxRetries options = Some n -> 0 <= n)).
  { destruct (maxRetries options) as [n|]; [|by right].
    destruct (Z_lt_le_dec n 0); [left; eauto | right; by intros ? [= <-]]. }
  assert (HB : (exists b, baseDelayMs options = Some b /\ (b <= 0)%Q)
               \/ (forall b, baseDelayMs options = Some b -> (0 < b)%Q)).
  { destruct (baseDelayMs options) as [b|]; [|by right].
    destruct (Qlt_le_dec 0 b); [right; by intros ? [= <-] | left; eauto]. }
  assert (HC : (exists m, maxDelayMs options = Some m /\ (m < eff)%Q)
               \/ (forall m, maxDelayMs options = Some m -> (eff <= m)%Q)).
  { destruct (maxDelayMs options) as [m|]; [|by right].
    destruct (Qlt_le_dec m eff); [left; eauto | right; by intros ? [= <-]]. }
  assert (HD : (exists t, timeoutMs options = Some t /\ (t <= 0)%Q)
               \/ (forall t, timeoutMs options = Some t -> (0 < t)%Q)).
  { destruct (timeoutMs options) as [t|]; [|by right].
    destruct (Qlt_le_dec 0 t); [right; by intros ? [= <-] | left; eauto]. }
  split.
  - intros Hv.
    destruct HA as [(n & Hn & Hlt)|HA].
    { rewrite (validateOptions_maxRetries options n Hn Hlt) in Hv.
      injection Hv as <-. left. eauto. }
    right. split; [done|].
    destruct HB as [(b & Hb & Hle)|HB].
    { rewrite (validateOptions_baseDelayMs options b HA Hb Hle) in Hv.
      injection Hv as <-. left. eauto. }
    right. split; [done|].
    destruct HC as [(m & Hm & Hlt)|HC].
    { rewrite (validateOptions_maxDelayMs options m HA HB Hm Hlt) in Hv.
      injection Hv as <-. left. eauto. }
    right. split; [done|].
    destruct HD as [(t & Ht & Hle)|HD].
    { rewrite (validateOptions_timeoutMs options t HA HB HC Ht Hle) in Hv.
      injection Hv as <-. eauto. }
    assert (Hnone : validateOptions options = None) by (by apply validateOptions_None).
    congruence.
  - intros [(n & Hn & Hlt & ->)|[Hok1 [(b & Hb & Hle & ->)|[Hok2
      [(m & Hm & Hlt & ->)|[Hok3 (t & Ht & Hle & ->)]]]]]].
    + by apply validateOptions_maxRetries.
    + by apply validateOptions_baseDelayMs.
    + by apply validateOptions_maxDelayMs.
    + by apply validateOptions_timeoutMs.
Qed.

(** Options that pass validation give a positive base delay and a positive
    cap. *)
Lemma valid_delays_positive (options : RetryOptions) :
  validateOptions options = None ->
  (0 < default DEFAULTS.baseDelayMs (baseDelayMs options))%Q
  /\ (0 < default DEFAULTS.maxDelayMs (maxDelayMs options))%Q.
Proof.
  intros (_ & Hb & Hm & _)%validateOptions_None.
  assert (Hbase : (0 < default DEFAULTS.baseDelayMs (baseDelayMs options))%Q).
  { destruct (baseDelayMs options) as [b|]; [by apply Hb | reflexivity]. }
  split; [done|].
  destruct (maxDelayMs options) as [m|]; [|reflexivity].
  specialize (Hm m eq_refl). cbn. lra.
Qed.



(** X9.  [smartRetry] rejects with a configuration error exactly when
    [validateOptions] throws that error, and nothing else has happened by
    then: the clock was not read, and neither [Math.random()] nor the
    operation was called. *)
Theorem configuration_error_iff_invalid {T} (env : Env T) options t0 (e : ConfigError) :
  ((smartRetry env options t0).1 = Throw (Config e) <-> validateOptions options = Some e)
  /\ (validateOptions options = Some e ->
      (smartRetry env options t0).2 = {| now := t0; reads := 0; draws := 0; trace := [] |}).
Proof.
  split; [split|].
  - intros Hrun. destruct (validateOptions options) as [e'|] eqn:Hv.
    + rewrite (smartRetry_invalid env options t0 e' Hv) in Hrun. by injection Hrun as ->.
    + exfalso.
      eapply (smartRetry_valid_no_config_error env options t0 _ _ Hv (run_pair _ _ _)).
      exact Hrun.
  - intros Hv. by rewrite (smartRetry_invalid env options t0 e Hv).
  - intros Hv. by rewrite (smartRetry_invalid env options t0 e Hv).
Qed.

(** ** Further properties of [sleep] *)

Lemma fresh_timer (ts : gmap nat Q) : ts !! fresh (dom ts) = None.
Proof. apply not_elem_of_dom. apply is_fresh. Qed.

Lemma cancel_fresh_timer (ts : gmap nat Q) (due : Q) :
  delete (fresh (dom ts)) (<[fresh (dom ts) := due]> ts) = ts.
Proof. rewrite delete_insert_eq. apply delete_id, fresh_timer. Qed.

Lemma remove_fresh_listener (ls : gset nat) : ({[fresh ls]} ∪ ls) ∖ {[fresh ls]} = ls.
Proof.
  apply set_eq. intros x. rewrite elem_of_difference, elem_of_union, !elem_of_singleton.
  split; [tauto|]. intros Hx. split; [tauto|]. intros ->. by apply (is_fresh ls).
Qed.

Lemma fresh_listener_registered (ls : gset nat) : fresh ls ∈ {[fresh ls]} ∪ ls.
Proof. apply elem_of_union_l. by apply elem_of_singleton. Qed.

Lemma fresh_listener_removed (ls : gset nat) : fresh ls ∉ ({[fresh ls]} ∪ ls) ∖ {[fresh ls]}.
Proof. rewrite remove_fresh_listener. apply is_fresh. Qed.

(** X10.  The promise of [sleep] taken callback by callback (the executor,
    the callback of the timer and the [abort] listener, run in the order of
    their instants) settles with the result that [sleep] gives, at the
    instant that [sleep] gives; whichever of the timer and the abort comes
    second changes nothing. *)
Theorem sleep_promise_agrees (ms : num) (signal : option AbortSignal) (w : World)
    (ts : gmap nat Q) (ls : gset nat) :
  settled (sleep_promise ms signal (now w) (new_sleeper ts ls)).1
  = Some (sleep ms signal w).1
  /\ (sleep_promise ms signal (now w) (new_sleeper ts ls)).2 = now (sleep ms signal w).2.
Proof.
  unfold sleep_promise, sleep_executor, sleep. cbn [now log].
  destruct (aborted signal (now w)) eqn:Hab; [done|].
  destruct signal as [[[a|] rs]|]; cbn.
  - rewrite lookup_insert_eq. cbn.
    destruct (Qle_bool _ a) eqn:Hle.
    + unfold fire_timer, dispatch_abort. cbn. rewrite lookup_insert_eq. cbn.
      by rewrite bool_decide_eq_false_2 by apply fresh_listener_removed.
    + unfold fire_timer, dispatch_abort. cbn.
      rewrite bool_decide_eq_true_2 by apply fresh_listener_registered. cbn.
      by rewrite lookup_delete_eq.
  - rewrite lookup_insert_eq. unfold fire_timer. cbn. by rewrite lookup_insert_eq.
  - rewrite lookup_insert_eq. unfold fire_timer. cbn. by rewrite lookup_insert_eq.
Qed.

(** X11.  [sleep] cleans up after itself: once the promise has run its
    course it is settled, its timer is no longer pending and its listener is
    no longer on the signal, so that the runtime holds the timers and the
    listeners it held before; [timerId] and [onAbort] are reset. *)
Theorem sleep_promise_cleans_up (ms : num) (signal : option AbortSignal) (t : Q)
    (ts : gmap nat Q) (ls : gset nat) :
  let p := (sleep_promise ms signal t (new_sleeper ts ls)).1 in
  timers p = ts /\ listeners p = ls /\ timerId p = None /\ onAbort p = None
  /\ is_Some (settled p).
Proof.
  unfold sleep_promise, sleep_executor. cbv zeta.
  destruct (aborted signal t) eqn:Hab; [cbn; eauto 10|].
  destruct signal as [[[a|] rs]|]; cbn.
  - rewrite lookup_insert_eq. cbn.
    destruct (Qle_bool _ a) eqn:Hle.
    + unfold fire_timer, dispatch_abort. cbn. rewrite lookup_insert_eq. cbn.
      rewrite bool_decide_eq_false_2 by apply fresh_listener_removed. cbn.
      rewrite delete_insert_eq, delete_delete_eq, delete_id by apply fresh_timer.
      rewrite remove_fresh_listener. eauto 10.
    + unfold fire_timer, dispatch_abort. cbn.
      rewrite bool_decide_eq_true_2 by apply fresh_listener_registered. cbn.
      rewrite lookup_delete_eq. cbn.
      rewrite cancel_fresh_timer, difference_twice_L, remove_fresh_listener. eauto 10.
  - rewrite ?lookup_insert_eq. unfold fire_timer. cbn. rewrite lookup_insert_eq. cbn.
    rewrite delete_insert_eq, delete_delete_eq, delete_id by apply fresh_timer.
    rewrite remove_fresh_listener. eauto 10.
  - rewrite ?lookup_insert_eq. unfold fire_timer. cbn. rewrite lookup_insert_eq. cbn.
    rewrite delete_insert_eq, delete_delete_eq, delete_id by apply fresh_timer. eauto 10.
Qed.

Lemma timer_delay_nonneg (ms : num) : (0 <= timer_delay ms)%Q.
Proof. destruct ms; cbn; try lra. apply Q.le_max_r. Qed.

Lemma Qle_bool_false (x y : Q) : Qle_bool x y = false -> (y < x)%Q.
Proof. intros H. apply Qnot_le_lt. intros Hle%Qle_bool_iff. congruence. Qed.

(** X12.  [sleep] ends no earlier than it starts and no later than its timer
    fires.  It resolves only when the timer fires, which no abort precedes;
    it rejects with [signal.reason], or with the [DOMException] in its
    absence: at once if the signal is aborted already, and at the instant of
    the abort otherwise. *)
Theorem sleep_settles (ms : num) (signal : option AbortSignal) (w : World) :
  let r := sleep ms signal w in
  (now w <= now r.2)%Q
  /\ (now r.2 <= now w + timer_delay ms)%Q
  /\ match r.1 with
     | Normal _ =>
         now r.2 = (now w + timer_delay ms)%Q
         /\ forall sg a, signal = Some sg -> abortAt sg = Some a ->
              (now w + timer_delay ms <= a)%Q
     | Throw v =>
         v = abort_rejection signal
         /\ exists sg a, signal = Some sg /\ abortAt sg = Some a /\ (a <= now r.2)%Q
              /\ (now r.2 = now w \/ now r.2 = a)
     end.
Proof.
  pose proof (timer_delay_nonneg ms) as Hms.
  unfold sleep. cbv zeta. cbn [now log].
  destruct (aborted signal (now w)) eqn:Hab.
  - cbn. split; [lra|]. split; [lra|]. split; [done|].
    unfold aborted in Hab. destruct signal as [sg|]; [|done].
    destruct (abortAt sg) as [a|] eqn:Ha; [|done].
    apply Qle_bool_iff in Hab. exists sg, a. eauto 10.
  - destruct signal as [[[a|] rs]|]; cbn.
    + cbn in Hab. apply Qle_bool_false in Hab.
      destruct (Qle_bool _ a) eqn:Hle; cbn.
      * apply Qle_bool_iff in Hle. split; [lra|]. split; [lra|]. split; [done|].
        by intros sg a' [= <-] [= <-].
      * apply Qle_bool_false in Hle. split; [lra|]. split; [lra|]. split; [done|].
        eexists _, a. split; [done|]. split; [done|]. split; [lra | by right].
    + split; [lra|]. split; [lra|]. split; [done|]. by intros sg a [= <-].
    + split; [lra|]. split; [lra|]. split; [done|]. done.
Qed.

(** ** Further properties of the retry loop *)

Lemma smartRetry_cases {T} (env : Env T) options t0 :
  (exists e, validateOptions options = Some e
     /\ smartRetry env options t0
        = (Throw (Config e), {| now := t0; reads := 0; draws := 0; trace := [] |}))
  \/ (validateOptions options = None
      /\ aborted (signal options) (t0 + lag env 0)%Q = true
      /\ smartRetry env options t0
         = (Throw (Retry (AbortError {| totalAttempts := 0; totalElapsedMs := 0 |}
                            (signal_reason (signal options)))), entry_world env t0))
  \/ (validateOptions options = None
      /\ aborted (signal options) (t0 + lag env 0)%Q = false
      /\ 0 <= effective_maxRetries options
      /\ smartRetry env options t0
         = loop env (effective_maxRetries options)
             (default DEFAULTS.baseDelayMs (baseDelayMs options))
             (default DEFAULTS.maxDelayMs (maxDelayMs options))
             (default DEFAULTS.jitter (jitter options))
             (effective_retryOn options) (onRetry options) (timeoutMs options)
             (signal options) (t0 + lag env 0)%Q 0 JUndefined (entry_world env t0)).
Proof.
  destruct (validateOptions options) as [e|] eqn:Hv.
  - left. exists e. split; [done|]. by apply smartRetry_invalid.
  - right. rewrite (smartRetry_valid env options t0 Hv).
    destruct (aborted (signal options) _) eqn:Hab.
    + left. done.
    + right. split; [done|]. split; [done|]. split; [|done].
      by apply effective_maxRetries_nonneg.
Qed.

Section MoreRunFacts.
Context {T : Type} (env : Env T).
Variables (maxRetries : Z) (baseDelayMs maxDelayMs : Q) (jitter : bool).
Variable retryOn : JsValue -> Z -> Completion JsValue bool.
Variable onRetry : option (JsValue -> Z -> num -> Completion JsValue unit).
Variable timeoutMs : option Q.
Variable signal : option AbortSignal.
Variable startTime : Q.

Local Abbreviation loop' :=
  (loop env maxRetries baseDelayMs maxDelayMs jitter retryOn onRetry timeoutMs signal
        startTime).
Local Abbreviation iteration' :=
  (iteration env maxRetries baseDelayMs maxDelayMs jitter retryOn onRetry timeoutMs signal
             startTime).
Local Abbreviation exhausted' := (exhausted (T:=T) env maxRetries startTime).
Local Abbreviation iteration_outcome' :=
  (iteration_outcome env maxRetries baseDelayMs maxDelayMs jitter retryOn onRetry
                     timeoutMs signal startTime).
Local Abbreviation delay_outcome' :=
  (delay_outcome (T:=T) baseDelayMs maxDelayMs jitter onRetry timeoutMs signal startTime).
Local Abbreviation interrupted' := (interrupted timeoutMs signal).

Ltac delay_cases H :=
  destruct H as [t2 at_ d2 w3 Ht2 Hle2 Htr2
                |at_ d2 d' hook e2 w3 Hb Hh He Htr2
                |at_ d2 d' s2 w3 Hb Hh Htr2 Hs].

Ltac iteration_cases H :=
  destruct H as [x w1 Hx Hn Htr
                |v t1 d1 w1 Hfn Htr
                |error t1 d1 w1 Hge Hfn Htr
                |error t1 d1 e1 w1 Hlt Hfn Hp Htr
                |error t1 d1 w1 Hlt Hfn Hp Htr
                |error t1 d1 x w1 Hlt Hfn Hp Hx Hn Htr
                |error t1 d1 w1 s1 w2 Hlt Hfn Hp Htr Hd].


Local Abbreviation slept_delay' :=
  (slept_delay env baseDelayMs maxDelayMs jitter timeoutMs startTime).
Local Abbreviation delay_and_sleep' :=
  (delay_and_sleep (T:=T) env baseDelayMs maxDelayMs jitter onRetry timeoutMs signal
                   startTime).

(** *** What the blocks append, seen through the projections of the trace *)

Lemma sleep_delays_extend w w' evs :
  trace w' = trace w ++ evs -> sleep_delays w' = sleep_delays w ++ omap sleep_of evs.
Proof. intros H. unfold sleep_delays. rewrite H. apply omap_app. Qed.

Lemma onRetry_delays_extend w w' evs :
  trace w' = trace w ++ evs -> onRetry_delays w' = onRetry_delays w ++ omap hook_delay_of evs.
Proof. intros H. unfold onRetry_delays. rewrite H. apply omap_app. Qed.

Lemma onRetry_attempts_extend w w' evs :
  trace w' = trace w ++ evs ->
  onRetry_attempts w' = onRetry_attempts w ++ omap hook_attempt_of evs.
Proof. intros H. unfold onRetry_attempts. rewrite H. apply omap_app. Qed.

Lemma delay_events_quiet a :
  omap sleep_of (delay_events baseDelayMs maxDelayMs jitter a) = []
  /\ omap hook_delay_of (delay_events baseDelayMs maxDelayMs jitter a) = []
  /\ omap hook_attempt_of (delay_events baseDelayMs maxDelayMs jitter a) = [].
Proof. unfold delay_events. by destruct jitter. Qed.

Lemma clamp_events_quiet at_ d :
  omap sleep_of (clamp_events timeoutMs startTime at_ d) = []
  /\ omap hook_delay_of (clamp_events timeoutMs startTime at_ d) = []
  /\ omap hook_attempt_of (clamp_events timeoutMs startTime at_ d) = [].
Proof. unfold clamp_events. by destruct timeoutMs. Qed.

Lemma notify_events_quiet a error d :
  omap sleep_of (notify_events onRetry a error d) = [].
Proof. unfold notify_events. by destruct onRetry. Qed.

(** *** The value of the delay *)

Lemma retry_delay_value a w d w' :
  retry_delay env baseDelayMs maxDelayMs jitter a w = (d, w') ->
  d = jittered_delay env baseDelayMs maxDelayMs jitter a (draws w).
Proof.
  unfold retry_delay, jittered_delay, Math_random. destruct jitter; cbn.
  - by intros [= <- <-].
  - by intros [= <- <-].
Qed.

(** The delay block appends at most one sleep, of the delay computed for
    this attempt; it goes on to the next attempt only after that sleep. *)
Lemma delay_and_sleep_sleeps a error w s w' :
  delay_and_sleep' a error w = (s, w') ->
  match s with
  | Next _ => exists ms, sleep_delays w' = sleep_delays w ++ [ms] /\ slept_delay' a ms
  | Raise _ => sleep_delays w' = sleep_delays w
               \/ exists ms, sleep_delays w' = sleep_delays w ++ [ms] /\ slept_delay' a ms
  | _ => False
  end.
Proof.
  unfold delay_and_sleep.
  destruct (retry_delay _ _ _ _ a w) as [d w1] eqn:H1.
  pose proof (retry_delay_value _ _ _ _ H1) as Hd.
  apply retry_delay_spec in H1 as [Htr1 Hnow1].
  destruct (clamp_delay _ _ _ a error d w1) as [r w2] eqn:H2.
  apply clamp_delay_spec in H2 as (Htr2 & Hnow2 & Hr).
  destruct (delay_events_quiet a) as (Hq1 & _).
  destruct (clamp_events_quiet (now w2) d) as (Hq2 & _).
  assert (Hs2 : sleep_delays w2 = sleep_delays w).
  { rewrite (sleep_delays_extend _ _ _ Htr2), (sleep_delays_extend _ _ _ Htr1), Hq1, Hq2.
    by rewrite !app_nil_r. }
  destruct r as [e|d'].
  - intros [= <- <-]. by left.
  - destruct (notify onRetry a error d' w2) as [n w3] eqn:H3.
    apply notify_spec in H3 as (Htr3 & Hnow3 & Hn).
    assert (Hs3 : sleep_delays w3 = sleep_delays w).
    { rewrite (sleep_delays_extend _ _ _ Htr3), notify_events_quiet, app_nil_r. done. }
    destruct n as [u|e].
    + intros H4. apply sleep_or_abort_spec in H4 as [Htr4 Hs].
      assert (Hslept : exists ms, sleep_delays w' = sleep_delays w ++ [ms] /\ slept_delay' a ms).
      { exists d'. split.
        - rewrite (sleep_delays_extend _ _ _ Htr4), Hs3. done.
        - exists (draws w), (now w2). by rewrite <- Hd. }
      destruct Hs as [->|(el & c & at_ & Hab & ->)]; [done | by right].
    + intros [= <- <-]. by left.
Qed.

(** A pass appends at most one sleep, and goes round again only after it. *)
Lemma iteration_sleeps a le w s w' :
  iteration' a le w = (s, w') ->
  match s with
  | Next _ => a < maxRetries
              /\ exists ms, sleep_delays w' = sleep_delays w ++ [ms] /\ slept_delay' a ms
  | Raise _ => sleep_delays w' = sleep_delays w
               \/ (a < maxRetries
                   /\ exists ms, sleep_delays w' = sleep_delays w ++ [ms] /\ slept_delay' a ms)
  | _ => sleep_delays w' = sleep_delays w
  end.
Proof.
  unfold iteration.
  destruct (check_timeout _ _ _ a le w) as [r1 w1] eqn:H1.
  apply check_timeout_spec in H1 as [Htr1 Hr1].
  assert (Hs1 : sleep_delays w1 = sleep_delays w) by (unfold sleep_delays; by rewrite Htr1).
  destruct Hr1 as [->|(el & t & Ht & Hle & ->)]; [|intros [= <- <-]; by left].
  destruct (check_abort _ _ _ a w1) as [r2 w2] eqn:H2.
  apply check_abort_spec in H2 as [Htr2 Hr2].
  assert (Hs2 : sleep_delays w2 = sleep_delays w) by (unfold sleep_delays; by rewrite Htr2, Htr1).
  destruct Hr2 as [->|(Hab & el & ->)]; [|intros [= <- <-]; by left].
  destruct (invoke env a w2) as [r3 w3] eqn:H3.
  apply invoke_spec in H3 as [Htr3 [d Hfn]].
  assert (Hs3 : sleep_delays w3 = sleep_delays w).
  { rewrite (sleep_delays_extend _ _ _ Htr3), Hs2. cbn. by rewrite app_nil_r. }
  destruct r3 as [v|error]; [by intros [= <- <-]|].
  destruct (Z.geb_spec a maxRetries) as [Hge|Hlt]; [by intros [= <- <-]|].
  assert (Hs3' : sleep_delays (log (EvRetryOn error a) w3) = sleep_delays w).
  { unfold sleep_delays in *. cbn [log trace]. rewrite omap_app, Hs3. cbn.
    by rewrite app_nil_r. }
  destruct (retryOn error a) as [[|]|e] eqn:Hpolicy;
    [|intros [= <- <-]; by left|intros [= <- <-]; by left].
  destruct (check_timeout _ _ _ (a + 1) error _) as [r4 w4] eqn:H4.
  apply check_timeout_spec in H4 as [Htr4 Hr4].
  assert (Hs4 : sleep_delays w4 = sleep_delays w).
  { rewrite <- Hs3'. unfold sleep_delays. by rewrite Htr4. }
  destruct Hr4 as [->|(el & t & Ht & Hle & ->)]; [|intros [= <- <-]; by left].
  destruct (check_abort _ _ _ (a + 1) w4) as [r5 w5] eqn:H5.
  apply check_abort_spec in H5 as [Htr5 Hr5].
  assert (Hs5 : sleep_delays w5 = sleep_delays w) by (unfold sleep_delays in *; by rewrite Htr5).
  destruct Hr5 as [->|(Hab & el & ->)]; [|intros [= <- <-]; by left].
  intros H6. apply delay_and_sleep_sleeps in H6. rewrite Hs5 in H6.
  destruct s as [v|e|e|e]; try done.
  destruct H6 as [?|?]; [by left | by right].
Qed.

(** *** The causes of the errors *)

Local Abbreviation interruption_of' := (interruption_of timeoutMs signal).

Lemma aborted_inv t :
  aborted signal t = true ->
  exists sg ab, signal = Some sg /\ abortAt sg = Some ab /\ (ab <= t)%Q.
Proof.
  unfold aborted. destruct signal as [sg|]; [|done].
  destruct (abortAt sg) as [ab|] eqn:Hab; [|done].
  intros H%Qle_bool_iff. eauto.
Qed.

(** A sleep rejects with [signal.reason], or the [DOMException] when there is
    none, and the signal is aborted by then. *)
Lemma sleep_rejection ms w v w' :
  sleep ms signal w = (Throw v, w') ->
  aborted signal (now w') = true /\ v = abort_rejection signal.
Proof.
  unfold sleep. cbn [now log].
  destruct (aborted signal (now w)) eqn:E; [by intros [= <- <-]|].
  destruct signal as [[[ab|] rs]|]; try done.
  destruct (Qle_bool _ ab); [done|]. intros [= <- <-]. cbn [now at_instant].
  split; [|done]. by apply aborted_at_abort.
Qed.

(** The [catch] around the sleep always finds the signal aborted: the error
    it throws carries [signal.reason]. *)
Lemma sleep_or_abort_cause a error d w s w' :
  sleep_or_abort (T:=T) env signal startTime a error d w = (s, w') ->
  s = Next error
  \/ exists elapsed, s = Raise (Retry (AbortError
       {| totalAttempts := a + 1; totalElapsedMs := elapsed |} (signal_reason signal)))
     /\ exists sg ab, signal = Some sg /\ abortAt sg = Some ab.
Proof.
  unfold sleep_or_abort.
  destruct (sleep d signal w) as [[u|e] w1] eqn:Hs.
  - intros [= <- <-]. by left.
  - apply sleep_rejection in Hs as [Hab _]. rewrite Hab.
    destruct (throw_abort _ _ _ _ _) as [x w2] eqn:Ha.
    apply throw_abort_spec in Ha as [_ [el ->]].
    intros [= <- <-]. right. exists el. split; [done|].
    apply aborted_inv in Hab as (sg & ab & ? & ? & _). eauto.
Qed.

Lemma delay_and_sleep_errors a error w x w' :
  delay_and_sleep' a error w = (Raise (Retry x), w') ->
  totalAttempts (metadata x) = a + 1 /\ interruption_of' error x.
Proof.
  unfold delay_and_sleep.
  destruct (retry_delay _ _ _ _ a w) as [d w1].
  destruct (clamp_delay _ _ _ a error d w1) as [r w2] eqn:H2.
  apply clamp_delay_spec in H2 as (_ & _ & Hr).
  destruct r as [e|d'].
  - destruct Hr as (t & Ht & Hle & ->). intros [= <- <-].
    split; [done|]. left. split; [done|]. split; [done|].
    exists t. split; [done|]. cbn. lra.
  - destruct (notify onRetry a error d' w2) as [[u|e] w3]; [|done].
    intros H4. apply sleep_or_abort_cause in H4 as [?|(el & [= ->] & Hsg)]; [done|].
    split; [done|]. right. done.
Qed.

(** The errors of one pass: an interruption before the call carries the
    error remembered from the pass before; one after the call carries the
    error of this call.  A pass that breaks or goes round again has made the
    call, and remembers its error. *)
Lemma iteration_errors a le w s w' :
  iteration' a le w = (s, w') ->
  match s with
  | Raise (Retry x) =>
      (totalAttempts (metadata x) = a /\ calls w' = calls w /\ interruption_of' le x)
      \/ (totalAttempts (metadata x) = a + 1 /\ calls w' = calls w ++ [a]
          /\ exists error t d, fn env a t = (Throw error, d) /\ interruption_of' error x)
  | Break e => maxRetries <= a /\ calls w' = calls w ++ [a]
               /\ exists t d, fn env a t = (Throw e, d)
  | Next e => a < maxRetries /\ calls w' = calls w ++ [a]
              /\ exists t d, fn env a t = (Throw e, d)
  | _ => True
  end.
Proof.
  intros Hit. pose proof (iteration_sound _ _ _ _ _ _ _ _ _ _ _ _ _ _ _ Hit) as Hout.
  apply iteration_outcome_calls in Hout.
  revert Hit. unfold iteration.
  destruct (check_timeout _ _ _ a le w) as [r1 w1] eqn:H1.
  apply check_timeout_spec in H1 as [Htr1 Hr1].
  destruct Hr1 as [->|(el & t & Ht & Hle & ->)].
  2: { intros [= <- <-]. left. split; [done|]. split; [unfold calls; by rewrite Htr1|].
       left. eauto 10. }
  destruct (check_abort _ _ _ a w1) as [r2 w2] eqn:H2.
  apply check_abort_spec in H2 as [Htr2 Hr2].
  destruct Hr2 as [->|(Hab & el & ->)].
  2: { intros [= <- <-]. left. split; [done|].
       split; [unfold calls; by rewrite Htr2, Htr1|].
       right. apply aborted_inv in Hab as (sg & ab & ? & ? & _). eauto 10. }
  destruct (invoke env a w2) as [r3 w3] eqn:H3.
  apply invoke_spec in H3 as [Htr3 [d Hfn]].
  destruct r3 as [v|error]; [by intros [= <- <-]|].
  destruct (Z.geb_spec a maxRetries) as [Hge|Hlt].
  { intros [= <- <-]. destruct Hout as [_ Hc]. split; [lia|]. eauto. }
  destruct (retryOn error a) as [[|]|e] eqn:Hpolicy; [|by intros [= <- <-]..].
  destruct (check_timeout _ _ _ (a + 1) error _) as [r4 w4] eqn:H4.
  apply check_timeout_spec in H4 as [Htr4 Hr4].
  assert (Hpost : forall x, s = Raise (Retry x) -> totalAttempts (metadata x) = a + 1 ->
            calls w' = calls w ++ [a]).
  { intros x -> Hn. destruct Hout as [_ [[Hn' _]|[_ Hc]]]; [lia | done]. }
  destruct Hr4 as [->|(el & t & Ht & Hle & ->)].
  2: { intros [= <- <-]. right. split; [done|]. split; [by eapply Hpost|].
       exists error. eexists _, _. split; [done|]. left. eauto 10. }
  destruct (check_abort _ _ _ (a + 1) w4) as [r5 w5] eqn:H5.
  apply check_abort_spec in H5 as [Htr5 Hr5].
  destruct Hr5 as [->|(Hab & el & ->)].
  2: { intros [= <- <-]. right. split; [done|]. split; [by eapply Hpost|].
       exists error. eexists _, _. split; [done|].
       right. apply aborted_inv in Hab as (sg & ab & ? & ? & _). eauto 10. }
  intros H6.
  pose proof (delay_and_sleep_sound _ _ _ _ _ _ _ _ _ _ _ _ _ H6) as Hd.
  apply delay_outcome_calls in Hd as [_ Hs].
  destruct s as [v|[c|x|v]|e|e]; try done.
  - apply delay_and_sleep_errors in H6 as [Hn Hx].
    right. split; [done|]. split; [by eapply Hpost|]. eauto 10.
  - subst e. destruct Hout as [_ Hc]. eauto 10.
Qed.

(** *** Whole loops *)

Lemma snoc_seqZ (cs : list Z) a : 0 <= a -> cs = seqZ 0 a -> cs ++ [a] = seqZ 0 (a + 1).
Proof. intros Ha ->. symmetry. by apply seqZ_snoc. Qed.

(** The calls of a loop are consecutive and stop at [maxRetries], however the
    loop ends. *)
Lemma loop_calls_bound a le w :
  0 <= a <= maxRetries + 1 -> calls w = seqZ 0 a ->
  exists k, 0 <= k <= maxRetries + 1 /\ calls (loop' a le w).2 = seqZ 0 k.
Proof.
  intros Ha Hc.
  pose (Inv := fun (a : Z) (_ : JsValue) (w : World) =>
                 0 <= a <= maxRetries + 1 /\ calls w = seqZ 0 a).
  pose (Post := fun (r : Completion Thrown T * World) =>
                  exists k, 0 <= k <= maxRetries + 1 /\ calls r.2 = seqZ 0 k).
  apply (loop_invariant env _ _ _ _ _ _ _ _ _ Inv Post); [| |done].
  - clear. intros a le w [Ha Hc] Hle.
    destruct (iteration' a le w) as [s w'] eqn:Hit.
    apply iteration_sound, iteration_outcome_calls in Hit.
    pose proof (snoc_seqZ _ a (proj1 Ha) Hc) as Hsnoc.
    destruct s as [v|[c|x|v]|e|e]; unfold Post, Inv; cbn [fst snd].
    + exists (a + 1). rewrite Hit. split; [lia | done].
    + exists (a + 1). rewrite Hit. split; [lia | done].
    + destruct Hit as [_ [[_ Hc']|[_ Hc']]]; rewrite Hc'.
      * exists a. split; [lia | done].
      * exists (a + 1). split; [lia | done].
    + exists (a + 1). rewrite Hit. split; [lia | done].
    + destruct Hit as [_ Hc'].
      destruct (exhausted_spec env maxRetries startTime e w') as (el & w2 & -> & Htr).
      cbn [fst snd]. exists (a + 1). unfold calls in *. rewrite Htr, Hc'. split; [lia | done].
    + destruct Hit as [Hlt Hc']. rewrite Hc'. split; [lia | done].
  - clear. intros a le w [Ha Hc] Hlt.
    destruct (exhausted_spec env maxRetries startTime le w) as (el & w2 & -> & Htr).
    unfold Post. cbn [fst snd]. exists a. unfold calls in *. rewrite Htr. split; [lia | done].
Qed.

Lemma last_error_of_snoc cs a e t d :
  fn env a t = (Throw e, d) -> last_error_of env (cs ++ [a]) e.
Proof. intros H. unfold last_error_of. rewrite last_snoc. eauto. Qed.

(** Every error of errors.ts that a loop throws is accounted for by the
    calls made. *)
Lemma loop_error_account a le w out w' x :
  0 <= a <= maxRetries -> calls w = seqZ 0 a -> last_error_of env (calls w) le ->
  loop' a le w = (out, w') -> out = Throw (Retry x) ->
  error_account env maxRetries timeoutMs signal (calls w') x.
Proof.
  intros Ha Hc Hle Hloop Hout.
  pose (Inv := fun (a : Z) (le : JsValue) (w : World) =>
                 0 <= a <= maxRetries /\ calls w = seqZ 0 a
                 /\ last_error_of env (calls w) le).
  pose (Post := fun (r : Completion Thrown T * World) =>
                  forall x, r.1 = Throw (Retry x) ->
                  error_account env maxRetries timeoutMs signal (calls r.2) x).
  assert (HP : Post (loop' a le w)).
  { apply (loop_invariant env _ _ _ _ _ _ _ _ _ Inv Post); [| |done].
    - clear. intros a le w (Ha & Hc & Hlast) Hle.
      destruct (iteration' a le w) as [s w'] eqn:Hit.
      apply iteration_errors in Hit.
      pose proof (snoc_seqZ _ a (proj1 Ha) Hc) as Hsnoc.
      destruct s as [v|[c|x|v]|e|e]; unfold Post, Inv; cbn [fst snd]; try done.
      + intros y [= <-]. left.
        destruct Hit as [(Hn & Hc' & Hx)|(Hn & Hc' & error & t & d & Hfn & Hx)].
        * exists le. split; [done|]. intros _. by rewrite Hc'.
        * exists error. split; [done|]. intros _. rewrite Hc'.
          by eapply last_error_of_snoc.
      + destruct Hit as (Hge & Hc' & t & d & Hfn).
        destruct (exhausted_spec env maxRetries startTime e w') as (el & w2 & -> & Htr).
        cbn [fst snd]. intros y [= <-]. right. cbn.
        assert (a = maxRetries) as -> by lia.
        unfold calls in *. rewrite Htr, Hc'. eauto 10.
      + destruct Hit as (Hlt & Hc' & t & d & Hfn). rewrite Hc'.
        split; [lia|]. split; [done|]. by eapply last_error_of_snoc.
    - clear. intros a le w (Ha & _) Hlt. lia. }
  rewrite Hloop in HP. by apply HP.
Qed.

(** A loop that returns a value returns the value of its last call; the
    calls before it failed with errors that the classifier accepted, and each
    was followed by one sleep. *)
Lemma loop_resolved a le w v w' :
  0 <= a -> calls w = seqZ 0 a -> length (sleep_delays w) = Z.to_nat a ->
  (forall b, 0 <= b < a ->
     exists e t d, fn env b t = (Throw e, d) /\ retryOn e b = Normal true) ->
  loop' a le w = (Normal v, w') ->
  exists k t d, a <= k <= maxRetries /\ fn env k t = (Normal v, d)
    /\ calls w' = seqZ 0 (k + 1) /\ last (trace w') = Some (EvCall k)
    /\ length (sleep_delays w') = Z.to_nat k
    /\ forall b, 0 <= b < k ->
         exists e t d, fn env b t = (Throw e, d) /\ retryOn e b = Normal true.
Proof.
  intros Ha Hc Hsl Hfail Hloop.
  pose (Inv := fun (b : Z) (_ : JsValue) (w : World) =>
     a <= b /\ calls w = seqZ 0 b /\ length (sleep_delays w) = Z.to_nat b
     /\ forall c, 0 <= c < b ->
          exists e t d, fn env c t = (Throw e, d) /\ retryOn e c = Normal true).
  pose (Post := fun (r : Completion Thrown T * World) =>
     forall v, r.1 = Normal v ->
     exists k t d, a <= k <= maxRetries /\ fn env k t = (Normal v, d)
       /\ calls r.2 = seqZ 0 (k + 1) /\ last (trace r.2) = Some (EvCall k)
       /\ length (sleep_delays r.2) = Z.to_nat k
       /\ forall b, 0 <= b < k ->
            exists e t d, fn env b t = (Throw e, d) /\ retryOn e b = Normal true).
  assert (HP : Post (loop' a le w)).
  { apply (loop_invariant env _ _ _ _ _ _ _ _ _ Inv Post); [| |done].
    - clear -Ha. intros b le w (Hfrom & Hc & Hsl & Hfail) Hle.
      destruct (iteration' b le w) as [s w'] eqn:Hit.
      pose proof (iteration_sleeps _ _ _ _ _ Hit) as Hsleeps.
      apply iteration_sound in Hit.
      pose proof (iteration_outcome_calls _ _ _ _ _ _ _ _ _ _ _ _ _ _ _ Hit) as Hcalls.
      assert (Hsnoc : calls w ++ [b] = seqZ 0 (b + 1)) by (apply snoc_seqZ; [lia | done]).
      iteration_cases Hit; unfold Post, Inv; cbn [fst snd]; try done.
      + intros v0 [= <-]. exists b, t1, d1.
        split; [lia|]. split; [done|]. split; [by rewrite Hcalls|].
        split; [by rewrite Htr, last_snoc|]. split; [by rewrite Hsleeps | done].
      + delay_cases Hd; try done.
        destruct Hs as [->|(el & c & at_' & Hab & ->)]; [|done].
        destruct Hcalls as [_ Hc'], Hsleeps as [_ (ms & Hms & _)].
        split; [lia|]. split; [by rewrite Hc'|]. split.
        * rewrite Hms, length_app, Hsl. cbn. lia.
        * intros c Hrange. destruct (Z.eq_dec c b) as [->|Hne]; [eauto 10|].
          apply Hfail. lia.
    - clear. intros b le w _ _.
      by destruct (exhausted_spec env maxRetries startTime le w) as (el & w2 & -> & _). }
  rewrite Hloop in HP. by apply HP.
Qed.

(** A value that a loop rethrows is the error of a call that the classifier
    refused to retry, or what the classifier or the hook threw; the call of
    that callback is the last thing the loop did. *)
Lemma loop_rethrown a le w e w' :
  loop' a le w = (Throw (Rethrown e), w') ->
  (exists b t d, last (trace w') = Some (EvRetryOn e b) /\ b < maxRetries
     /\ fn env b t = (Throw e, d) /\ retryOn e b = Normal false)
  \/ (exists b err, last (trace w') = Some (EvRetryOn err b) /\ retryOn err b = Throw e)
  \/ (exists hook b err d, onRetry = Some hook
        /\ last (trace w') = Some (EvOnRetry err b d) /\ hook err b d = Throw e).
Proof.
  intros Hloop.
  pose (Post := fun (r : Completion Thrown T * World) =>
     forall e, r.1 = Throw (Rethrown e) ->
     (exists b t d, last (trace r.2) = Some (EvRetryOn e b) /\ b < maxRetries
        /\ fn env b t = (Throw e, d) /\ retryOn e b = Normal false)
     \/ (exists b err, last (trace r.2) = Some (EvRetryOn err b) /\ retryOn err b = Throw e)
     \/ (exists hook b err d, onRetry = Some hook
           /\ last (trace r.2) = Some (EvOnRetry err b d) /\ hook err b d = Throw e)).
  assert (HP : Post (loop' a le w)).
  { apply (loop_invariant env _ _ _ _ _ _ _ _ _ (fun _ _ _ => True) Post); [| |done].
    - clear. intros b le w _ Hle.
      destruct (iteration' b le w) as [s w'] eqn:Hit.
      apply iteration_sound in Hit.
      iteration_cases Hit; unfold Post; cbn [fst snd]; try done.
      + intros e [= <-]. right. left. exists b, error.
        split; [|done]. rewrite Htr.
        change [EvCall b; EvRetryOn error b] with ([EvCall b] ++ [EvRetryOn error b]).
        by rewrite app_assoc, last_snoc.
      + intros e [= <-]. left. exists b, t1, d1.
        split; [|done]. rewrite Htr.
        change [EvCall b; EvRetryOn error b] with ([EvCall b] ++ [EvRetryOn error b]).
        by rewrite app_assoc, last_snoc.
      + delay_cases Hd; try done.
        * intros e [= <-]. right. right. exists hook, (b + 1), error, d'.
          split; [done|]. split; [|done].
          rewrite Htr2, !app_assoc. apply last_snoc.
        * by destruct Hs as [->|(el & c & at_' & Hab & ->)].
    - clear. intros b le w _ _.
      by destruct (exhausted_spec env maxRetries startTime le w) as (el & w2 & -> & _). }
  rewrite Hloop in HP. by apply HP.
Qed.

Lemma seqZ_snoc_from_1 (a : Z) : 0 <= a -> seqZ 1 (a + 1) = seqZ 1 a ++ [a + 1].
Proof.
  intros Ha. rewrite <- (Z2Nat.id a) at 1 by done.
  replace (Z.of_nat (Z.to_nat a) + 1) with (Z.of_nat (S (Z.to_nat a))) by lia.
  rewrite seqZ_S, Z2Nat.id by done. by rewrite (Z.add_comm 1 a).
Qed.

(** The hook is called with the attempts 1, 2, ... in order, each time with
    the delay that is slept next; only a hook that throws is not followed by
    its sleep. *)
Lemma loop_hook_sleeps h a le w out w' :
  onRetry = Some h -> 0 <= a ->
  onRetry_attempts w = seqZ 1 a -> onRetry_delays w = sleep_delays w ->
  loop' a le w = (out, w') ->
  (exists k, a <= k <= Z.max a maxRetries /\ onRetry_attempts w' = seqZ 1 k)
  /\ (onRetry_delays w' = sleep_delays w'
      \/ exists err b d e, onRetry_delays w' = sleep_delays w' ++ [d]
           /\ h err b d = Throw e /\ out = Throw (Rethrown e)).
Proof.
  intros Hhook Ha Hatt Hdel Hloop.
  pose (Inv := fun (b : Z) (_ : JsValue) (w : World) =>
     a <= b <= Z.max a maxRetries
     /\ onRetry_attempts w = seqZ 1 b /\ onRetry_delays w = sleep_delays w).
  pose (Post := fun (r : Completion Thrown T * World) =>
     (exists k, a <= k <= Z.max a maxRetries /\ onRetry_attempts r.2 = seqZ 1 k)
     /\ (onRetry_delays r.2 = sleep_delays r.2
         \/ exists err b d e, onRetry_delays r.2 = sleep_delays r.2 ++ [d]
              /\ h err b d = Throw e /\ r.1 = Throw (Rethrown e))).
  assert (Hsame : forall b w w' (out : Completion Thrown T),
            a <= b <= Z.max a maxRetries ->
            onRetry_attempts w = seqZ 1 b -> onRetry_delays w = sleep_delays w ->
            omap hook_attempt_of w' = [] -> omap hook_delay_of w' = [] ->
            omap sleep_of w' = [] ->
            forall w1, trace w1 = trace w ++ w' -> Post (out, w1)).
  { intros b w0 evs o Hb H1 H2 H3 H4 H5 w1 Htr. unfold Post. cbn [fst snd]. split.
    - exists b. split; [done|].
      by rewrite (onRetry_attempts_extend _ _ _ Htr), H3, app_nil_r.
    - left.
      rewrite (onRetry_delays_extend _ _ _ Htr), (sleep_delays_extend _ _ _ Htr), H4, H5.
      by rewrite !app_nil_r. }
  assert (HP : Post (loop' a le w)).
  { apply (loop_invariant env _ _ _ _ _ _ _ _ _ Inv Post); [| |split; [lia | done]].
    - clear -Ha Hhook Hsame. intros b le w (Hfrom & Hatt & Hdel) Hle.
      destruct (iteration' b le w) as [s w'] eqn:Hit.
      apply iteration_sound in Hit.
      destruct (delay_events_quiet b) as (Hq1 & Hq2 & Hq3).
      iteration_cases Hit; unfold Post, Inv; cbn [fst snd].
      + apply (Hsame b w []); try done. by rewrite app_nil_r.
      + by apply (Hsame b w [EvCall b]).
      + destruct (exhausted_spec env maxRetries startTime error w1) as (el & w2 & -> & Htr2).
        apply (Hsame b w [EvCall b]); try done. by rewrite Htr2.
      + by apply (Hsame b w [EvCall b; EvRetryOn error b]).
      + by apply (Hsame b w [EvCall b; EvRetryOn error b]).
      + by apply (Hsame b w [EvCall b; EvRetryOn error b]).
      + delay_cases Hd.
        * destruct (clamp_events_quiet at_ d2) as (Hc1 & Hc2 & Hc3).
          apply (Hsame b w ([EvCall b; EvRetryOn error b] ++
                   delay_events baseDelayMs maxDelayMs jitter b ++
                   [EvClamp at_ d2 (t2 - (at_ - startTime))%Q])); try done.
          -- by rewrite !omap_app, Hq3.
          -- by rewrite !omap_app, Hq2.
          -- by rewrite !omap_app, Hq1.
          -- by rewrite Htr2, Htr, <- app_assoc.
        * destruct (clamp_events_quiet at_ d2) as (Hc1 & Hc2 & Hc3).
          assert (Htr3 : trace w3 = trace w ++ ([EvCall b; EvRetryOn error b] ++
                    delay_events baseDelayMs maxDelayMs jitter b ++
                    clamp_events timeoutMs startTime at_ d2 ++ [EvOnRetry error (b + 1) d']))
            by (by rewrite Htr2, Htr, <- app_assoc).
          split.
          -- exists (b + 1). split; [lia|].
             rewrite (onRetry_attempts_extend _ _ _ Htr3), !omap_app, Hq3, Hc3, Hatt. cbn.
             rewrite seqZ_snoc_from_1 by lia. done.
          -- right. exists error, (b + 1), d', e2.
             rewrite (onRetry_delays_extend _ _ _ Htr3), (sleep_delays_extend _ _ _ Htr3),
               !omap_app, Hq1, Hq2, Hc1, Hc2, Hdel. cbn. rewrite app_nil_r.
             rewrite Hhook in Hh. injection Hh as <-. done.
        * destruct (clamp_events_quiet at_ d2) as (Hc1 & Hc2 & Hc3).
          assert (Htr3 : trace w3 = trace w ++ ([EvCall b; EvRetryOn error b] ++
                    delay_events baseDelayMs maxDelayMs jitter b ++
                    clamp_events timeoutMs startTime at_ d2 ++
                    [EvOnRetry error (b + 1) d'] ++ [EvSleep at_ d'])).
          { rewrite Htr2, Htr, <- app_assoc. unfold notify_events. by rewrite Hhook. }
          assert (Hatt' : onRetry_attempts w3 = seqZ 1 (b + 1)).
          { rewrite (onRetry_attempts_extend _ _ _ Htr3), !omap_app, Hq3, Hc3, Hatt. cbn.
            rewrite seqZ_snoc_from_1 by lia. done. }
          assert (Hdel' : onRetry_delays w3 = sleep_delays w3).
          { rewrite (onRetry_delays_extend _ _ _ Htr3), (sleep_delays_extend _ _ _ Htr3),
              !omap_app, Hq1, Hq2, Hc1, Hc2, Hdel. done. }
          destruct Hs as [->|(el & c & at_' & Hab & ->)].
          -- split; [lia | done].
          -- split; [|by left]. exists (b + 1). split; [lia | done].
    - clear -Hsame. intros b le w (Hfrom & Hatt & Hdel) Hlt.
      destruct (exhausted_spec env maxRetries startTime le w) as (el & w2 & -> & Htr2).
      apply (Hsame b w []); try done. by rewrite app_nil_r. }
  rewrite Hloop in HP. apply HP.
Qed.

(** The sleeps of a loop, in order, are those of the attempts 0, 1, ...: the
    sleep after the failure of attempt [i] lasts the delay computed for [i],
    clamped to the budget. *)
Lemma loop_sleep_schedule a le w :
  0 <= a <= maxRetries -> Forall2 slept_delay' (seqZ 0 a) (sleep_delays w) ->
  exists k, a <= k <= maxRetries
    /\ Forall2 slept_delay' (seqZ 0 k) (sleep_delays (loop' a le w).2).
Proof.
  intros Ha Hsl.
  pose (Inv := fun (b : Z) (_ : JsValue) (w : World) =>
     a <= b <= maxRetries /\ Forall2 slept_delay' (seqZ 0 b) (sleep_delays w)).
  pose (Post := fun (r : Completion Thrown T * World) =>
     exists k, a <= k <= maxRetries /\ Forall2 slept_delay' (seqZ 0 k) (sleep_delays r.2)).
  apply (loop_invariant env _ _ _ _ _ _ _ _ _ Inv Post); [| |split; [lia | done]].
  - clear -Ha. intros b le w (Hfrom & Hsl) Hle.
    destruct (iteration' b le w) as [s w'] eqn:Hit.
    apply iteration_sleeps in Hit.
    assert (Hmore : forall ms, slept_delay' b ms ->
              Forall2 slept_delay' (seqZ 0 (b + 1)) (sleep_delays w ++ [ms])).
    { intros ms Hms. rewrite seqZ_snoc by lia. apply Forall2_app; [done|].
      by repeat constructor. }
    destruct s as [v|e|e|e]; unfold Post, Inv; cbn [fst snd].
    + exists b. by rewrite Hit.
    + destruct Hit as [->|(Hlt & ms & -> & Hms)].
      * by exists b.
      * exists (b + 1). split; [lia | by apply Hmore].
    + destruct (exhausted_spec env maxRetries startTime e w') as (el & w2 & -> & Htr).
      cbn [snd]. exists b. unfold sleep_delays in *. by rewrite Htr, Hit.
    + destruct Hit as (Hlt & ms & -> & Hms). split; [lia | by apply Hmore].
  - clear. intros b le w (Hfrom & _) Hlt. lia.
Qed.

(** A delay is computed once for each failed attempt that is to be retried,
    with the index of that attempt, and [Math.random()] is called once for
    each delay when [jitter] is set and never otherwise. *)
Lemma loop_random_calls a le w :
  0 <= a <= maxRetries -> delay_indices w = seqZ 0 a ->
  random_calls w = (if jitter then Z.to_nat a else 0%nat) ->
  exists k, a <= k <= maxRetries
    /\ delay_indices (loop' a le w).2 = seqZ 0 k
    /\ random_calls (loop' a le w).2 = (if jitter then Z.to_nat k else 0%nat).
Proof.
  intros Ha Hidx Hrand.
  pose (Inv := fun (b : Z) (_ : JsValue) (w : World) =>
     a <= b <= maxRetries /\ delay_indices w = seqZ 0 b
     /\ random_calls w = (if jitter then Z.to_nat b else 0%nat)).
  pose (Post := fun (r : Completion Thrown T * World) =>
     exists k, a <= k <= maxRetries /\ delay_indices r.2 = seqZ 0 k
       /\ random_calls r.2 = (if jitter then Z.to_nat k else 0%nat)).
  assert (Hsame : forall b w evs w1,
            a <= b <= maxRetries -> delay_indices w = seqZ 0 b ->
            random_calls w = (if jitter then Z.to_nat b else 0%nat) ->
            omap delay_index_of evs = [] -> omap random_of evs = [] ->
            trace w1 = trace w ++ evs ->
            exists k, a <= k <= maxRetries /\ delay_indices w1 = seqZ 0 k
              /\ random_calls w1 = (if jitter then Z.to_nat k else 0%nat)).
  { intros b w0 evs w1 Hb H1 H2 H3 H4 Htr. exists b. split; [done|].
    unfold delay_indices, random_calls in *.
    by rewrite Htr, !omap_app, H3, H4, !app_nil_r. }
  assert (Hblock : forall b w error evs w1 w3,
            a <= b < maxRetries -> delay_indices w = seqZ 0 b ->
            random_calls w = (if jitter then Z.to_nat b else 0%nat) ->
            trace w1 = trace w ++ [EvCall b; EvRetryOn error b] ->
            omap delay_index_of evs = [] -> omap random_of evs = [] ->
            trace w3 = trace w1 ++ delay_events baseDelayMs maxDelayMs jitter b ++ evs ->
            delay_indices w3 = seqZ 0 (b + 1)
            /\ random_calls w3 = (if jitter then Z.to_nat (b + 1) else 0%nat)).
  { clear -Ha. intros b w0 error evs w1 w3 Hb H1 H2 Htr H3 H4 Htr2.
    unfold delay_indices, random_calls in *.
    rewrite Htr2, Htr, !omap_app, H3, H4, !length_app, H1, H2.
    rewrite seqZ_snoc by lia. unfold delay_events.
    destruct jitter; cbn; (split; [by rewrite app_nil_r | lia]). }
  apply (loop_invariant env _ _ _ _ _ _ _ _ _ Inv Post); [| |split; [lia | done]].
  - clear -Ha Hsame Hblock. intros b le w (Hfrom & Hidx & Hrand) Hle.
    destruct (iteration' b le w) as [s w'] eqn:Hit.
    apply iteration_sound in Hit.
    iteration_cases Hit; unfold Post, Inv; cbn [fst snd].
    + apply (Hsame b w []); try done. by rewrite app_nil_r.
    + by apply (Hsame b w [EvCall b]).
    + destruct (exhausted_spec env maxRetries startTime error w1) as (el & w2 & -> & Htr2).
      cbn [fst snd]. apply (Hsame b w [EvCall b]); try done. by rewrite Htr2.
    + by apply (Hsame b w [EvCall b; EvRetryOn error b]).
    + by apply (Hsame b w [EvCall b; EvRetryOn error b]).
    + by apply (Hsame b w [EvCall b; EvRetryOn error b]).
    + assert (Hnew : delay_indices w2 = seqZ 0 (b + 1)
                     /\ random_calls w2 = (if jitter then Z.to_nat (b + 1) else 0%nat)).
      { delay_cases Hd.
        - apply (Hblock b w error [EvClamp at_ d2 (t2 - (at_ - startTime))%Q] w1);
            try done; lia.
        - apply (Hblock b w error (clamp_events timeoutMs startTime at_ d2
                                     ++ [EvOnRetry error (b + 1) d']) w1); try done; [lia| |].
          + rewrite omap_app. unfold clamp_events. by destruct timeoutMs.
          + rewrite omap_app. unfold clamp_events. by destruct timeoutMs.
        - apply (Hblock b w error (clamp_events timeoutMs startTime at_ d2
                   ++ notify_events onRetry b error d' ++ [EvSleep at_ d']) w1);
            try done; [lia| |].
          + rewrite !omap_app. unfold clamp_events, notify_events.
            by destruct timeoutMs, onRetry.
          + rewrite !omap_app. unfold clamp_events, notify_events.
            by destruct timeoutMs, onRetry. }
      destruct Hnew as [Hi Hr].
      destruct s1 as [v|e|e|e].
      * exists (b + 1). split; [lia | done].
      * exists (b + 1). split; [lia | done].
      * destruct (exhausted_spec env maxRetries startTime e w2) as (el & w4 & -> & Htr4).
        cbn [snd]. exists (b + 1). split; [lia|].
        unfold delay_indices, random_calls in *. by rewrite Htr4.
      * split; [lia | done].
  - clear. intros b le w (Hfrom & _) Hlt. lia.
Qed.

(** A first attempt that is not the last and fails with an error that the
    classifier refuses ends the loop: the error is rethrown as it is. *)
Lemma loop_rejects_first_error e le w out w' :
  1 <= maxRetries -> trace w = [] ->
  (forall t, exists d, fn env 0 t = (Throw e, d)) ->
  retryOn e 0 = Normal false ->
  loop' 0 le w = (out, w') ->
  (trace w' = [] /\ exists x, out = Throw (Retry x) /\ interrupted' x)
  \/ (trace w' = [EvCall 0; EvRetryOn e 0] /\ out = Throw (Rethrown e)).
Proof.
  intros H1 Hnil Hfail Hpol. rewrite loop_body.
  destruct (Z.leb_spec 0 maxRetries) as [_|?]; [|lia].
  destruct (iteration' 0 le w) as [s w1] eqn:Hit.
  apply iteration_sound in Hit.
  assert (Herr : forall t d error, fn env 0 t = (Throw error, d) -> error = e).
  { intros t d error H. destruct (Hfail t) as [d' H']. congruence. }
  iteration_cases Hit.
  - intros [= <- <-]. left. rewrite Htr. eauto.
  - destruct (Hfail t1) as [d' H']. congruence.
  - lia.
  - apply Herr in Hfn as ->. congruence.
  - apply Herr in Hfn as ->. intros [= <- <-]. right. by rewrite Htr, Hnil.
  - apply Herr in Hfn as ->. congruence.
  - apply Herr in Hfn as ->. congruence.
Qed.

(** With an operation that fails [k] times with errors that the classifier
    accepts and then succeeds, and a hook that returns, the loop is
    interrupted or returns the value of attempt [k]. *)
Lemma loop_succeeds (err : Z -> JsValue) (k : Z) (val : T) a le w out w' :
  0 <= k <= maxRetries ->
  (forall b t, 0 <= b < k -> exists d, fn env b t = (Throw (err b), d)) ->
  (forall t, exists d, fn env k t = (Normal val, d)) ->
  (forall b, 0 <= b < k -> retryOn (err b) b = Normal true) ->
  (forall hook e b d, onRetry = Some hook -> exists u, hook e b d = Normal u) ->
  0 <= a <= k -> calls w = seqZ 0 a ->
  loop' a le w = (out, w') ->
  (exists x, out = Throw (Retry x) /\ interrupted' x)
  \/ (out = Normal val /\ calls w' = seqZ 0 (k + 1)).
Proof.
  intros Hk Hfail Hsucc Hpol Hhook Ha Hc Hloop.
  pose (Inv := fun (a : Z) (_ : JsValue) (w : World) =>
                 0 <= a <= k /\ calls w = seqZ 0 a).
  pose (Post := fun (r : Completion Thrown T * World) =>
     (exists x, r.1 = Throw (Retry x) /\ interrupted' x)
     \/ (r.1 = Normal val /\ calls r.2 = seqZ 0 (k + 1))).
  assert (HP : Post (loop' a le w)).
  { apply (loop_invariant env _ _ _ _ _ _ _ _ _ Inv Post); [| |done].
    - clear -Hk Hfail Hsucc Hpol Hhook. intros a le w [Ha Hc] Hle.
      destruct (iteration' a le w) as [s w'] eqn:Hit.
      apply iteration_sound in Hit.
      pose proof (iteration_outcome_calls _ _ _ _ _ _ _ _ _ _ _ _ _ _ _ Hit) as Hcalls.
      assert (Hsnoc : calls w ++ [a] = seqZ 0 (a + 1)) by (apply snoc_seqZ; [lia | done]).
      assert (Hthrows : forall t d error, fn env a t = (Throw error, d) ->
                a < k /\ error = err a).
      { intros t d error H. destruct (Z_lt_le_dec a k) as [Hlt|Hge].
        - split; [done|]. destruct (Hfail a t) as [d' H']; [lia|]. congruence.
        - assert (a = k) as -> by lia. destruct (Hsucc t) as [d' H']. congruence. }
      iteration_cases Hit; unfold Post, Inv; cbn [fst snd].
      + left. eauto.
      + right. destruct (Z_lt_le_dec a k) as [Hlt'|Hge'].
        * destruct (Hfail a t1) as [d' H']; [lia|]. congruence.
        * assert (a = k) as -> by lia. destruct (Hsucc t1) as [d' H'].
          split; [congruence | by rewrite Hcalls].
      + apply Hthrows in Hfn as [Hlt' _]. lia.
      + apply Hthrows in Hfn as [Hlt' ->]. rewrite Hpol in Hp by lia. done.
      + apply Hthrows in Hfn as [Hlt' ->]. rewrite Hpol in Hp by lia. done.
      + left. eauto.
      + apply Hthrows in Hfn as [Hlt' ->]. delay_cases Hd.
        * destruct Hcalls as [Hx _]. left. eauto.
        * destruct (Hhook hook (err a) (a + 1) d' Hh) as [u Hu]. congruence.
        * destruct Hs as [->|(el & c & at_' & Hab & ->)].
          -- destruct Hcalls as [_ Hc']. split; [lia | by rewrite Hc'].
          -- destruct Hcalls as [Hx _]. left. eauto.
    - clear -Hk. intros a le w [Ha Hc] Hlt. lia. }
  rewrite Hloop in HP. apply HP.
Qed.

End MoreRunFacts.

(** ** Further properties of whole runs *)


(** X14.  A run that resolves returns the value of the last call of the
    operation, and that call is the last thing the run did.  The calls are
    those of the attempts 0 to [a] for some [a <= maxRetries]; each call
    before the last failed with an error that the retry predicate accepted,
    and was followed by one sleep. *)
Theorem resolved_run_returns_last_call {T} (env : Env T) options t0 (v : T) w' :
  smartRetry env options t0 = (Normal v, w') ->
  exists a t d, 0 <= a <= effective_maxRetries options
    /\ fn env a t = (Normal v, d)
    /\ calls w' = seqZ 0 (a + 1)
    /\ last (trace w') = Some (EvCall a)
    /\ length (sleep_delays w') = Z.to_nat a
    /\ forall b, 0 <= b < a ->
         exists e t d, fn env b t = (Throw e, d)
           /\ effective_retryOn options e b = Normal true.
Proof.
  destruct (smartRetry_cases env options t0)
    as [(e & _ & ->)|[(_ & _ & ->)|(_ & _ & Hn & ->)]]; [done | done |].
  intros Hloop. eapply loop_resolved in Hloop; [|lia|done|done|intros; lia].
  destruct Hloop as (k & t & d & Hk & Hrest). exists k, t, d. split; [lia | done].
Qed.

Lemma resolved_run_returns_last_call_witness :
  exists a t d, 0 <= a <= effective_maxRetries options_backoff_hook
    /\ fn (env_succeeds_at 2) a t = (Normal "done"%string, d)
    /\ calls (smartRetry (env_succeeds_at 2) options_backoff_hook 0).2 = seqZ 0 (a + 1)
    /\ last (trace (smartRetry (env_succeeds_at 2) options_backoff_hook 0).2)
       = Some (EvCall a)
    /\ length (sleep_delays (smartRetry (env_succeeds_at 2) options_backoff_hook 0).2)
       = Z.to_nat a
    /\ forall b, 0 <= b < a ->
         exists e t d, fn (env_succeeds_at 2) b t = (Throw e, d)
           /\ effective_retryOn options_backoff_hook e b = Normal true.
Proof.
  apply (resolved_run_returns_last_call (env_succeeds_at 2) options_backoff_hook 0
           "done"%string).
  vm_compute. reflexivity.
Defined.

(** X15.  A value other than the errors of errors.ts that a run rejects
    with is the error of a call that the retry predicate refused to retry,
    handed over as it is, or what the retry predicate or the hook threw.
    The call of that callback is the last thing the run did: nothing is
    slept and the operation is not called again. *)
Theorem rethrown_value_origin {T} (env : Env T) options t0 (e : JsValue) w' :
  smartRetry env options t0 = (Throw (Rethrown e), w') ->
  (exists a t d, last (trace w') = Some (EvRetryOn e a)
     /\ a < effective_maxRetries options
     /\ fn env a t = (Throw e, d) /\ effective_retryOn options e a = Normal false)
  \/ (exists a err, last (trace w') = Some (EvRetryOn err a)
        /\ effective_retryOn options err a = Throw e)
  \/ (exists hook a err d, onRetry options = Some hook
        /\ last (trace w') = Some (EvOnRetry err a d) /\ hook err a d = Throw e).
Proof.
  destruct (smartRetry_cases env options t0)
    as [(c & _ & ->)|[(_ & _ & ->)|(_ & _ & Hn & ->)]]; [done | done |].
  apply loop_rethrown.
Qed.

Lemma rethrown_value_origin_witness :
  (exists a t d,
     last (trace (smartRetry env_bad_request options_never_retry 0).2)
     = Some (EvRetryOn (JString "bad request") a)
     /\ a < effective_maxRetries options_never_retry
     /\ fn env_bad_request a t = (Throw (JString "bad request"), d)
     /\ effective_retryOn options_never_retry (JString "bad request") a = Normal false)
  \/ (exists a err,
        last (trace (smartRetry env_bad_request options_never_retry 0).2)
        = Some (EvRetryOn err a)
        /\ effective_retryOn options_never_retry err a = Throw (JString "bad request"))
  \/ (exists hook a err d, onRetry options_never_retry = Some hook
        /\ last (trace (smartRetry env_bad_request options_never_retry 0).2)
           = Some (EvOnRetry err a d)
        /\ hook err a d = Throw (JString "bad request")).
Proof.
  apply (rethrown_value_origin env_bad_request options_never_retry 0 (JString "bad request")).
  vm_compute. reflexivity.
Defined.



(** A positive base and a positive cap give a positive delay of at most the
    cap, for every attempt. *)
Lemma calculateBackoffDelay_positive (attempt : Z) (base cap : Q) :
  (0 < base)%Q -> (0 < cap)%Q ->
  exists d, calculateBackoffDelay attempt (Fin base) (Fin cap) = Fin d
    /\ (0 < d)%Q /\ (d <= cap)%Q.
Proof.
  intros Hbase Hcap.
  assert (Hpow : (0 < 2 ^ attempt)%Q) by (by apply Qpower_0_lt).
  unfold calculateBackoffDelay.
  destruct (backoff_product_cases attempt base Hbase) as [[Hp Hn]|[Hp Hf]];
    cbv zeta in Hp; rewrite Hp; cbn.
  - exists cap. repeat split; lra.
  - eexists. repeat split; [|apply Q.le_min_l].
    apply Q.min_glb_lt; [done | nra].
Qed.

(** The delay slept after the failure of attempt [a] is a finite number
    between zero and the backoff delay of [a], itself at most the cap. *)
Lemma slept_delay_bounded {T} (env : Env T) (base cap : Q) jitter timeoutMs startTime a ms :
  (0 < base)%Q -> (0 < cap)%Q -> (cap < OVERFLOW)%Q ->
  (forall n, (0 <= random env n)%Q /\ (random env n < 1)%Q) ->
  slept_delay env base cap jitter timeoutMs startTime a ms ->
  exists q d, ms = Fin q /\ calculateBackoffDelay a (Fin base) (Fin cap) = Fin d
    /\ (0 <= q)%Q /\ (q <= d)%Q /\ (d <= cap)%Q.
Proof.
  intros Hbase Hcap Hov Hrand (n & at_ & Hb).
  destruct (calculateBackoffDelay_positive a base cap Hbase Hcap) as (d & Hd & Hd0 & Hdc).
  assert (Hj : exists j, jittered_delay env base cap jitter a n = Fin j
                 /\ (0 <= j)%Q /\ (j <= d)%Q).
  { unfold jittered_delay. cbv zeta. rewrite Hd. destruct jitter.
    - destruct (Hrand n) as [Hr0 Hr1].
      pose proof OVERFLOW_pos as Hpos.
      exists (random env n * d)%Q. split; [|split; nra].
      unfold applyJitter, num_mul.
      destruct (overflow_cases (random env n * d)) as [[? ?]|[[? ?]|(? & ? & ?)]];
        [nra | nra | done].
    - exists d. repeat split; lra. }
  destruct Hj as (j & Hj & Hj0 & Hjc). rewrite Hj in Hb.
  unfold within_budget in Hb. destruct timeoutMs as [t|].
  - destruct Hb as [Hrem ->]. cbn. eexists _, d. split; [done|]. split; [done|].
    split; [apply Q.min_glb; lra|]. split; [|done].
    eapply Qle_trans; [apply Q.le_min_l | done].
  - subst ms. exists j, d. eauto 10.
Qed.



(** Without jitter and without a timeout, the delay slept after the failure
    of attempt [a] is the backoff delay of [a]. *)
Lemma slept_delay_plain {T} (env : Env T) (base cap : Q) startTime a ms :
  slept_delay env base cap false None startTime a ms ->
  ms = calculateBackoffDelay a (Fin base) (Fin cap).
Proof. by intros (n & at_ & ->). Qed.

Lemma Forall2_computed {A B} (P : A -> B -> Prop) (f : A -> B) (l : list A) (k : list B) :
  (forall a b, P a b -> b = f a) -> Forall2 P l k -> k = map f l.
Proof.
  intros HP H. induction H as [|a b l k Hab _ IH]; [done|].
  cbn. f_equal; [by apply HP | done].
Qed.

(** X18.  With [jitter: false] and no timeout the delays slept are exactly
    the backoff delays of the attempts 0, 1, ..., k - 1, in order. *)
Theorem backoff_schedule_without_jitter {T} (env : Env T) options t0 :
  jitter options = Some false -> timeoutMs options = None ->
  exists k, 0 <= k <= Z.max 0 (effective_maxRetries options)
    /\ sleep_delays (smartRetry env options t0).2
       = map (fun a => calculateBackoffDelay a
                         (Fin (default DEFAULTS.baseDelayMs (baseDelayMs options)))
                         (Fin (default DEFAULTS.maxDelayMs (maxDelayMs options))))
             (seqZ 0 k).
Proof.
  intros Hj Ht.
  destruct (smartRetry_cases env options t0)
    as [(c & _ & ->)|[(_ & _ & ->)|(_ & _ & Hn & ->)]].
  - exists 0. split; [lia | done].
  - exists 0. split; [lia | done].
  - destruct (loop_sleep_schedule env (effective_maxRetries options)
                (default DEFAULTS.baseDelayMs (baseDelayMs options))
                (default DEFAULTS.maxDelayMs (maxDelayMs options))
                (default DEFAULTS.jitter (jitter options))
                (effective_retryOn options) (onRetry options) (timeoutMs options)
                (signal options) (t0 + lag env 0)%Q 0 JUndefined (entry_world env t0))
      as (k & Hk & Hsl); [lia | constructor |].
    exists k. split; [lia|].
    eapply Forall2_computed; [|exact Hsl].
    rewrite Hj, Ht. cbn [default from_option id].
    intros a ms Hms. by eapply slept_delay_plain.
Qed.

Lemma backoff_schedule_without_jitter_witness :
  exists k, 0 <= k <= Z.max 0 (effective_maxRetries options_backoff_hook)
    /\ sleep_delays (smartRetry (env_succeeds_at 100) options_backoff_hook 0).2
       = map (fun a => calculateBackoffDelay a
                (Fin (default DEFAULTS.baseDelayMs (baseDelayMs options_backoff_hook)))
                (Fin (default DEFAULTS.maxDelayMs (maxDelayMs options_backoff_hook))))
             (seqZ 0 k).
Proof.
  apply (backoff_schedule_without_jitter (env_succeeds_at 100) options_backoff_hook 0);
    reflexivity.
Defined.

(** X19.  A delay is computed once after each failed attempt that is to be
    retried, with the index of that attempt as retry index; [Math.random()]
    is called once per delay computed when [jitter] is set, which is the
    default, and never when it is not. *)
Theorem random_called_once_per_delay {T} (env : Env T) options t0 :
  exists k, 0 <= k <= Z.max 0 (effective_maxRetries options)
    /\ delay_indices (smartRetry env options t0).2 = seqZ 0 k
    /\ random_calls (smartRetry env options t0).2
       = (if default DEFAULTS.jitter (jitter options) then Z.to_nat k else 0%nat).
Proof.
  destruct (smartRetry_cases env options t0)
    as [(c & _ & ->)|[(_ & _ & ->)|(_ & _ & Hn & ->)]].
  - exists 0. split; [lia|]. split; [done|]. by destruct (default _ _).
  - exists 0. split; [lia|]. split; [done|]. by destruct (default _ _).
  - destruct (loop_random_calls env (effective_maxRetries options)
                (default DEFAULTS.baseDelayMs (baseDelayMs options))
                (default DEFAULTS.maxDelayMs (maxDelayMs options))
                (default DEFAULTS.jitter (jitter options))
                (effective_retryOn options) (onRetry options) (timeoutMs options)
                (signal options) (t0 + lag env 0)%Q 0 JUndefined (entry_world env t0))
      as (k & Hk & Hrest); [lia | done | by destruct (default _ _) |].
    exists k. split; [lia | done].
Qed.

(** Every error of errors.ts that a run ends with is accounted for by the
    calls the run made. *)
Lemma smartRetry_error_account {T} (env : Env T) options t0 x w' :
  smartRetry env options t0 = (Throw (Retry x), w') ->
  error_account env (effective_maxRetries options) (timeoutMs options) (signal options)
    (calls w') x.
Proof.
  destruct (smartRetry_cases env options t0)
    as [(c & _ & ->)|[(_ & Hab & ->)|(_ & _ & Hn & ->)]]; [done| |].
  - intros [= <- <-]. left. exists JUndefined. split; [|done]. right.
    split; [done|]. split; [done|].
    apply aborted_inv in Hab as (sg & ab & ? & ? & _). eauto.
  - intros Hloop. eapply loop_error_account; [| | |exact Hloop|done]; [lia | done | done].
Qed.

(** X20.  An [AbortError] is thrown only when a signal was given that is
    aborted at some instant, and its cause is always [signal.reason]: the
    rethrow with [lastError] as cause, in the [catch] around the sleep, is
    never reached. *)
Theorem abort_error_reports_signal {T} (env : Env T) options t0 x w' :
  smartRetry env options t0 = (Throw (Retry x), w') ->
  name x = "AbortError" ->
  cause x = signal_reason (signal options)
  /\ exists sg ab, signal options = Some sg /\ abortAt sg = Some ab.
Proof.
  intros Hrun Hname. apply smartRetry_error_account in Hrun.
  destruct Hrun as [(le & [(Hn & _)|(_ & Hc & Hs)] & _)|(Hn & _)]; [congruence | done | congruence].
Qed.

(** X21.  A [TimeoutError] is thrown only when [timeoutMs] is set and the
    elapsed time it reports has reached it; its cause is the error of the
    last call of the operation, and [undefined] when the operation was not
    called. *)
Theorem timeout_error_reports_last_error {T} (env : Env T) options t0 x w' :
  smartRetry env options t0 = (Throw (Retry x), w') ->
  name x = "TimeoutError" ->
  (exists t, timeoutMs options = Some t /\ (t <= totalElapsedMs (metadata x))%Q)
  /\ last_error_of env (calls w') (cause x).
Proof.
  intros Hrun Hname. apply smartRetry_error_account in Hrun.
  destruct Hrun as [(le & [(_ & Hc & Ht)|(Hn & _)] & Hlast)|(Hn & _)];
    [|congruence..].
  split; [done|]. rewrite Hc. by apply Hlast.
Qed.


(** X23.  Without a [retryOn] option the default policy decides: when
    [maxRetries >= 1] and the first call fails with an error that
    [defaultRetryPolicy] rejects, such as one of status 404, the operation is
    called once and its error is rethrown as it is. *)
Theorem default_policy_rejection_rethrows {T} (env : Env T) options t0 (e : JsValue)
    out w' :
  validateOptions options = None ->
  1 <= effective_maxRetries options ->
  retryOn options = None ->
  defaultRetryPolicy e = false ->
  (forall t, exists d, fn env 0 t = (Throw e, d)) ->
  smartRetry env options t0 = (out, w') ->
  calls w' <> [] ->
  calls w' = [0] /\ out = Throw (Rethrown e)
  /\ trace w' = [EvCall 0; EvRetryOn e 0].
Proof.
  intros Hv H1 Hp Hpol Hfail Hrun Hcalled.
  rewrite (smartRetry_valid env options t0 Hv) in Hrun.
  destruct (aborted (signal options) _).
  { injection Hrun as <- <-. done. }
  eapply loop_rejects_first_error in Hrun; [|done|done|exact Hfail|].
  2: { unfold effective_retryOn. rewrite Hp. cbn. by rewrite Hpol. }
  destruct Hrun as [[Hnil _]|[Htr ->]].
  - unfold calls in Hcalled. by rewrite Hnil in Hcalled.
  - split; [unfold calls; by rewrite Htr | done].
Qed.

Lemma default_policy_rejection_rethrows_witness :
  calls (smartRetry env_not_found options_default 0).2 = [0]
  /\ (smartRetry env_not_found options_default 0).1
     = Throw (Rethrown (JObject {[ "status" := JNumber 404 ]}))
  /\ trace (smartRetry env_not_found options_default 0).2
     = [EvCall 0; EvRetryOn (JObject {[ "status" := JNumber 404 ]}) 0].
Proof.
  apply (default_policy_rejection_rethrows env_not_found options_default 0
           (JObject {[ "status" := JNumber 404 ]})).
  - reflexivity.
  - vm_compute. discriminate.
  - reflexivity.
  - reflexivity.
  - intros t. exists 0%Q. reflexivity.
  - apply run_pair.
  - vm_compute. discriminate.
Defined.

Lemma abort_error_reports_signal_witness :
  cause abort_during_first_sleep = signal_reason (signal (options_aborted_at 500))
  /\ exists sg ab, signal (options_aborted_at 500) = Some sg /\ abortAt sg = Some ab.
Proof.
  apply (abort_error_reports_signal (env_succeeds_at 100) (options_aborted_at 500) 0
           abort_during_first_sleep
           (smartRetry (env_succeeds_at 100) (options_aborted_at 500) 0).2).
  - vm_compute. reflexivity.
  - reflexivity.
Defined.

Lemma timeout_error_reports_last_error_witness :
  (exists t, timeoutMs options_budget_250 = Some t
     /\ (t <= totalElapsedMs (metadata timeout_after_three_attempts))%Q)
  /\ last_error_of env_always_failing
       (calls (smartRetry env_always_failing options_budget_250 0).2)
       (cause timeout_after_three_attempts).
Proof.
  apply (timeout_error_reports_last_error env_always_failing options_budget_250 0
           timeout_after_three_attempts
           (smartRetry env_always_failing options_budget_250 0).2).
  - vm_compute. reflexivity.
  - reflexivity.
Defined.


(** X24.  With an operation that fails on the attempts before [k] with
    errors that the retry predicate accepts and succeeds on attempt
    [k <= maxRetries], and a hook, if any, that returns: unless the timeout
    or the signal cuts the run short, the run resolves with the value of
    attempt [k], after calling the attempts 0 to [k] in order. *)
Theorem eventual_success_is_returned {T} (env : Env T) options t0
    (err : Z -> JsValue) (k : Z) (v : T) out w' :
  validateOptions options = None ->
  0 <= k <= effective_maxRetries options ->
  (forall a t, 0 <= a < k -> exists d, fn env a t = (Throw (err a), d)) ->
  (forall t, exists d, fn env k t = (Normal v, d)) ->
  (forall a, 0 <= a < k -> effective_retryOn options (err a) a = Normal true) ->
  (forall hook e a d, onRetry options = Some hook -> exists u, hook e a d = Normal u) ->
  smartRetry env options t0 = (out, w') ->
  (exists x, out = Throw (Retry x) /\ interruption x)
  \/ (out = Normal v /\ calls w' = seqZ 0 (k + 1)).
Proof.
  intros Hv Hk Hfail Hsucc Hpol Hhook Hrun.
  rewrite (smartRetry_valid env options t0 Hv) in Hrun.
  destruct (aborted (signal options) _) eqn:Hab.
  { injection Hrun as <- <-. left. eexists. split; [done|]. by right. }
  eapply (loop_succeeds env _ _ _ _ _ _ _ _ _ err k v) in Hrun; try done; [|lia].
  destruct Hrun as [(x & -> & Hx%interrupted_interruption)|?]; [left; eauto | by right].
Qed.

Lemma eventual_success_is_returned_witness :
  (exists x, (smartRetry (env_succeeds_at 2) options_backoff_hook 0).1 = Throw (Retry x)
             /\ interruption x)
  \/ ((smartRetry (env_succeeds_at 2) options_backoff_hook 0).1 = Normal "done"%string
      /\ calls (smartRetry (env_succeeds_at 2) options_backoff_hook 0).2 = seqZ 0 (2 + 1)).
Proof.
  apply (eventual_success_is_returned (env_succeeds_at 2) options_backoff_hook 0
           (fun _ => error_with_message "fail") 2 "done"%string).
  - reflexivity.
  - vm_compute. split; discriminate.
  - intros a t Ha. exists 0%Q. cbn.
    destruct (Z.ltb_spec a 2) as [_|?]; [reflexivity | lia].
  - intros t. exists 0%Q. reflexivity.
  - intros a _. reflexivity.
  - intros hook e a d [= <-]. by exists tt.
  - apply run_pair.
Defined.

(** ** The rounds of a run *)

Section RoundFacts.
Context {T : Type} (env : Env T).
Variables (maxRetries : Z) (baseDelayMs maxDelayMs : Q) (jitter : bool).
Variable retryOn : JsValue -> Z -> Completion JsValue bool.
Variable onRetry : option (JsValue -> Z -> num -> Completion JsValue unit).
Variable timeoutMs : option Q.
Variable signal : option AbortSignal.
Variable startTime : Q.

Local Abbreviation loop' :=
  (loop env maxRetries baseDelayMs maxDelayMs jitter retryOn onRetry timeoutMs signal
        startTime).
Local Abbreviation iteration' :=
  (iteration env maxRetries baseDelayMs maxDelayMs jitter retryOn onRetry timeoutMs signal
             startTime).
Local Abbreviation full_round' :=
  (full_round baseDelayMs maxDelayMs jitter onRetry timeoutMs startTime).
Local Abbreviation partial_round' :=
  (partial_round baseDelayMs maxDelayMs jitter timeoutMs startTime).
Local Abbreviation rounds_of' :=
  (rounds_of baseDelayMs maxDelayMs jitter onRetry timeoutMs startTime).

Ltac delay_cases H :=
  destruct H as [t2 at_ d2 w3 Ht2 Hle2 Htr2
                |at_ d2 d' hook e2 w3 Hb Hh He Htr2
                |at_ d2 d' s2 w3 Hb Hh Htr2 Hs].

Ltac iteration_cases H :=
  destruct H as [x w1 Hx Hn Htr
                |v t1 d1 w1 Hfn Htr
                |error t1 d1 w1 Hge Hfn Htr
                |error t1 d1 e1 w1 Hlt Hfn Hp Htr
                |error t1 d1 w1 Hlt Hfn Hp Htr
                |error t1 d1 x w1 Hlt Hfn Hp Hx Hn Htr
                |error t1 d1 w1 s1 w2 Hlt Hfn Hp Htr Hd].

(** A loop entered after the full rounds of the attempts before [a] leaves a
    trace of full rounds followed by one partial round. *)
Lemma loop_rounds a le w :
  0 <= a <= maxRetries ->
  (exists rounds, trace w = concat rounds /\ Forall2 full_round' (seqZ 0 a) rounds) ->
  exists k, a <= k <= maxRetries /\ rounds_of' k (trace (loop' a le w).2).
Proof.
  intros Ha Hr.
  pose (Inv := fun (b : Z) (_ : JsValue) (w : World) =>
     a <= b <= maxRetries
     /\ exists rounds, trace w = concat rounds /\ Forall2 full_round' (seqZ 0 b) rounds).
  pose (Post := fun (r : Completion Thrown T * World) =>
     exists k, a <= k <= maxRetries /\ rounds_of' k (trace r.2)).
  assert (Hstop : forall b w tail w1 (out : Completion Thrown T),
            Inv b JUndefined w -> partial_round' b tail ->
            trace w1 = trace w ++ tail -> Post (out, w1)).
  { intros b w0 tail w1 out (Hb & rounds & Htr0 & Hrounds) Htail Htr.
    exists b. split; [done|]. exists rounds, tail. cbn [snd]. by rewrite Htr, Htr0. }
  assert (Hfull : forall b w evs w1,
            Inv b JUndefined w -> b < maxRetries -> full_round' b evs ->
            trace w1 = trace w ++ evs -> Inv (b + 1) JUndefined w1).
  { clear -Ha. intros b w0 evs w1 (Hb & rounds & Htr0 & Hrounds) Hlt Hevs Htr.
    split; [lia|]. exists (rounds ++ [evs]). split.
    - rewrite Htr, Htr0, concat_app. cbn. by rewrite app_nil_r.
    - rewrite seqZ_snoc by lia. apply Forall2_app; [done|]. by repeat constructor. }
  apply (loop_invariant env _ _ _ _ _ _ _ _ _ Inv Post); [| |split; [lia | done]].
  - clear -Ha Hstop Hfull. intros b le w HInv Hle.
    destruct (iteration' b le w) as [s w'] eqn:Hit.
    apply iteration_sound in Hit.
    iteration_cases Hit.
    + apply (Hstop b w []); [done | by left | by rewrite app_nil_r].
    + apply (Hstop b w [EvCall b]); [done | right; by left | done].
    + destruct (exhausted_spec env maxRetries startTime error w1) as (el & w2 & -> & Htr2).
      apply (Hstop b w [EvCall b]); [done | right; by left | by rewrite Htr2].
    + apply (Hstop b w [EvCall b; EvRetryOn error b]); [done | | done].
      right. right. left. eauto.
    + apply (Hstop b w [EvCall b; EvRetryOn error b]); [done | | done].
      right. right. left. eauto.
    + apply (Hstop b w [EvCall b; EvRetryOn error b]); [done | | done].
      right. right. left. eauto.
    + delay_cases Hd.
      * eapply (Hstop b w); [done | |].
        -- right. right. right. left. by exists error, d2, at_, (t2 - (at_ - startTime))%Q.
        -- by rewrite Htr2, Htr, <- app_assoc.
      * eapply (Hstop b w); [done | |].
        -- right. right. right. right. by exists error, d2, at_, d'.
        -- by rewrite Htr2, Htr, <- app_assoc.
      * assert (Hnext : Inv (b + 1) JUndefined w3).
        { eapply (Hfull b w); [done | done | by exists error, d2, at_, d' |].
          by rewrite Htr2, Htr, <- app_assoc. }
        destruct Hs as [->|(el & c & at_' & Hab & ->)]; [done|].
        apply (Hstop (b + 1) w3 []); [done | by left | by rewrite app_nil_r].
  - clear. intros b le w (Hb & _) Hlt. lia.
Qed.

End RoundFacts.


(** ** The operation is started only while the run is live *)

Section Agreement.
Context {T : Type} (env : Env T) (fn' : Z -> Q -> Completion JsValue T * Q).
Variables (maxRetries : Z) (baseDelayMs maxDelayMs : Q) (jitter : bool).
Variable retryOn : JsValue -> Z -> Completion JsValue bool.
Variable onRetry : option (JsValue -> Z -> num -> Completion JsValue unit).
Variable timeoutMs : option Q.
Variable signal : option AbortSignal.
Variable startTime : Q.

Hypothesis agree : forall a t,
  0 <= a <= maxRetries -> live timeoutMs signal startTime t -> fn env a t = fn' a t.

Local Abbreviation env' := (with_operation env fn').

Lemma check_timeout_passed n c w w' :
  check_timeout env timeoutMs startTime n c w = (None, w') ->
  forall budget, timeoutMs = Some budget -> (now w' - startTime < budget)%Q.
Proof.
  unfold check_timeout, Date_now. intros H budget Ht. rewrite Ht in H. cbn in H.
  destruct (Qle_bool budget _) eqn:E; [done|]. injection H as <-. cbn.
  apply Qnot_le_lt. intros Hle%Qle_bool_iff. congruence.
Qed.

Lemma check_abort_passed n w w' :
  check_abort env signal startTime n w = (None, w') ->
  w' = w /\ aborted signal (now w) = false.
Proof.
  unfold check_abort. destruct (aborted signal (now w)); [|by intros [= <-]].
  by destruct (throw_abort _ _ _ _ _).
Qed.

Lemma iteration_agrees a le w :
  0 <= a <= maxRetries ->
  iteration env' maxRetries baseDelayMs maxDelayMs jitter retryOn onRetry timeoutMs signal
    startTime a le w
  = iteration env maxRetries baseDelayMs maxDelayMs jitter retryOn onRetry timeoutMs signal
      startTime a le w.
Proof.
  intros Ha. unfold iteration.
  change (check_timeout env' timeoutMs startTime) with (check_timeout env timeoutMs startTime).
  destruct (check_timeout env timeoutMs startTime a le w) as [[e|] w1] eqn:H1; [done|].
  change (check_abort env' signal startTime) with (check_abort env signal startTime).
  destruct (check_abort env signal startTime a w1) as [[e|] w2] eqn:H2; [done|].
  apply check_abort_passed in H2 as [-> Hab].
  assert (Hcall : invoke env' a w1 = invoke env a w1).
  { unfold invoke. cbn [fn with_operation]. rewrite <- agree; [done | done |].
    split; [done|]. by eapply check_timeout_passed. }
  rewrite Hcall. reflexivity.
Qed.

Lemma loop_agrees a le w :
  0 <= a ->
  loop env' maxRetries baseDelayMs maxDelayMs jitter retryOn onRetry timeoutMs signal
    startTime a le w
  = loop env maxRetries baseDelayMs maxDelayMs jitter retryOn onRetry timeoutMs signal
      startTime a le w.
Proof.
  remember (Z.to_nat (maxRetries + 1 - a)) as n eqn:Hn.
  revert a le w Hn. induction n as [n IH] using lt_wf_ind. intros a le w Hn Ha.
  rewrite !loop_body. destruct (Z.leb_spec a maxRetries) as [Hle|Hgt]; [|reflexivity].
  rewrite iteration_agrees by lia.
  destruct (iteration env _ _ _ _ _ _ _ _ _ a le w) as [[v|e|e|e] w']; try reflexivity.
  apply (IH (Z.to_nat (maxRetries + 1 - (a + 1)))); lia.
Qed.

End Agreement.

(** X26.  The operation is started only at instants at which the signal is
    not aborted and the elapsed time is below [timeoutMs], and only with the
    attempts 0 to [maxRetries]: what the operation would do at any other
    instant or attempt does not change the run. *)
Theorem operation_started_only_while_live {T} (env : Env T)
    (fn' : Z -> Q -> Completion JsValue T * Q) options t0 :
  (forall a t, 0 <= a <= effective_maxRetries options ->
     live (timeoutMs options) (signal options) (t0 + lag env 0)%Q t ->
     fn env a t = fn' a t) ->
  smartRetry (with_operation env fn') options t0 = smartRetry env options t0.
Proof.
  intros Hagree. unfold smartRetry.
  destruct (validateOptions options); [done|].
  change (Date_now (with_operation env fn')) with (Date_now env).
  destruct (Date_now env _) as [startTime w] eqn:Hnow.
  destruct (aborted (signal options) (now w)); [done|].
  injection Hnow as <- <-.
  by apply loop_agrees.
Qed.

Lemma operation_started_only_while_live_witness :
  smartRetry env_succeeds_after_500 (options_aborted_at 500) 0
  = smartRetry (env_succeeds_at 100) (options_aborted_at 500) 0.
Proof.
  apply (operation_started_only_while_live (env_succeeds_at 100)).
  intros a t _ [Hab _]. cbn in Hab. cbn [fn env_succeeds_after_500 with_operation].
  by rewrite Hab.
Defined.

(** ** How long a run takes *)

Lemma sleep_ends_by_timer (ms : num) (signal : option AbortSignal) (w : World) :
  (now (sleep ms signal w).2 <= now w + timer_delay ms)%Q.
Proof.
  pose proof (timer_delay_nonneg ms) as Hms.
  unfold sleep. cbn [now log].
  destruct (aborted signal (now w)) eqn:Hab; [cbn; lra|].
  destruct signal as [[[a|] rs]|]; cbn; try lra.
  destruct (Qle_bool _ a) eqn:Hle; cbn; [lra|].
  apply Qle_bool_false in Hle. lra.
Qed.

Lemma sleep_ends_by_abort (ms : num) (sg : AbortSignal) (ab : Q) (w : World) :
  abortAt sg = Some ab -> (now w <= ab)%Q ->
  (now (sleep ms (Some sg) w).2 <= ab)%Q.
Proof.
  intros Hab Hw. unfold sleep. cbn [now log].
  destruct (aborted (Some sg) (now w)) eqn:E; [done|].
  destruct sg as [a rs]. cbn in Hab. subst a. cbn.
  destruct (Qle_bool _ ab) eqn:Hle; cbn; [by apply Qle_bool_iff | lra].
Qed.

Section TimeFacts.
Context {T : Type} (env : Env T).
Variables (maxRetries : Z) (baseDelayMs maxDelayMs : Q) (jitter : bool).
Variable retryOn : JsValue -> Z -> Completion JsValue bool.
Variable onRetry : option (JsValue -> Z -> num -> Completion JsValue unit).
Variable timeoutMs : option Q.
Variable signal : option AbortSignal.
Variable startTime : Q.

(** The instant after which the run starts nothing, and the longest that a
    call of the operation takes. *)
Variables (limit longest : Q).

(** Reading the clock takes no time, and a call takes between no time and
    [longest]. *)
Hypothesis instant_clock : forall n, (lag env n == 0)%Q.
Hypothesis bounded_calls :
  forall a t, (0 <= (fn env a t).2)%Q /\ ((fn env a t).2 <= longest)%Q.

(** The limit is the deadline that the timeout sets, or the instant at which
    the signal is aborted. *)
Hypothesis limit_set :
  (exists budget, timeoutMs = Some budget /\ (limit == startTime + budget)%Q)
  \/ (exists sg, signal = Some sg /\ abortAt sg = Some limit).

Local Abbreviation loop' :=
  (loop env maxRetries baseDelayMs maxDelayMs jitter retryOn onRetry timeoutMs signal
        startTime).
Local Abbreviation iteration' :=
  (iteration env maxRetries baseDelayMs maxDelayMs jitter retryOn onRetry timeoutMs signal
             startTime).

Lemma Date_now_instant w t w' :
  Date_now env w = (t, w') -> now w' = t /\ (t == now w)%Q.
Proof.
  unfold Date_now. intros [= <- <-]. split; [done|]. cbn. rewrite instant_clock. ring.
Qed.

Lemma check_timeout_instant n c w r w' :
  check_timeout env timeoutMs startTime n c w = (r, w') ->
  (now w' == now w)%Q
  /\ (r = None -> forall budget, timeoutMs = Some budget ->
        (now w' < startTime + budget)%Q).
Proof.
  unfold check_timeout. destruct timeoutMs as [budget|]; [|by intros [= <- <-]].
  destruct (Date_now env w) as [t w1] eqn:H1. apply Date_now_instant in H1 as [Hn Ht].
  destruct (Qle_bool budget _) eqn:E; intros [= <- <-]; (split; [by rewrite Hn|]); [done|].
  intros _ ? [= <-]. rewrite Hn. apply Qle_bool_false in E. lra.
Qed.

Lemma throw_abort_instant n c w e w' :
  throw_abort env startTime n c w = (e, w') -> (now w' == now w)%Q.
Proof.
  unfold throw_abort.
  destruct (Date_now env w) as [t w1] eqn:H1. apply Date_now_instant in H1 as [Hn Ht].
  intros [= <- <-]. by rewrite Hn.
Qed.

Lemma check_abort_instant n w r w' :
  check_abort env signal startTime n w = (r, w') ->
  (now w' == now w)%Q /\ (r = None -> aborted signal (now w) = false).
Proof.
  unfold check_abort. destruct (aborted signal (now w)); [|by intros [= <- <-]].
  destruct (throw_abort _ _ _ _ _) as [e w1] eqn:H1. apply throw_abort_instant in H1.
  by intros [= <- <-].
Qed.

(** Once both checks have passed, the limit is still ahead. *)
Lemma checks_passed w1 w2 :
  (forall budget, timeoutMs = Some budget -> (now w1 < startTime + budget)%Q) ->
  aborted signal (now w1) = false -> (now w2 == now w1)%Q ->
  (now w2 < limit)%Q.
Proof.
  intros Ht Hab Hn. rewrite Hn.
  destruct limit_set as [(budget & Hb & ->)|(sg & Hsg & Hat)].
  - by apply Ht.
  - rewrite Hsg in Hab. cbn in Hab. rewrite Hat in Hab. by apply Qle_bool_false.
Qed.

Lemma invoke_duration a w r w' :
  invoke env a w = (r, w') -> (now w <= now w')%Q /\ (now w' <= now w + longest)%Q.
Proof.
  unfold invoke. pose proof (bounded_calls a (now w)) as [H0 H1].
  destruct (fn env a (now w)) as [r0 d]. intros [= <- <-]. cbn in *. lra.
Qed.

Lemma exhausted_instant e w :
  (now (exhausted (T:=T) env maxRetries startTime e w).2 == now w)%Q.
Proof.
  unfold exhausted.
  destruct (Date_now env w) as [t w1] eqn:H1. apply Date_now_instant in H1 as [Hn Ht].
  cbn. by rewrite Hn.
Qed.

Lemma clamp_delay_instant a error d w r w' :
  clamp_delay env timeoutMs startTime a error d w = (r, w') ->
  (now w' == now w)%Q
  /\ match r with
     | inl _ => True
     | inr d' => forall budget, timeoutMs = Some budget ->
                   (now w' + timer_delay d' <= startTime + budget)%Q
     end.
Proof.
  unfold clamp_delay. destruct timeoutMs as [budget|]; [|by intros [= <- <-]].
  destruct (Date_now env w) as [t w1] eqn:H1. apply Date_now_instant in H1 as [Hn Ht].
  destruct (Qle_bool _ 0) eqn:E; intros [= <- <-]; cbn [now log]; rewrite Hn;
    (split; [done|]); [done|].
  intros ? [= <-]. apply Qle_bool_false in E.
  pose proof (timer_delay_min d _ E). lra.
Qed.

(** A sleep that starts before the limit, of a delay clamped to the budget,
    is over by the limit. *)
Lemma sleep_or_abort_by_limit a error d w s w' :
  sleep_or_abort (T:=T) env signal startTime a error d w = (s, w') ->
  (now w <= limit)%Q ->
  (forall budget, timeoutMs = Some budget ->
     (now w + timer_delay d <= startTime + budget)%Q) ->
  (now w' <= limit)%Q.
Proof.
  intros H Hw Hd.
  assert (Hs : (now (sleep d signal w).2 <= limit)%Q).
  { destruct limit_set as [(budget & Hb & Hl)|(sg & Hsg & Hat)].
    - pose proof (sleep_ends_by_timer d signal w). specialize (Hd budget Hb). lra.
    - rewrite Hsg. by apply sleep_ends_by_abort. }
  revert H. unfold sleep_or_abort.
  destruct (sleep d signal w) as [[u|e] w1]; cbn in Hs.
  - by intros [= <- <-].
  - destruct (aborted signal (now w1));
      destruct (throw_abort _ _ _ _ _) as [x w2] eqn:Ha;
      apply throw_abort_instant in Ha; intros [= <- <-]; lra.
Qed.

Lemma delay_and_sleep_by_limit a error w s w' :
  delay_and_sleep (T:=T) env baseDelayMs maxDelayMs jitter onRetry timeoutMs signal
    startTime a error w = (s, w') ->
  (now w <= limit)%Q -> (now w' <= limit)%Q.
Proof.
  unfold delay_and_sleep. intros H Hw. revert H.
  destruct (retry_delay _ _ _ _ a w) as [d w1] eqn:H1.
  apply retry_delay_spec in H1 as [_ Hn1].
  destruct (clamp_delay _ _ _ a error d w1) as [r w2] eqn:H2.
  apply clamp_delay_instant in H2 as [Hn2 Hr].
  destruct r as [e|d'].
  - intros [= <- <-]. rewrite Hn2, Hn1. done.
  - destruct (notify onRetry a error d' w2) as [n w3] eqn:H3.
    apply notify_spec in H3 as (_ & Hn3 & _).
    destruct n as [u|e].
    + intros H4. eapply sleep_or_abort_by_limit; [exact H4 | |].
      * rewrite Hn3, Hn2, Hn1. done.
      * rewrite Hn3. done.
    + intros [= <- <-]. rewrite Hn3, Hn2, Hn1. done.
Qed.

(** A pass that starts by the limit ends by the limit or, when its call is
    the last thing it does, within the time of one call after it; it goes
    round again only by the limit. *)
Lemma iteration_by_limit a le w s w' :
  iteration' a le w = (s, w') ->
  (now w <= limit)%Q ->
  (now w' <= limit + longest)%Q
  /\ match s with Next _ => (now w' <= limit)%Q | _ => True end.
Proof.
  assert (Hlong : (0 <= longest)%Q).
  { destruct (bounded_calls 0 0) as [? ?]. lra. }
  unfold iteration. intros H Hw. revert H.
  destruct (check_timeout _ _ _ a le w) as [r1 w1] eqn:H1.
  apply check_timeout_instant in H1 as [Hn1 Hr1].
  destruct r1 as [e|]; [intros [= <- <-]; split; [lra | done]|].
  specialize (Hr1 eq_refl).
  destruct (check_abort _ _ _ a w1) as [r2 w2] eqn:H2.
  apply check_abort_instant in H2 as [Hn2 Hr2].
  destruct r2 as [e|]; [intros [= <- <-]; split; [lra | done]|].
  pose proof (checks_passed w1 w2 Hr1 (Hr2 eq_refl) Hn2) as Hahead.
  destruct (invoke env a w2) as [r3 w3] eqn:H3.
  apply invoke_duration in H3 as [Hn3 Hn3'].
  destruct r3 as [v|error]; [intros [= <- <-]; split; [lra | done]|].
  destruct (a >=? maxRetries); [intros [= <- <-]; split; [lra | done]|].
  destruct (retryOn error a) as [[|]|e];
    [|intros [= <- <-]; cbn; split; [lra | done]..].
  destruct (check_timeout _ _ _ (a + 1) error _) as [r4 w4] eqn:H4.
  apply check_timeout_instant in H4 as [Hn4 Hr4]. cbn [now log] in Hn4.
  destruct r4 as [e|]; [intros [= <- <-]; split; [lra | done]|].
  specialize (Hr4 eq_refl).
  destruct (check_abort _ _ _ (a + 1) w4) as [r5 w5] eqn:H5.
  apply check_abort_instant in H5 as [Hn5 Hr5].
  destruct r5 as [e|]; [intros [= <- <-]; split; [lra | done]|].
  pose proof (checks_passed w4 w5 Hr4 (Hr5 eq_refl) Hn5) as Hahead'.
  intros H6%delay_and_sleep_by_limit; [|lra].
  split; [lra|]. by destruct s.
Qed.

Lemma loop_by_limit a le w :
  (now w <= limit)%Q ->
  (now (loop' a le w).2 <= limit + longest)%Q.
Proof.
  assert (Hlong : (0 <= longest)%Q).
  { destruct (bounded_calls 0 0) as [? ?]. lra. }
  intros Hw.
  pose (Inv := fun (_ : Z) (_ : JsValue) (w : World) => (now w <= limit)%Q).
  pose (Post := fun (r : Completion Thrown T * World) =>
                  (now r.2 <= limit + longest)%Q).
  apply (loop_invariant env _ _ _ _ _ _ _ _ _ Inv Post); [| |done].
  - clear -instant_clock bounded_calls limit_set Hlong. intros b le w Hw Hle.
    destruct (iteration' b le w) as [s w'] eqn:Hit.
    apply iteration_by_limit in Hit as [Hn Hs]; [|done].
    destruct s as [v|e|e|e]; unfold Post, Inv; cbn [fst snd]; try done.
    rewrite exhausted_instant. done.
  - clear -instant_clock Hlong. intros b le w Hw _. unfold Post, Inv in *.
    rewrite exhausted_instant. lra.
Qed.

End TimeFacts.




